(** * Temporal-TV regularised NLCG reconstruction (cs_recon/recon.py)

    A shallow embedding of the two hand-written solvers of [recon.py]: the
    class [TotalVariationReconNLCG] and the free function
    [TotalVariationRecon_NLCG] with its helpers.

    Conventions of the embedding.
    - Floating-point numbers are idealised as real numbers ([R]); a complex
      number is a pair of reals.  [xp.finfo(float).eps] is [2^-52].
    - A three-dimensional array is a list of frames, a frame a list of rows,
      a row a list of complex numbers.  Element-wise operations zip their
      operands; the operands of every element-wise operation of a run have
      the same shape (the linear operators of sigpy check the shapes of
      their arguments and results on every application).
    - Python exceptions are values of [exn]; a computation that may raise
      returns a [result].
    - The class solver mutates arrays in place and binds several names to
      one array: its arrays live in a heap and its methods are written in a
      state-and-exception monad over that heap.
    - The forward operator and its adjoint (sigpy [Linop]s, [sp.nufft],
      [sp.nufft_adjoint]) are not part of this repository: they are
      parameters of the development. *)

From Stdlib Require Import Reals Lra Lia List Bool Arith Psatz.
Import ListNotations.
Open Scope R_scope.

Set Implicit Arguments.

(** ** Complex scalars *)

Definition C : Type := (R * R)%type.

Definition C0 : C := (0, 0).
Definition RtoC (r : R) : C := (r, 0).
Definition Cre (z : C) : R := fst z.
Definition Cim (z : C) : R := snd z.
Definition Cadd (z w : C) : C := (fst z + fst w, snd z + snd w).
Definition Csub (z w : C) : C := (fst z - fst w, snd z - snd w).
Definition Cneg (z : C) : C := (- fst z, - snd z).
Definition Cmul (z w : C) : C :=
  (fst z * fst w - snd z * snd w, fst z * snd w + snd z * fst w).
Definition Cconj (z : C) : C := (fst z, - snd z).
Definition Cscale (r : R) (z : C) : C := (r * fst z, r * snd z).
Definition Cdivr (z : C) (r : R) : C := (fst z / r, snd z / r).
Definition Cdiv (z w : C) : C :=
  let d := fst w * fst w + snd w * snd w in
  ((fst z * fst w + snd z * snd w) / d, (snd z * fst w - fst z * snd w) / d).
Definition Cabs (z : C) : R := sqrt (fst z * fst z + snd z * snd z).

(** [xp.finfo(float).eps] *)
Definition eps : R := / 2 ^ 52.

(** Boolean comparisons of reals, for the tests of the code. *)
Definition Rltb (x y : R) : bool := if Rlt_dec x y then true else false.
Definition Rgtb (x y : R) : bool := Rltb y x.

(** ** Exceptions *)

Inductive exn : Type :=
| IndexError
| ValueError
| ZeroDivisionError
| UnboundLocalError.

Inductive result (T : Type) : Type :=
| Ok (v : T)
| Raise (e : exn).
Arguments Raise {T} e.

Definition rbind {T U : Type} (r : result T) (k : T -> result U) : result U :=
  match r with
  | Ok v => k v
  | Raise e => Raise e
  end.

Declare Scope result_scope.
Delimit Scope result_scope with res.
Notation "x <- c1 ;; c2" := (rbind c1 (fun x => c2))
  (at level 61, c1 at next level, right associativity) : result_scope.
Notation "' p <- c1 ;; c2" := (rbind c1 (fun x => match x with p => c2 end))
  (at level 61, p pattern, c1 at next level, right associativity) : result_scope.

(** ** Arrays *)

Definition Row : Type := list C.
Definition Frame : Type := list Row.
Definition Array : Type := list Frame.

Fixpoint zipWith {X Y Z : Type} (f : X -> Y -> Z) (l : list X) (m : list Y) : list Z :=
  match l, m with
  | x :: l', y :: m' => f x y :: zipWith f l' m'
  | _, _ => []
  end.

Definition frame_map (f : C -> C) (a : Frame) : Frame := map (map f) a.
Definition frame_zip (f : C -> C -> C) (a b : Frame) : Frame :=
  zipWith (zipWith f) a b.
Definition arr_map (f : C -> C) (a : Array) : Array := map (frame_map f) a.
Definition arr_zip (f : C -> C -> C) (a b : Array) : Array :=
  zipWith (frame_zip f) a b.

Definition frame_add : Frame -> Frame -> Frame := frame_zip Cadd.
Definition frame_sub : Frame -> Frame -> Frame := frame_zip Csub.
Definition frame_neg : Frame -> Frame := frame_map Cneg.
Definition arr_add : Array -> Array -> Array := arr_zip Cadd.
Definition arr_sub : Array -> Array -> Array := arr_zip Csub.
Definition arr_scale (r : R) : Array -> Array := arr_map (Cscale r).
Definition arr_cmul (z : C) : Array -> Array := arr_map (Cmul z).

(** [a.flatten()], [a.size], [xp.zeros(a.shape)] *)
Definition frame_flatten (a : Frame) : list C := concat a.
Definition flatten (a : Array) : list C := concat (map frame_flatten a).
Definition size (a : Array) : nat := length (flatten a).
Definition zeros_like (a : Array) : Array := arr_map (fun _ => C0) a.

(** [xp.sum] of a real array, and Python's built-in [sum], which starts
    from 0 and adds from the left. *)
Definition Rsum (l : list R) : R := fold_right Rplus 0 l.
Definition py_sum (l : list R) : R := fold_left Rplus l 0.

(** [xp.vdot(a, b)]: the first argument is conjugated. *)
Definition Csum (l : list C) : C := fold_right Cadd C0 l.
Definition vdot (a b : Array) : C :=
  Csum (zipWith (fun z w => Cmul (Cconj z) w) (flatten a) (flatten b)).

(** [xp.diff(a, n=1, axis=0)] *)
Fixpoint diff (a : Array) : Array :=
  match a with
  | f0 :: ((f1 :: _) as t) => frame_sub f1 f0 :: diff t
  | _ => []
  end.

(** Assignment to one index and to a run of indices of the first axis.
    [l[i] = v] with [i] out of range is raised by the callers. *)
Fixpoint upd {X : Type} (i : nat) (v : X) (l : list X) : list X :=
  match l, i with
  | [], _ => []
  | _ :: t, O => v :: t
  | x :: t, S j => x :: upd j v t
  end.

Fixpoint assign_from {X : Type} (i : nat) (vs : list X) (l : list X) : list X :=
  match vs with
  | [] => l
  | v :: vs' => assign_from (S i) vs' (upd i v l)
  end.

(** [l[0]] and [l[-1]] *)
Definition first_frame (a : Array) : result Frame :=
  match a with
  | [] => Raise IndexError
  | f :: _ => Ok f
  end.

Definition last_frame (a : Array) : result Frame :=
  match a with
  | [] => Raise IndexError
  | f :: t => Ok (last t f)
  end.

(** [d / xp.sqrt(abs(d) ** 2 + xp.finfo(float).eps)], element-wise *)
Definition normalize (d : C) : C := Cdivr d (sqrt (Cabs d ^ 2 + eps)).

(** ** The temporal regulariser of the function-based solver *)

Local Open Scope result_scope.

(** [temporal_tv_update] *)
Definition temporal_tv_update (img : Array) : result Array :=
  let temp_a := diff img in
  let temp_b := arr_map normalize temp_a in
  let temp_c := diff temp_b in
  let ttv_update := zeros_like img in
  b0 <- first_frame temp_b ;;
  let ttv_update := upd 0 b0 ttv_update in
  let ttv_update := assign_from 1 temp_c ttv_update in
  bl <- last_frame temp_b ;;
  let ttv_update := upd (length ttv_update - 1) (frame_neg bl) ttv_update in
  Ok ttv_update.

(** [calculate_tnorm] *)
Definition calculate_tnorm (img : Array) (lambda_t : R) : R :=
  let dtimg := diff img in
  let dtimg := map Cabs (flatten dtimg) in
  let dtimg := py_sum dtimg in
  let dtimg := lambda_t * dtimg in
  dtimg / INR (size img).

(** ** The function-based solver: [TotalVariationRecon_NLCG] and helpers *)

Definition Weights : Type := list (list (list R)).

Definition kweighted (k : Array) (kweight : Weights) : Array :=
  zipWith (zipWith (zipWith (fun z w => Cscale w z))) k kweight.

(** [m.shape] of a three-dimensional array *)
Definition shape3 (m : Array) : nat * nat * nat :=
  (length m, length (hd [] m), length (hd [] (hd [] m))).

(** [sens_map * frame]: every coil map times the frame. *)
Definition coil_images (sens_map : Array) (f : Frame) : Array :=
  map (fun s => frame_zip Cmul s f) sens_map.

(** [xp.sum(coils * xp.conj(sens_map), axis)] over the coil axis, for one
    frame of shape [(rNy, rNx)]. *)
Definition coil_combine (rNy rNx : nat) (coils sens_map : Array) : Frame :=
  fold_right frame_add (repeat (repeat C0 rNx) rNy)
    (zipWith (frame_zip (fun u s => Cmul u (Cconj s))) coils sens_map).

Definition index {X : Type} (l : list X) (i : nat) : result X :=
  match nth_error l i with
  | Some v => Ok v
  | None => Raise IndexError
  end.

(** A local name that is read; [None] is a name that is not bound yet. *)
Definition bound {X : Type} (v : option X) : result X :=
  match v with
  | Some x => Ok x
  | None => Raise UnboundLocalError
  end.

(** Local variables of the loop of a line search; [ls_i] counts the passes
    through the loop body. *)
Record LsVars : Type := mkLs {
  ls_step_size : R;
  ls_cost_old : R;
  ls_flag : bool;
  ls_i : nat
}.

(** Local variables of [TotalVariationRecon_NLCG] that its loop reads and
    writes. *)
Record FVars : Type := mkF {
  f_img : Array;
  f_update_old : option Array;
  f_step_size : R;
  f_fnorm : list R;
  f_tnorm : list R;
  f_cost : list R;
  f_iter : option nat
}.

Section FunctionSolver.

(** [sp.nufft(input, coord)] and [sp.nufft_adjoint(input, coord, oshape)] *)
Variable Coord : Type.
Variable nufft : Array -> Coord -> Array.
Variable nufft_adjoint : Array -> Coord -> nat * nat * nat -> Array.

Variable kdata : list Array.
Variable kweight : Weights.
Variable kloc : list Coord.
Variable sens_map : Array.

(** The [for iframe in range(0, nframe)] loop of [fidelity_update]. *)
Fixpoint fidelity_frames (frames : list nat) (img : Array)
       (oshape : nat * nat * nat)
       (update_term : list Array) (fidelity_norm : C)
: result (list Array * C) :=
match frames with
| [] => Ok (update_term, fidelity_norm)
| iframe :: rest =>
    img_f <- index img iframe ;;
    let update_term := upd iframe (coil_images sens_map img_f) update_term in
    kl <- index kloc iframe ;;
    let update_kspace := nufft (nth iframe update_term []) kl in
    kd <- index kdata iframe ;;
    let update_kspace := arr_sub kd update_kspace in
    let fidelity_norm := Cadd fidelity_norm (vdot update_kspace update_kspace) in
    let update_term :=
      upd iframe (nufft_adjoint (kweighted update_kspace kweight) kl oshape)
          update_term in
    fidelity_frames rest img oshape update_term fidelity_norm
end.

Definition fidelity_update (img : Array) : result (Array * R) :=
let nframe := length img in
let rNy := length (hd [] img) in
let rNx := length (hd [] (hd [] img)) in
let nc := length sens_map in
let update_term := repeat (repeat (repeat (repeat C0 rNx) rNy) nc) nframe in
' (update_term, fidelity_norm) <-
    fidelity_frames (seq 0 nframe) img (nc, rNy, rNx) update_term C0 ;;
let update_term :=
  map (fun coils => coil_combine rNy rNx coils sens_map) update_term in
match nframe with
| O => Raise ZeroDivisionError
| _ => Ok (update_term, Cabs fidelity_norm / INR (size img))
end.

Section LineSearch.
Variables (img update_term : Array) (lambda_t : R).
Variables (a b : R).

(** The [for i in range(0, max_iter)] loop of [line_search]. *)
Fixpoint line_search_loop (n : nat) (st : LsVars) : result LsVars :=
  match n with
  | O => Ok st
  | S n' =>
  let step_size := ls_step_size st in
  let cost_old := ls_cost_old st in
  let flag := ls_flag st in
  let i := S (ls_i st) in
  let img_new := arr_add img (arr_scale step_size update_term) in
  ' (_, fnorm) <- fidelity_update img_new ;;
  let tnorm := calculate_tnorm img_new lambda_t in
  let cost_new := fnorm + tnorm in
  if Rgtb cost_new cost_old && negb flag then
    line_search_loop n' (mkLs (step_size * b) cost_old flag i)
  else if Rltb cost_new cost_old then
    line_search_loop n' (mkLs (step_size * a) cost_new true i)
  else if Rgtb cost_new cost_old && flag then
    Ok (mkLs (step_size / a) cost_old flag i)
  else
    line_search_loop n' (mkLs step_size cost_old flag i)
  end.
End LineSearch.

Definition line_search (img update_term : Array) (step_size cost_old lambda_t : R)
: result R :=
let max_iter := 15%nat in
let a := 13 / 10 in
let b := 8 / 10 in
st <- line_search_loop img update_term lambda_t a b max_iter
        (mkLs step_size cost_old false 0) ;;
Ok (ls_step_size st).

Section Loop.
Variable lambda_t : R.

(** One pass through the body of [for iter in range(0, max_iter)];
the boolean is [true] when the pass ends in [break]. *)
Definition nlcg_body (iter : nat) (st : FVars) : result (FVars * bool) :=
  let img := f_img st in
  ' (update_term, fn) <- fidelity_update img ;;
  let fnorm := upd iter fn (f_fnorm st) in
  ttv <- temporal_tv_update img ;;
  let update_term := arr_add update_term (arr_scale lambda_t ttv) in
  let update_old := if Nat.eqb iter 0 then Some update_term else f_update_old st in
  update_old <- bound update_old ;;
  let beta := Cdiv (vdot update_term update_term)
               (Cadd (vdot update_old update_old) (RtoC eps)) in
  let update_term := arr_add update_term (arr_cmul beta update_old) in
  let update_old := update_term in
  let tnorm := upd iter (calculate_tnorm img lambda_t) (f_tnorm st) in
  let cost := upd iter (nth iter fnorm 0 + nth iter tnorm 0) (f_cost st) in
  step_size <- line_search img update_term (f_step_size st) (nth iter cost 0) lambda_t ;;
  let img := arr_add img (arr_scale step_size update_old) in
  let st' := mkF img (Some update_old) step_size fnorm tnorm cost (Some iter) in
  Ok (st', Rltb step_size (1 / 10000)).

Fixpoint nlcg_loop (n : nat) (iter : nat) (st : FVars) : result FVars :=
  match n with
  | O => Ok st
  | S n' =>
  ' (st', brk) <- nlcg_body iter st ;;
  if brk : bool then Ok st' else nlcg_loop n' (S iter) st'
  end.

(** The initial image: the adjoint of the weighted data, frame by frame. *)
Fixpoint initial_frames (frames : list nat) (oshape : nat * nat * nat)
     (img : list Array) : result (list Array) :=
  match frames with
  | [] => Ok img
  | iframe :: rest =>
  kd <- index kdata iframe ;;
  kl <- index kloc iframe ;;
  initial_frames rest oshape
    (upd iframe (nufft_adjoint (kweighted kd kweight) kl oshape) img)
  end.

Definition TotalVariationRecon_NLCG (max_iter : nat)
  : result (Array * list R * list R * list R) :=
  let '(nc, rNy, rNx) := shape3 sens_map in
  let nframe := length kdata in
  let img := repeat (repeat (repeat (repeat C0 rNx) rNy) nc) nframe in
  img <- initial_frames (seq 0 nframe) (nc, rNy, rNx) img ;;
  let img := map (fun coils => coil_combine rNy rNx coils sens_map) img in
  let step_size := 2 in
  let cost := repeat 0 max_iter in
  let fnorm := repeat 0 max_iter in
  let tnorm := repeat 0 max_iter in
  st <- nlcg_loop max_iter 0 (mkF img None step_size fnorm tnorm cost None) ;;
  iter <- bound (f_iter st) ;;
  Ok (f_img st,
  firstn (iter + 1) (f_fnorm st),
  firstn (iter + 1) (f_tnorm st),
  firstn (iter + 1) (f_cost st)).
End Loop.

End FunctionSolver.

Local Close Scope result_scope.

(** ** The heap of the class-based solver *)

(** A reference to an array is an index in the heap.  Arrays are never
    freed; a reference handed out by [alloc] stays valid. *)
Definition loc : Type := nat.
Definition heap : Type := list Array.

Definition M (T : Type) : Type := heap -> heap * result T.

Definition ret {T : Type} (v : T) : M T := fun h => (h, Ok v).
Definition raise {T : Type} (e : exn) : M T := fun h => (h, Raise e).
Definition bind {T U : Type} (m : M T) (k : T -> M U) : M U :=
  fun h =>
    match m h with
    | (h', Ok v) => k v h'
    | (h', Raise e) => (h', Raise e)
    end.
Definition lift {T : Type} (r : result T) : M T := fun h => (h, r).

Definition alloc (v : Array) : M loc := fun h => (h ++ [v], Ok (length h)).
Definition load (l : loc) : M Array := fun h => (h, Ok (nth l h [])).
Definition store (l : loc) (v : Array) : M unit := fun h => (upd l v h, Ok tt).

Declare Scope heap_scope.
Delimit Scope heap_scope with M.
Notation "x <- c1 ;; c2" := (bind c1 (fun x => c2))
  (at level 61, c1 at next level, right associativity) : heap_scope.
Notation "c1 ;; c2" := (bind c1 (fun _ => c2))
  (at level 61, right associativity) : heap_scope.

Local Open Scope heap_scope.

(** [sigpy.util.axpy(y, a, x)]: [y += a * x], in place.  The product is
    formed from [x] as it is when the call is made, also when [x] and [y]
    are the same array. *)
Definition axpy (y : loc) (a : C) (x : loc) : M unit :=
  xv <- load x ;;
  yv <- load y ;;
  store y (arr_add yv (arr_cmul a xv)).

(** [xp.vdot(a, b)] on references *)
Definition vdot_ref (a b : loc) : M C :=
  av <- load a ;;
  bv <- load b ;;
  ret (vdot av bv).

(** An axis of length one among the three axes of an array. *)
Definition has_unit_axis (a : Array) : bool :=
  let '(n0, n1, n2) := shape3 a in
  Nat.eqb n0 1 || Nat.eqb n1 1 || Nat.eqb n2 1.

(** [xp.squeeze(t)] as the operand [x] of [util.axpy(f_new, a, x)].  The
    array [t] squeezed in [run] has at least two frames; when it has a row
    or column axis of length one, the squeezed array has fewer axes and
    numpy cannot add it in place to [f_new], which has the shape of [t]:
    the call raises [ValueError].  Otherwise [xp.squeeze] changes nothing. *)
Definition squeeze (t : loc) : M loc :=
  tv <- load t ;;
  if has_unit_axis tv then raise ValueError else ret t.

(** ** The class-based solver: [TotalVariationReconNLCG] *)

Module NLCG.

(** The attributes of [self] that the methods read. *)
Record Self : Type := mkSelf {
y : loc;
x : loc;
init_step_size : R;
max_iter : nat;
lambda_t : R
}.

(** Local variables of [run] that its loop reads and writes. *)
Record RunVars : Type := mkRun {
r_step_size : R;
r_f2_old : option C;
r_f_old : option loc;
r_fnorm : list R;
r_tnorm : list R;
r_cost : list R
}.

(** [ksp * (dcf ** 0.5)], the weights running along the sample axis *)
Definition weighted (ksp : Array) (dcf : list R) : Array :=
map (map (fun row => zipWith (fun z d => Cscale (sqrt d) z) row dcf)) ksp.

Section Methods.

(** [self.A] and [self.A.H], built in [__init__] from [dcf], [traj] and
[mps] with sigpy's [Linop]s; an application returns a new array. *)
Variables A AH : Array -> Array.

Definition __init__ (ksp : Array) (dcf : list R) (lambda_t : R)
       (max_iter : nat) (step_size : R) : M Self :=
  ksp <- alloc (weighted ksp dcf) ;;
  kv <- load ksp ;;
  x <- alloc (AH kv) ;;
  ret (mkSelf ksp x step_size max_iter lambda_t).

Variable self : Self.

Definition _update_fidelity (img : loc) : M loc :=
  yv <- load (y self) ;;
  iv <- load img ;;
  let r := arr_sub yv (A iv) in
  alloc (AH r).

Definition _update_temporal_fd (img : loc) : M loc :=
  iv <- load img ;;
  let temp_a := diff iv in
  let temp_a := arr_map normalize temp_a in
  let temp_b := diff temp_a in
  let ttv_update := zeros_like iv in
  a0 <- lift (first_frame temp_a) ;;
  let ttv_update := upd 0 a0 ttv_update in
  let ttv_update := assign_from 1 temp_b ttv_update in
  al <- lift (last_frame temp_a) ;;
  let ttv_update := upd (length ttv_update - 1) (frame_neg al) ttv_update in
  alloc ttv_update.

Definition _calculate_fnorm (img : loc) : M R :=
  yv <- load (y self) ;;
  iv <- load img ;;
  let r := arr_sub yv (A iv) in
  ret (Cre (vdot r r) / INR (size iv)).

Definition _calculate_tnorm (img : loc) : M R :=
  iv <- load img ;;
  let dtimg := diff iv in
  ret (lambda_t self * Rsum (map Cabs (flatten dtimg)) / INR (size iv)).

(** The [for i in range(max_iter)] loop of [_line_search]. *)
Fixpoint _line_search_loop (img f_new : loc) (a b : R) (n : nat) (st : LsVars)
  : M LsVars :=
  match n with
  | O => ret st
  | S n' =>
  let step_size := ls_step_size st in
  let cost_old := ls_cost_old st in
  let flag := ls_flag st in
  let i := S (ls_i st) in
  iv <- load img ;;
  fv <- load f_new ;;
  img_new <- alloc (arr_add iv (arr_scale step_size fv)) ;;
  fnorm <- _calculate_fnorm img_new ;;
  tnorm <- _calculate_tnorm img_new ;;
  let cost_new := fnorm + tnorm in
  if Rgtb cost_new cost_old && negb flag then
    _line_search_loop img f_new a b n' (mkLs (step_size * b) cost_old flag i)
  else if Rltb cost_new cost_old then
    _line_search_loop img f_new a b n' (mkLs (step_size * a) cost_new true i)
  else if Rgtb cost_new cost_old && flag then
    ret (mkLs (step_size / a) cost_old flag i)
  else
    _line_search_loop img f_new a b n' (mkLs step_size cost_old flag i)
  end.

Definition _line_search (img f_new : loc) (cost_old step_size : R) : M R :=
  let max_iter := 15%nat in
  let a := 13 / 10 in
  let b := 8 / 10 in
  st <- _line_search_loop img f_new a b max_iter (mkLs step_size cost_old false 0) ;;
  ret (ls_step_size st).

(** One pass through the body of [for iter in range(self.max_iter)];
the boolean is [true] when the pass ends in [break]. *)
Definition run_body (img : loc) (iter : nat) (st : RunVars) : M (RunVars * bool) :=
  f_new <- _update_fidelity img ;;
  t <- _update_temporal_fd img ;;
  t <- squeeze t ;;
  axpy f_new (RtoC (lambda_t self)) t ;;
  f2_new <- vdot_ref f_new f_new ;;
  let f2_old := if Nat.eqb iter 0 then Some f2_new else r_f2_old st in
  let f_old := if Nat.eqb iter 0 then Some f_new else r_f_old st in
  f2_old <- lift (bound f2_old) ;;
  f_old <- lift (bound f_old) ;;
  let beta := Cdiv f2_new (Cadd f2_old (RtoC eps)) in
  axpy f_new beta f_old ;;
  let f2_old := f2_new in
  let f_old := f_new in
  fnorm_t <- _calculate_fnorm img ;;
  tnorm_t <- _calculate_tnorm img ;;
  let cost_t := fnorm_t + tnorm_t in
  step_size <- _line_search img f_new cost_t (r_step_size st) ;;
  axpy img (RtoC step_size) f_old ;;
  if Rltb step_size (2 / 1000) then
ret (mkRun step_size (Some f2_old) (Some f_old)
           (r_fnorm st) (r_tnorm st) (r_cost st), true)
  else
ret (mkRun step_size (Some f2_old) (Some f_old)
           (r_fnorm st ++ [fnorm_t]) (r_tnorm st ++ [tnorm_t])
           (r_cost st ++ [cost_t]), false).

Fixpoint run_loop (img : loc) (n : nat) (iter : nat) (st : RunVars) : M RunVars :=
  match n with
  | O => ret st
  | S n' =>
  r <- run_body img iter st ;;
  if snd r then ret (fst r) else run_loop img n' (S iter) (fst r)
  end.

Definition run : M (loc * list R * list R * list R) :=
  let img := x self in
  let step_size := init_step_size self in
  st <- run_loop img (max_iter self) 0 (mkRun step_size None None [] [] []) ;;
  ret (img, r_fnorm st, r_tnorm st, r_cost st).

End Methods.

End NLCG.

Local Close Scope heap_scope.

(** ** Notions of the specification *)

(** [normalized_d[k]] of section 4.3: the temporal difference
    [image[k+1] - image[k]] divided by its smoothed magnitude. *)
Definition normalized_d (img : Array) (k : nat) : Frame :=
  frame_map normalize (frame_sub (nth (S k) img []) (nth k img [])).

(** A frame of [ny] rows and [nx] columns, and an array of such frames. *)
Definition rect_frame (ny nx : nat) (f : Frame) : Prop :=
  length f = ny /\ Forall (fun r => length r = nx) f.

Definition rect (ny nx : nat) (a : Array) : Prop :=
  Forall (rect_frame ny nx) a.

(** [image[k][i][j]] *)
Definition pixel (a : Array) (k i j : nat) : C :=
  nth j (nth i (nth k a []) []) C0.

(** The sum of [f 0 .. f (n-1)]. *)
Definition sum_upto (n : nat) (f : nat -> R) : R := Rsum (map f (seq 0 n)).

(** The unsmoothed TV magnitude of section 4.3: the sum of [|d[k]|] over
    the frame pairs and the pixels. *)
Definition tv_magnitude (ny nx : nat) (img : Array) : R :=
  sum_upto (length img - 1) (fun k =>
  sum_upto ny (fun i =>
  sum_upto nx (fun j =>
    Cabs (Csub (pixel img (S k) i j) (pixel img k i j))))).

(** ** The search loop that both line searches run

    [search_loop] is the loop of [_line_search] and of [line_search] over
    the total cost [cost s] of the candidate image at step size [s];
    [search_breaks] tells whether the loop is left through its [break]. *)
Section Search.
Variable cost : R -> R.
Variables a b : R.

Fixpoint search_loop (n : nat) (st : LsVars) : LsVars :=
match n with
| O => st
| S n' =>
    let step_size := ls_step_size st in
    let cost_old := ls_cost_old st in
    let flag := ls_flag st in
    let i := S (ls_i st) in
    let cost_new := cost step_size in
    if Rgtb cost_new cost_old && negb flag then
      search_loop n' (mkLs (step_size * b) cost_old flag i)
    else if Rltb cost_new cost_old then
      search_loop n' (mkLs (step_size * a) cost_new true i)
    else if Rgtb cost_new cost_old && flag then
      mkLs (step_size / a) cost_old flag i
    else
      search_loop n' (mkLs step_size cost_old flag i)
end.

Fixpoint search_breaks (n : nat) (st : LsVars) : bool :=
match n with
| O => false
| S n' =>
    let step_size := ls_step_size st in
    let cost_old := ls_cost_old st in
    let flag := ls_flag st in
    let i := S (ls_i st) in
    let cost_new := cost step_size in
    if Rgtb cost_new cost_old && negb flag then
      search_breaks n' (mkLs (step_size * b) cost_old flag i)
    else if Rltb cost_new cost_old then
      search_breaks n' (mkLs (step_size * a) cost_new true i)
    else if Rgtb cost_new cost_old && flag then
      true
    else
      search_breaks n' (mkLs step_size cost_old flag i)
end.

(** While no candidate has lowered the cost, the reference cost is the one
  passed in, [c0]; after one has, the step size is [a] times the last
  step that lowered the cost, and the reference cost is the cost there. *)
Definition search_inv (c0 : R) (st : LsVars) : Prop :=
if ls_flag st then
  exists s, ls_step_size st = s * a /\ cost s = ls_cost_old st /\ ls_cost_old st < c0
else ls_cost_old st = c0.
End Search.

(** The total cost that the class-based solver assigns to an image, given
    the value [yv] of [self.y]: [_calculate_fnorm] plus [_calculate_tnorm]. *)
Definition class_cost (A : Array -> Array) (yv : Array) (lambda_t : R)
           (img : Array) : R :=
  let r := arr_sub yv (A img) in
  Cre (vdot r r) / INR (size img)
  + lambda_t * Rsum (map Cabs (flatten (diff img))) / INR (size img).

(** The cost of the candidate of [_line_search] at step size [s], on the
    heap [h]. *)
Definition class_candidate_cost (A : Array -> Array) (self : NLCG.Self)
           (img f_new : loc) (h : heap) (s : R) : R :=
  class_cost A (nth (NLCG.y self) h []) (NLCG.lambda_t self)
             (arr_add (nth img h []) (arr_scale s (nth f_new h []))).

(** The total cost that the function-based solver assigns to an image:
    the second result of [fidelity_update] plus [calculate_tnorm]. *)
Definition func_cost (Coord : Type) (nufft : Array -> Coord -> Array)
           (nufft_adjoint : Array -> Coord -> nat * nat * nat -> Array)
           (kdata : list Array) (kweight : Weights) (kloc : list Coord)
           (sens_map : Array) (lambda_t : R) (img : Array) : R :=
  match fidelity_update nufft nufft_adjoint kdata kweight kloc sens_map img with
  | Ok (_, fnorm) => fnorm + calculate_tnorm img lambda_t
  | Raise _ => 0
  end.

(** The cost of the candidate of [line_search] at step size [s]. *)
Definition func_candidate_cost (Coord : Type) (nufft : Array -> Coord -> Array)
           (nufft_adjoint : Array -> Coord -> nat * nat * nat -> Array)
           (kdata : list Array) (kweight : Weights) (kloc : list Coord)
           (sens_map : Array) (lambda_t : R) (img update_term : Array) (s : R) : R :=
  func_cost nufft nufft_adjoint kdata kweight kloc sens_map lambda_t
            (arr_add img (arr_scale s update_term)).

(** ** The values that one pass of [run] computes *)

(** The combined gradient of the class-based solver at the image [X]: the
    fidelity gradient plus [lambda_t] times the temporal-TV gradient. *)
Definition class_gradient (A AH : Array -> Array) (Y : Array) (lambda_t : R)
           (X T : Array) : Array :=
  arr_add (AH (arr_sub Y (A X))) (arr_cmul (RtoC lambda_t) T).

(** The conjugate direction from the combined gradient [G], the squared
    norm [f2_old] and the array [P_old] of the previous pass. *)
Definition conj_direction (G : Array) (f2_old : C) (P_old : Array) : Array :=
  arr_add G (arr_cmul (Cdiv (vdot G G) (Cadd f2_old (RtoC eps))) P_old).

(** ** Computations that leave one array of the heap alone

    [frames ly m Q]: run on a heap that holds the reference [ly], the
    computation [m] only extends the heap, leaves the array at [ly] as it
    is, and a value it returns satisfies [Q]. *)
Definition frames (ly : loc) {T : Type} (m : M T) (Q : T -> Prop) : Prop :=
  forall h : heap,
    (ly < length h)%nat ->
    (length h <= length (fst (m h)))%nat /\
    nth ly (fst (m h)) [] = nth ly h [] /\
    (forall v, snd (m h) = Ok v -> Q v).

(** ** Sample inputs *)

(** Two equal frames of one pixel, and the zero array of that shape. *)
Definition ones_2x1x1 : Array := [[[(1, 0)]]; [[(1, 0)]]].
Definition zeros_2x1x1 : Array := [[[(0, 0)]]; [[(0, 0)]]].

(** A heap that holds [self.y], the image and a direction, with the
    attributes of [self] that go with it. *)
Definition sample_heap : heap := [ones_2x1x1; ones_2x1x1; zeros_2x1x1].
Definition sample_self : NLCG.Self := NLCG.mkSelf 0%nat 1%nat 2 3%nat 0.

(** Operators that leave their argument as it is: a trajectory for which
    the non-uniform transform reduces to the identity. *)
Definition id_operator : Array -> Array := fun a => a.
Definition id_nufft : Array -> unit -> Array := fun a _ => a.
Definition id_nufft_adjoint : Array -> unit -> nat * nat * nat -> Array :=
  fun a _ _ => a.

(** One coil of sensitivity 1, unit weights, and data of two frames. *)
Definition sample_sens_map : Array := [[[(1, 0)]]].
Definition sample_kweight : Weights := [[[1]]].
Definition sample_kdata : list Array := [[[[(1, 0)]]]; [[[(1, 0)]]]].
Definition sample_kloc : list unit := [tt; tt].

(** Two equal frames of one row and two pixels, with one coil: a family
    of inputs on which a pass of the solvers can be followed by hand. *)
Definition px2 (x1 x2 : R) : Array := [[[(x1, 0); (x2, 0)]]; [[(x1, 0); (x2, 0)]]].
Definition px2_sens (c1 c2 : R) : Array := [[[(c1, 0); (c2, 0)]]].
Definition px2_kweight (w1 w2 : R) : Weights := [[[w1; w2]]].
Definition px2_kdata (y1 y2 : R) : list Array :=
  [[[[(y1, 0); (y2, 0)]]]; [[[(y1, 0); (y2, 0)]]]].

(** A heap for the class-based solver on these inputs: the measurements
    [self.y] at 0, the image [self.x] at 1 and a direction at 2. *)
Definition px2_heap : heap := [px2 1 1; px2 0 0; px2 1 1].

(** Two frames of two rows and two columns, all ones and all zeros, and a
    heap of the class-based solver that holds them as [self.y] and
    [self.x]. *)
Definition ones_2x2x2 : Array :=
  [[[(1, 0); (1, 0)]; [(1, 0); (1, 0)]]; [[(1, 0); (1, 0)]; [(1, 0); (1, 0)]]].
Definition zeros_2x2x2 : Array :=
  [[[(0, 0); (0, 0)]; [(0, 0); (0, 0)]]; [[(0, 0); (0, 0)]; [(0, 0); (0, 0)]]].
Definition heap_2x2x2 : heap := [ones_2x2x2; zeros_2x2x2].

(** The attributes of a solver that makes one pass on [heap_2x2x2]. *)
Definition self_one_pass : NLCG.Self := NLCG.mkSelf 0%nat 1%nat 2 1%nat 0.

(** ** The factor of the first pass

    At iteration 0 both solvers divide the squared norm of the combined
    gradient [G] by itself plus epsilon: [beta_first G] is that quotient. *)
Definition beta_first (G : Array) : R := Cre (vdot G G) / (Cre (vdot G G) + eps).

(** ** The image that [TotalVariationRecon_NLCG] starts from

    The statements of [TotalVariationRecon_NLCG] before its loop: the
    adjoint of the weighted data of every frame, combined over the coils. *)
Definition initial_image (Coord : Type)
           (nufft_adjoint : Array -> Coord -> nat * nat * nat -> Array)
           (kdata : list Array) (kweight : Weights) (kloc : list Coord)
           (sens_map : Array) : result Array :=
  let '(nc, rNy, rNx) := shape3 sens_map in
  let nframe := length kdata in
  let img := repeat (repeat (repeat (repeat C0 rNx) rNy) nc) nframe in
  rbind (initial_frames nufft_adjoint kdata kweight kloc (seq 0 nframe) (nc, rNy, rNx) img)
        (fun img => Ok (map (fun coils => coil_combine rNy rNx coils sens_map) img)).

(** ** What a heap computation returns

    [post m Q]: a value that [m] returns, on whatever heap it is run,
    satisfies [Q]. *)
Definition post {T : Type} (m : M T) (Q : T -> Prop) : Prop :=
  forall (h h' : heap) (v : T), m h = (h', Ok v) -> Q v.

(** ** The class [TotalVariationRecon]

    Its constructor hands the operators it builds to sigpy's
    [LinearLeastSquares]; the code of its own is the weighting of the
    measurements, [ksp * (dcf ** 0.5)] as in [NLCG.weighted], and the
    regulariser [g] of the objective. *)
Module TotalVariationRecon.

(** [g(x)]: [xp.sum] adds all the elements of [x], whatever its shape, so
    [x] is given by the list of its elements. *)
Definition g (reg_lambda : R) (x : list C) : R :=
reg_lambda * Rsum (map (fun z => sqrt (Cabs z ^ 2 + eps)) x).

End TotalVariationRecon.

(** * Properties *)

(** ** Lists and arrays *)

Lemma length_upd {X : Type} (i : nat) (v : X) (l : list X) :
  length (upd i v l) = length l.
Proof.
  revert i; induction l as [|x l IH]; intros [|i]; simpl; auto.
Qed.

Lemma nth_upd_eq {X : Type} (i : nat) (v d : X) (l : list X) :
  (i < length l)%nat -> nth i (upd i v l) d = v.
Proof.
  revert i; induction l as [|x l IH]; intros [|i] Hi; simpl in *; try lia; auto.
  apply IH; lia.
Qed.

Lemma nth_upd_neq {X : Type} (i k : nat) (v d : X) (l : list X) :
  i <> k -> nth k (upd i v l) d = nth k l d.
Proof.
  revert i k; induction l as [|x l IH]; intros [|i] [|k] Hik; simpl; auto; try lia.
Qed.

Lemma length_assign_from {X : Type} (vs : list X) (i : nat) (l : list X) :
  length (assign_from i vs l) = length l.
Proof.
  revert i l; induction vs as [|v vs IH]; intros i l; simpl; auto.
  rewrite IH, length_upd; reflexivity.
Qed.

Lemma nth_assign_from_out {X : Type} (vs : list X) (i k : nat) (d : X) (l : list X) :
  (k < i \/ i + length vs <= k)%nat -> nth k (assign_from i vs l) d = nth k l d.
Proof.
  revert i l; induction vs as [|v vs IH]; intros i l Hk; simpl in *; auto.
  rewrite IH by lia. apply nth_upd_neq; lia.
Qed.

Lemma nth_assign_from_in {X : Type} (vs : list X) (i k : nat) (d : X) (l : list X) :
  (i + length vs <= length l)%nat -> (i <= k < i + length vs)%nat ->
  nth k (assign_from i vs l) d = nth (k - i) vs d.
Proof.
  revert i l; induction vs as [|v vs IH]; intros i l Hl Hk; simpl in *; try lia.
  destruct (Nat.eq_dec k i) as [->|Hne].
  - rewrite nth_assign_from_out by lia.
    rewrite Nat.sub_diag. apply nth_upd_eq; lia.
  - rewrite IH; rewrite ?length_upd; try lia.
    replace (k - i)%nat with (S (k - S i)) by lia. reflexivity.
Qed.

Lemma length_zipWith {X Y Z : Type} (f : X -> Y -> Z) (l : list X) (m : list Y) :
  length (zipWith f l m) = Nat.min (length l) (length m).
Proof.
  revert m; induction l as [|x l IH]; intros [|y m]; simpl; auto.
Qed.

Lemma nth_zipWith {X Y Z : Type} (f : X -> Y -> Z) (l : list X) (m : list Y)
      (i : nat) (dx : X) (dy : Y) (dz : Z) :
  (i < length l)%nat -> (i < length m)%nat ->
  nth i (zipWith f l m) dz = f (nth i l dx) (nth i m dy).
Proof.
  revert m i; induction l as [|x l IH]; intros [|y m] [|i] Hl Hm; simpl in *;
    try lia; auto.
  apply IH; lia.
Qed.

Lemma length_diff (a : Array) : length (diff a) = (length a - 1)%nat.
Proof.
  induction a as [|f0 [|f1 t] IH]; simpl in *; auto.
  rewrite IH. lia.
Qed.

Lemma nth_diff (a : Array) (k : nat) :
  (S k < length a)%nat ->
  nth k (diff a) [] = frame_sub (nth (S k) a []) (nth k a []).
Proof.
  revert k; induction a as [|f0 [|f1 t] IH]; intros k Hk; simpl in Hk; try lia.
  destruct k as [|k]; [reflexivity|].
  change (nth k (diff (f1 :: t)) [] = frame_sub (nth (S k) (f1 :: t) []) (nth k (f1 :: t) [])).
  apply IH. simpl. lia.
Qed.

Lemma last_nth {X : Type} (t : list X) (f d : X) :
  last t f = nth (length t) (f :: t) d.
Proof.
  revert f; induction t as [|x t IH]; intros f; [reflexivity|].
  change (last (x :: t) f) with (match t with [] => x | _ => last t f end).
  destruct t as [|x' t']; [reflexivity|].
  specialize (IH x). simpl in IH |- *. rewrite <- IH.
  clear. revert x x'; induction t' as [|z t' IH]; intros; simpl; auto.
Qed.

Lemma first_frame_nth (a : Array) :
  (0 < length a)%nat -> first_frame a = Ok (nth 0 a []).
Proof. destruct a; simpl; [lia | reflexivity]. Qed.

Lemma last_frame_nth (a : Array) :
  (0 < length a)%nat -> last_frame a = Ok (nth (length a - 1) a []).
Proof.
  destruct a as [|f t]; simpl; [lia | intros _].
  rewrite Nat.sub_0_r. f_equal. apply last_nth.
Qed.

Lemma length_arr_map (f : C -> C) (a : Array) : length (arr_map f a) = length a.
Proof. apply length_map. Qed.

Lemma nth_arr_map (f : C -> C) (a : Array) (k : nat) :
  nth k (arr_map f a) [] = frame_map f (nth k a []).
Proof.
  unfold arr_map. change (@nil Row) with (frame_map f []) at 1. apply map_nth.
Qed.

(** The array that [temporal_tv_update] and [_update_temporal_fd] build. *)
Lemma temporal_tv_update_ok (img : Array) :
  (2 <= length img)%nat ->
  temporal_tv_update img =
  Ok (upd (length img - 1)
          (frame_neg (normalized_d img (length img - 2)))
          (assign_from 1 (diff (arr_map normalize (diff img)))
             (upd 0 (normalized_d img 0) (zeros_like img)))).
Proof.
  intros HF. unfold temporal_tv_update.
  assert (Hla : length (arr_map normalize (diff img)) = (length img - 1)%nat)
    by (rewrite length_arr_map; apply length_diff).
  rewrite first_frame_nth by lia. cbn [rbind].
  rewrite last_frame_nth by lia. cbn [rbind].
  rewrite length_assign_from, length_upd.
  replace (length (zeros_like img)) with (length img)
    by (symmetry; apply length_arr_map).
  rewrite Hla. rewrite !nth_arr_map, !nth_diff by lia.
  unfold normalized_d.
  replace (S (length img - 1 - 1)) with (length img - 1)%nat by lia.
  replace (length img - 1 - 1)%nat with (length img - 2)%nat by lia.
  replace (S (length img - 2)) with (length img - 1)%nat by lia.
  reflexivity.
Qed.

Lemma _update_temporal_fd_eq (l : loc) (h : heap) :
  NLCG._update_temporal_fd l h =
  match temporal_tv_update (nth l h []) with
  | Ok g => (h ++ [g], Ok (length h))
  | Raise e => (h, Raise e)
  end.
Proof.
  unfold NLCG._update_temporal_fd, temporal_tv_update, bind, load, lift, alloc.
  destruct (first_frame _); simpl; [|reflexivity].
  destruct (last_frame _); reflexivity.
Qed.

(** C2.  For an image of [F >= 2] frames the temporal-TV gradient of both
    solvers is the array [g] with [g[0] = normalized_d[0]],
    [g[k] = normalized_d[k] - normalized_d[k-1]] for [0 < k < F-1] and
    [g[F-1] = - normalized_d[F-2]]; for three frames [A, B, C] its entries
    are [n(B-A)], [n(C-B) - n(B-A)] and [- n(C-B)], where [n] divides a
    difference by its smoothed magnitude. *)
Theorem temporal_gradient_adjoint_formula (img : Array) (F : nat) :
  length img = F -> (2 <= F)%nat ->
  exists g : Array,
    temporal_tv_update img = Ok g /\
    (forall (h : heap) (l : loc), nth l h [] = img ->
       NLCG._update_temporal_fd l h = (h ++ [g], Ok (length h))) /\
    length g = F /\
    nth 0 g [] = normalized_d img 0 /\
    (forall k, (0 < k < F - 1)%nat ->
       nth k g [] = frame_sub (normalized_d img k) (normalized_d img (k - 1))) /\
    nth (F - 1) g [] = frame_neg (normalized_d img (F - 2)) /\
    (forall fa fb fc : Frame, img = [fa; fb; fc] ->
       g = [frame_map normalize (frame_sub fb fa);
            frame_sub (frame_map normalize (frame_sub fc fb))
                      (frame_map normalize (frame_sub fb fa));
            frame_neg (frame_map normalize (frame_sub fc fb))]).
Proof.
  intros HF H2. subst F.
  eexists. split; [apply temporal_tv_update_ok; exact H2|].
  assert (Hz : length (zeros_like img) = length img) by apply length_arr_map.
  assert (Hd : length (diff (arr_map normalize (diff img))) = (length img - 2)%nat).
  { rewrite length_diff, length_arr_map, length_diff. lia. }
  repeat split.
  - intros h l Hl. rewrite _update_temporal_fd_eq, Hl.
    rewrite temporal_tv_update_ok by exact H2. reflexivity.
  - rewrite length_upd, length_assign_from, length_upd. exact Hz.
  - rewrite nth_upd_neq by lia.
    rewrite nth_assign_from_out by lia.
    apply nth_upd_eq. lia.
  - intros k Hk.
    rewrite nth_upd_neq by lia.
    rewrite nth_assign_from_in by (rewrite ?length_upd; lia).
    rewrite nth_diff by (rewrite length_arr_map, length_diff; lia).
    rewrite !nth_arr_map, !nth_diff by lia.
    unfold normalized_d.
    replace (S (k - 1)) with k by lia. reflexivity.
  - apply nth_upd_eq. rewrite length_assign_from, length_upd. lia.
  - intros fa fb fc ->. reflexivity.
Qed.

Lemma temporal_gradient_adjoint_formula_witness :
  exists g : Array,
    temporal_tv_update [[[(1, 0)]]; [[(3, 0)]]; [[(2, 1)]]] = Ok g /\
    length g = 3%nat.
Proof.
  destruct (@temporal_gradient_adjoint_formula
              [[[(1, 0)]]; [[(3, 0)]]; [[(2, 1)]]] 3 eq_refl ltac:(lia))
    as (g & Hg & _ & Hlen & _).
  exists g. split; assumption.
Defined.

(** ** Sums *)

Lemma fold_left_Rplus (l : list R) (acc : R) :
  fold_left Rplus l acc = acc + Rsum l.
Proof.
  revert acc; induction l as [|x l IH]; intros acc; simpl.
  - lra.
  - rewrite IH. lra.
Qed.

Lemma py_sum_Rsum (l : list R) : py_sum l = Rsum l.
Proof. unfold py_sum. rewrite fold_left_Rplus. lra. Qed.

Lemma Rsum_app (l m : list R) : Rsum (l ++ m) = Rsum l + Rsum m.
Proof. induction l as [|x l IH]; simpl; [lra | rewrite IH; lra]. Qed.

Lemma Rsum_concat (ls : list (list R)) : Rsum (concat ls) = Rsum (map Rsum ls).
Proof.
  induction ls as [|l ls IH]; simpl; [reflexivity|].
  rewrite Rsum_app, IH. reflexivity.
Qed.

Lemma Rsum_zero (l : list R) : Forall (fun x => x = 0) l -> Rsum l = 0.
Proof. induction 1 as [|x l Hx _ IH]; simpl; [reflexivity | rewrite Hx, IH; lra]. Qed.

Lemma map_nth_seq {X Y : Type} (g : X -> Y) (l : list X) (d : X) :
  map g l = map (fun i => g (nth i l d)) (seq 0 (length l)).
Proof.
  induction l as [|x l IH]; simpl; [reflexivity|].
  f_equal. rewrite <- seq_shift, map_map. exact IH.
Qed.

Lemma sum_upto_ext (n : nat) (f g : nat -> R) :
  (forall i, (i < n)%nat -> f i = g i) -> sum_upto n f = sum_upto n g.
Proof.
  intros H. unfold sum_upto. f_equal. apply map_ext_in.
  intros i Hi. apply in_seq in Hi. apply H. lia.
Qed.

(** ** Scalars *)

Lemma Csub_diag (z : C) : Csub z z = C0.
Proof. unfold Csub, C0. f_equal; lra. Qed.

Lemma Cneg_0 : Cneg C0 = C0.
Proof. unfold Cneg, C0; simpl. f_equal; lra. Qed.

Lemma Cabs_0 : Cabs C0 = 0.
Proof.
  unfold Cabs, C0; simpl.
  replace (0 * 0 + 0 * 0) with 0 by lra. apply sqrt_0.
Qed.

Lemma normalize_0 : normalize C0 = C0.
Proof.
  unfold normalize, Cdivr, C0; simpl. unfold Rdiv. rewrite Rmult_0_l. reflexivity.
Qed.

Lemma eps_pos : 0 < eps.
Proof. unfold eps. lra. Qed.

Lemma Rltb_true (x y : R) : x < y -> Rltb x y = true.
Proof. intros H. unfold Rltb. destruct (Rlt_dec x y); [reflexivity | contradiction]. Qed.

Lemma Rltb_false (x y : R) : ~ x < y -> Rltb x y = false.
Proof. intros H. unfold Rltb. destruct (Rlt_dec x y); [contradiction | reflexivity]. Qed.

Lemma Rltb_spec (x y : R) : Rltb x y = true <-> x < y.
Proof.
  unfold Rltb. destruct (Rlt_dec x y); split; intros; auto; discriminate.
Qed.

Lemma Rltb_irrefl (x : R) : Rltb x x = false.
Proof. apply Rltb_false. lra. Qed.

Lemma rbind_ok {T U : Type} (v : T) (k : T -> result U) : rbind (Ok v) k = k v.
Proof. reflexivity. Qed.

Lemma rbind_raise {T U : Type} (e : exn) (k : T -> result U) :
  rbind (Raise e) k = Raise e.
Proof. reflexivity. Qed.

Lemma Ok_inj {T : Type} (v w : T) : Ok v = Ok w -> v = w.
Proof. intros H. injection H as H. exact H. Qed.

(** ** Images that are constant in time *)

Lemma zipWith_diag {X Z : Type} (f : X -> X -> Z) (l : list X) :
  zipWith f l l = map (fun x => f x x) l.
Proof. induction l as [|x l IH]; simpl; [reflexivity | f_equal; exact IH]. Qed.

Lemma frame_sub_diag (f : Frame) : frame_sub f f = frame_map (fun _ => C0) f.
Proof.
  unfold frame_sub, frame_zip, frame_map. rewrite zipWith_diag.
  apply map_ext. intros r. rewrite zipWith_diag.
  apply map_ext. intros z. apply Csub_diag.
Qed.

Lemma frame_map_map (g k : C -> C) (f : Frame) :
  frame_map g (frame_map k f) = frame_map (fun z => g (k z)) f.
Proof.
  unfold frame_map. rewrite map_map. apply map_ext. intros r. apply map_map.
Qed.

Lemma frame_map_ext (g k : C -> C) (f : Frame) :
  (forall z, g z = k z) -> frame_map g f = frame_map k f.
Proof.
  intros H. unfold frame_map. apply map_ext. intros r. apply map_ext. exact H.
Qed.

Lemma all_equal_repeat {X : Type} (l : list X) (d : X) :
  (forall j k, (j < length l)%nat -> (k < length l)%nat -> nth j l d = nth k l d) ->
  l = repeat (nth 0 l d) (length l).
Proof.
  intros H. apply (nth_ext _ _ d d).
  - rewrite repeat_length. reflexivity.
  - intros n Hn. rewrite nth_repeat_lt by exact Hn. apply H; lia.
Qed.

Lemma diff_repeat (f : Frame) (n : nat) :
  diff (repeat f n) = repeat (frame_sub f f) (n - 1).
Proof.
  induction n as [|[|n] IH]; try reflexivity.
  change (repeat f (S (S n))) with (f :: f :: repeat f n).
  change (diff (f :: f :: repeat f n)) with (frame_sub f f :: diff (repeat f (S n))).
  rewrite IH. simpl. rewrite Nat.sub_0_r. reflexivity.
Qed.

Lemma upd_same {X : Type} (i : nat) (v : X) (l : list X) :
  nth i l v = v -> upd i v l = l.
Proof.
  revert i; induction l as [|x l IH]; intros [|i] H; simpl in *; auto.
  - congruence.
  - f_equal. apply IH. exact H.
Qed.

Lemma assign_from_same {X : Type} (vs : list X) (i : nat) (l : list X) (d : X) :
  (i + length vs <= length l)%nat ->
  (forall j, (j < length vs)%nat -> nth (i + j) l d = nth j vs d) ->
  assign_from i vs l = l.
Proof.
  revert i l; induction vs as [|v vs IH]; intros i l Hl H; simpl in *; [reflexivity|].
  assert (Hi : nth i l d = v).
  { specialize (H 0%nat ltac:(lia)). rewrite Nat.add_0_r in H. exact H. }
  rewrite upd_same.
  - apply IH; [lia|].
    intros j Hj. specialize (H (S j) ltac:(lia)).
    replace (S i + j)%nat with (i + S j)%nat by lia. exact H.
  - rewrite (nth_indep l v d) by lia. exact Hi.
Qed.

Lemma flatten_repeat_zero (f : Frame) (n : nat) :
  Forall (fun z => z = C0) (flatten (repeat (frame_map (fun _ => C0) f) n)).
Proof.
  unfold flatten. apply Forall_concat. apply Forall_map.
  apply Forall_forall. intros g Hg. apply repeat_spec in Hg. subst g.
  unfold frame_flatten, frame_map. apply Forall_concat. apply Forall_map.
  apply Forall_forall. intros r _. apply Forall_map.
  apply Forall_forall. intros z _. reflexivity.
Qed.

(** The gradient and the cost of an image whose frames are all [f]. *)
Lemma temporal_tv_update_repeat (f : Frame) (n : nat) :
  (2 <= n)%nat ->
  temporal_tv_update (repeat f n) = Ok (zeros_like (repeat f n)).
Proof.
  intros Hn. rewrite temporal_tv_update_ok by (rewrite repeat_length; exact Hn).
  set (Z := frame_map (fun _ => C0) f).
  assert (Hnd : forall k, (S k < n)%nat -> normalized_d (repeat f n) k = Z).
  { intros k Hk. unfold normalized_d. rewrite !nth_repeat_lt by lia.
    rewrite frame_sub_diag, frame_map_map. apply frame_map_ext.
    intros _. apply normalize_0. }
  assert (Hz : zeros_like (repeat f n) = repeat Z n).
  { unfold zeros_like, arr_map. apply map_repeat. }
  assert (HZZ : frame_sub Z Z = Z).
  { rewrite frame_sub_diag. unfold Z. rewrite frame_map_map. reflexivity. }
  assert (HnZ : frame_neg Z = Z).
  { unfold frame_neg, Z. rewrite frame_map_map. apply frame_map_ext.
    intros _. apply Cneg_0. }
  rewrite repeat_length, !Hnd by lia. rewrite Hz, HnZ.
  rewrite diff_repeat. unfold arr_map at 1. rewrite map_repeat.
  fold Z. rewrite frame_sub_diag.
  replace (frame_map normalize (frame_map (fun _ => C0) f)) with Z.
  2:{ rewrite frame_map_map. apply frame_map_ext. intros _.
      symmetry. apply normalize_0. }
  rewrite diff_repeat, HZZ.
  rewrite (upd_same 0) by (rewrite nth_repeat_lt by lia; reflexivity).
  rewrite (@assign_from_same _ _ _ _ Z).
  - f_equal. apply upd_same. rewrite nth_repeat_lt by lia. reflexivity.
  - rewrite !repeat_length. lia.
  - intros j Hj. rewrite repeat_length in Hj.
    rewrite !nth_repeat_lt by lia. reflexivity.
Qed.

Lemma tv_sum_repeat (f : Frame) (n : nat) :
  Rsum (map Cabs (flatten (diff (repeat f n)))) = 0.
Proof.
  rewrite diff_repeat, frame_sub_diag.
  apply Rsum_zero. apply Forall_map.
  eapply Forall_impl; [|apply flatten_repeat_zero].
  intros z ->. apply Cabs_0.
Qed.

(** ** The temporal cost, by indices *)

Lemma Rsum_map_index {X : Type} (g : X -> R) (l : list X) (d : X) :
  Rsum (map g l) = sum_upto (length l) (fun i => g (nth i l d)).
Proof. unfold sum_upto. rewrite (map_nth_seq g l d). reflexivity. Qed.

Lemma row_abs_sum (nx : nat) (r1 r0 : Row) :
  length r1 = nx -> length r0 = nx ->
  Rsum (map Cabs (zipWith Csub r1 r0)) =
  sum_upto nx (fun j => Cabs (Csub (nth j r1 C0) (nth j r0 C0))).
Proof.
  intros H1 H0. rewrite (Rsum_map_index Cabs _ C0).
  rewrite length_zipWith, H1, H0, Nat.min_id.
  apply sum_upto_ext. intros j Hj.
  rewrite (nth_zipWith Csub r1 r0 C0 C0 C0) by lia. reflexivity.
Qed.

Lemma rect_frame_row (ny nx : nat) (f : Frame) (i : nat) :
  rect_frame ny nx f -> (i < ny)%nat -> length (nth i f []) = nx.
Proof.
  intros [Hl Hr] Hi. rewrite Forall_forall in Hr. apply Hr. apply nth_In. lia.
Qed.

Lemma frame_abs_sum (ny nx : nat) (f1 f0 : Frame) :
  rect_frame ny nx f1 -> rect_frame ny nx f0 ->
  Rsum (map Cabs (frame_flatten (frame_sub f1 f0))) =
  sum_upto ny (fun i => sum_upto nx (fun j =>
    Cabs (Csub (nth j (nth i f1 []) C0) (nth j (nth i f0 []) C0)))).
Proof.
  intros H1 H0. unfold frame_flatten, frame_sub, frame_zip.
  rewrite concat_map, Rsum_concat, map_map.
  rewrite (Rsum_map_index _ _ []).
  rewrite length_zipWith. destruct H1 as [L1 R1]. destruct H0 as [L0 R0].
  unfold Frame, Row in *. rewrite L1, L0, Nat.min_id.
  apply sum_upto_ext. intros i Hi.
  rewrite (nth_zipWith (zipWith Csub) f1 f0 [] [] []) by lia.
  apply row_abs_sum.
  - apply (@rect_frame_row ny nx f1 i); [split; assumption | exact Hi].
  - apply (@rect_frame_row ny nx f0 i); [split; assumption | exact Hi].
Qed.

Lemma rect_nth (ny nx : nat) (a : Array) (k : nat) :
  rect ny nx a -> (k < length a)%nat -> rect_frame ny nx (nth k a []).
Proof.
  intros H Hk. unfold rect in H. rewrite Forall_forall in H.
  apply H. apply nth_In. exact Hk.
Qed.

Lemma tv_sum_index (ny nx : nat) (img : Array) :
  rect ny nx img ->
  Rsum (map Cabs (flatten (diff img))) = tv_magnitude ny nx img.
Proof.
  intros Hr. unfold flatten. rewrite concat_map, Rsum_concat, !map_map.
  rewrite (@Rsum_map_index Frame _ (diff img) []). rewrite length_diff.
  unfold tv_magnitude. apply sum_upto_ext. intros k Hk.
  rewrite nth_diff by lia.
  rewrite (@frame_abs_sum ny nx) by (apply rect_nth; [exact Hr | lia]).
  reflexivity.
Qed.

Lemma length_concat_rect (ny nx : nat) (f : Frame) :
  rect_frame ny nx f -> length (concat f) = (ny * nx)%nat.
Proof.
  intros [Hl Hr]. subst ny. induction Hr as [|r f Hr _ IH]; simpl; [reflexivity|].
  rewrite length_app, IH, Hr. reflexivity.
Qed.

Lemma size_rect (ny nx : nat) (a : Array) :
  rect ny nx a -> size a = (length a * ny * nx)%nat.
Proof.
  unfold size, flatten. induction 1 as [|f a Hf _ IH]; simpl; [reflexivity|].
  rewrite length_app, IH. unfold frame_flatten.
  rewrite (@length_concat_rect ny nx f Hf). lia.
Qed.

Lemma _calculate_tnorm_eq (self : NLCG.Self) (l : loc) (h : heap) :
  NLCG._calculate_tnorm self l h =
  (h, Ok (calculate_tnorm (nth l h []) (NLCG.lambda_t self))).
Proof.
  unfold NLCG._calculate_tnorm, calculate_tnorm, bind, load, ret.
  rewrite py_sum_Rsum. reflexivity.
Qed.

(** C6.  The temporal cost of both solvers is [lambda] times the sum over
    the frame pairs and the pixels of [|image[k+1] - image[k]|], divided by
    the number of elements of the image; no epsilon enters the magnitude. *)
Theorem temporal_cost_unsmoothed_tv (img : Array) (ny nx : nat) (lambda_t : R) :
  rect ny nx img ->
  calculate_tnorm img lambda_t =
    lambda_t * tv_magnitude ny nx img / INR (length img * ny * nx) /\
  (forall (self : NLCG.Self) (h : heap) (l : loc),
     nth l h [] = img ->
     NLCG._calculate_tnorm self l h =
       (h, Ok (NLCG.lambda_t self * tv_magnitude ny nx img
               / INR (length img * ny * nx)))).
Proof.
  intros Hr.
  assert (Hc : forall lam, calculate_tnorm img lam =
                 lam * tv_magnitude ny nx img / INR (length img * ny * nx)).
  { intros lam. unfold calculate_tnorm.
    rewrite py_sum_Rsum, (tv_sum_index Hr), (size_rect Hr). reflexivity. }
  split; [apply Hc|].
  intros self h l Hl. rewrite _calculate_tnorm_eq, Hl, Hc. reflexivity.
Qed.

Lemma temporal_cost_unsmoothed_tv_witness :
  calculate_tnorm [[[(1, 0); (2, 0)]]; [[(4, 0); (2, 0)]]] 3 =
    3 * tv_magnitude 1 2 [[[(1, 0); (2, 0)]]; [[(4, 0); (2, 0)]]]
    / INR (2 * 1 * 2).
Proof.
  apply (@temporal_cost_unsmoothed_tv [[[(1, 0); (2, 0)]]; [[(4, 0); (2, 0)]]] 1 2 3).
  repeat constructor.
Defined.

(** C7.  When all the frames of an image are equal, the temporal-TV
    gradient is the zero array and the temporal cost is 0 (for an image of
    at least two frames and at least one element). *)
Theorem constant_in_time_image (img : Array) (lambda_t : R) :
  (2 <= length img)%nat ->
  (0 < size img)%nat ->
  (forall j k, (j < length img)%nat -> (k < length img)%nat ->
     nth j img [] = nth k img []) ->
  temporal_tv_update img = Ok (zeros_like img) /\
  calculate_tnorm img lambda_t = 0 /\
  (forall (self : NLCG.Self) (h : heap) (l : loc),
     nth l h [] = img ->
     NLCG._update_temporal_fd l h = (h ++ [zeros_like img], Ok (length h)) /\
     NLCG._calculate_tnorm self l h = (h, Ok 0)).
Proof.
  intros HF _ Heq.
  pose proof (all_equal_repeat img [] Heq) as Hrep.
  set (f := nth 0 img []) in Hrep.
  assert (Hg : temporal_tv_update img = Ok (zeros_like img)).
  { rewrite Hrep. apply temporal_tv_update_repeat. exact HF. }
  assert (Hc : forall lam, calculate_tnorm img lam = 0).
  { intros lam. unfold calculate_tnorm. rewrite py_sum_Rsum.
    rewrite Hrep at 1. rewrite tv_sum_repeat. unfold Rdiv. ring. }
  split; [exact Hg|]. split; [apply Hc|].
  intros self h l Hl. split.
  - rewrite _update_temporal_fd_eq, Hl, Hg. reflexivity.
  - rewrite _calculate_tnorm_eq, Hl, Hc. reflexivity.
Qed.

Lemma constant_in_time_image_witness :
  temporal_tv_update [[[(1, 2)]]; [[(1, 2)]]; [[(1, 2)]]] =
    Ok (zeros_like [[[(1, 2)]]; [[(1, 2)]]; [[(1, 2)]]]) /\
  calculate_tnorm [[[(1, 2)]]; [[(1, 2)]]; [[(1, 2)]]] 5 = 0.
Proof.
  destruct (@constant_in_time_image [[[(1, 2)]]; [[(1, 2)]]; [[(1, 2)]]] 5)
    as (Hg & Hc & _).
  - simpl. lia.
  - unfold size. simpl. lia.
  - intros [|[|[|j]]] [|[|[|k]]] Hj Hk; simpl in Hj, Hk; try lia; reflexivity.
  - split; assumption.
Defined.

(** ** The search loop *)

Section SearchFacts.
Variable cost : R -> R.
Variables a b : R.

Lemma search_loop_count (n : nat) (st : LsVars) :
(ls_i st <= ls_i (search_loop cost a b n st) <= ls_i st + n)%nat.
Proof.
revert st; induction n as [|n IH]; intros st; simpl; [lia|].
repeat match goal with
       | |- context [if ?c then _ else _] => destruct c
       end;
  try (match goal with
       | |- context [search_loop cost a b n ?s] => specialize (IH s)
       end; simpl in IH); simpl; lia.
Qed.

Lemma search_loop_positive (n : nat) (st : LsVars) :
0 < a -> 0 < b -> 0 < ls_step_size st ->
0 < ls_step_size (search_loop cost a b n st).
Proof.
intros Ha Hb. revert st; induction n as [|n IH]; intros st Hs; simpl; [exact Hs|].
repeat match goal with
       | |- context [if ?c then _ else _] => destruct c
       end;
  try apply IH; simpl;
  try (apply Rmult_lt_0_compat; assumption);
  try (apply Rdiv_lt_0_compat; assumption);
  assumption.
Qed.

(** One pass in which the candidate costs exactly the reference cost
  changes neither the step size nor the flag, and the loop goes on. *)
Lemma search_loop_tie (n : nat) (st : LsVars) :
cost (ls_step_size st) = ls_cost_old st ->
search_loop cost a b (S n) st =
search_loop cost a b n
  (mkLs (ls_step_size st) (ls_cost_old st) (ls_flag st) (S (ls_i st))).
Proof.
intros H. simpl. rewrite H. unfold Rgtb. rewrite Rltb_irrefl. reflexivity.
Qed.

Lemma search_loop_all_ties (n : nat) (st : LsVars) :
cost (ls_step_size st) = ls_cost_old st ->
search_loop cost a b n st =
mkLs (ls_step_size st) (ls_cost_old st) (ls_flag st) (ls_i st + n).
Proof.
revert st; induction n as [|n IH]; intros st H.
- simpl. rewrite Nat.add_0_r. destruct st; reflexivity.
- rewrite search_loop_tie by exact H.
  rewrite IH by exact H. simpl. f_equal. lia.
Qed.

Lemma search_loop_bracket (c0 : R) (n : nat) (st : LsVars) :
a <> 0 ->
search_inv cost a c0 st ->
search_breaks cost a b n st = true ->
cost (ls_step_size (search_loop cost a b n st)) < c0.
Proof.
intros Ha. revert st; induction n as [|n IH]; intros st Hinv Hb; simpl in *;
  [discriminate|].
destruct (Rgtb (cost (ls_step_size st)) (ls_cost_old st) && negb (ls_flag st)) eqn:E1.
{ apply IH; [|exact Hb]. unfold search_inv in *; simpl.
  apply andb_true_iff in E1 as [_ E1]. apply negb_true_iff in E1.
  rewrite E1 in *. exact Hinv. }
destruct (Rltb (cost (ls_step_size st)) (ls_cost_old st)) eqn:E2.
{ apply IH; [|exact Hb]. unfold search_inv in *; simpl.
  apply Rltb_spec in E2.
  exists (ls_step_size st). repeat split.
  destruct (ls_flag st).
  - destruct Hinv as (s & _ & _ & Hlt). lra.
  - lra. }
destruct (Rgtb (cost (ls_step_size st)) (ls_cost_old st) && ls_flag st) eqn:E3.
{ simpl. apply andb_true_iff in E3 as [_ E3].
  unfold search_inv in Hinv. rewrite E3 in Hinv.
  destruct Hinv as (s & Hs & Hc & Hlt).
  rewrite Hs. replace (s * a / a) with s by (field; exact Ha).
  rewrite Hc. exact Hlt. }
apply IH; [|exact Hb]. unfold search_inv in *; simpl. exact Hinv.
Qed.
End SearchFacts.

Lemma search_loop_ext (cost cost' : R -> R) (a b : R) (n : nat) (st : LsVars) :
  (forall s, cost s = cost' s) ->
  search_loop cost a b n st = search_loop cost' a b n st.
Proof.
  intros H. revert st; induction n as [|n IH]; intros st; simpl; [reflexivity|].
  rewrite H, !IH. reflexivity.
Qed.

Lemma search_breaks_ext (cost cost' : R -> R) (a b : R) (n : nat) (st : LsVars) :
  (forall s, cost s = cost' s) ->
  search_breaks cost a b n st = search_breaks cost' a b n st.
Proof.
  intros H. revert st; induction n as [|n IH]; intros st; simpl; [reflexivity|].
  rewrite H, !IH. reflexivity.
Qed.

(** ** The line search of the class-based solver *)

Lemma nth_heap_app (l : loc) (h ext : heap) :
  (l < length h)%nat -> nth l (h ++ ext) [] = nth l h [].
Proof. intros H. apply app_nth1. exact H. Qed.

Lemma nth_heap_new (h : heap) (v : Array) (ext : heap) :
  nth (length h) (h ++ v :: ext) [] = v.
Proof. apply nth_middle. Qed.

Lemma _calculate_fnorm_eq (A : Array -> Array) (self : NLCG.Self) (l : loc) (h : heap) :
  NLCG._calculate_fnorm A self l h =
  (h, Ok (let r := arr_sub (nth (NLCG.y self) h []) (A (nth l h [])) in
          Cre (vdot r r) / INR (size (nth l h [])))).
Proof. reflexivity. Qed.

Section ClassSearch.
Variables (A : Array -> Array) (self : NLCG.Self).
Variables (img f_new : loc) (a b : R).

Local Abbreviation ccost := (class_candidate_cost A self img f_new).

Lemma class_candidate_cost_app (h ext : heap) (s : R) :
(img < length h)%nat -> (f_new < length h)%nat -> (NLCG.y self < length h)%nat ->
ccost (h ++ ext) s = ccost h s.
Proof.
intros H1 H2 H3. unfold class_candidate_cost.
rewrite !nth_heap_app by assumption. reflexivity.
Qed.

(** One pass through the loop of [_line_search]: the candidate is
  allocated, its cost is compared with the reference cost. *)
Lemma _line_search_loop_S (n : nat) (st : LsVars) (h : heap) :
(NLCG.y self < length h)%nat ->
let cand := arr_add (nth img h []) (arr_scale (ls_step_size st) (nth f_new h [])) in
let h1 := h ++ [cand] in
let cost_new := ccost h (ls_step_size st) in
NLCG._line_search_loop A self img f_new a b (S n) st h =
if Rgtb cost_new (ls_cost_old st) && negb (ls_flag st) then
  NLCG._line_search_loop A self img f_new a b n
    (mkLs (ls_step_size st * b) (ls_cost_old st) (ls_flag st) (S (ls_i st))) h1
else if Rltb cost_new (ls_cost_old st) then
  NLCG._line_search_loop A self img f_new a b n
    (mkLs (ls_step_size st * a) cost_new true (S (ls_i st))) h1
else if Rgtb cost_new (ls_cost_old st) && ls_flag st then
  (h1, Ok (mkLs (ls_step_size st / a) (ls_cost_old st) (ls_flag st) (S (ls_i st))))
else
  NLCG._line_search_loop A self img f_new a b n
    (mkLs (ls_step_size st) (ls_cost_old st) (ls_flag st) (S (ls_i st))) h1.
Proof.
intros H3 cand h1 cost_new.
assert (Hn : nth (length h) h1 [] = cand) by apply nth_heap_new.
assert (Hy : nth (NLCG.y self) h1 [] = nth (NLCG.y self) h [])
  by (apply nth_heap_app; exact H3).
assert (Hh1 : h1 = h ++ [cand]) by reflexivity.
clearbody h1.
cbn [NLCG._line_search_loop]. unfold bind at 1. unfold load at 1.
unfold bind at 1. unfold load at 1. unfold bind at 1. unfold alloc at 1.
fold cand. rewrite <- Hh1.
unfold bind at 1. rewrite _calculate_fnorm_eq.
unfold bind at 1. rewrite _calculate_tnorm_eq.
rewrite !Hn, !Hy.
unfold calculate_tnorm. rewrite py_sum_Rsum.
subst cost_new. unfold class_candidate_cost, class_cost. fold cand. cbv zeta.
set (cn := _ + _).
destruct (Rgtb cn (ls_cost_old st) && negb (ls_flag st)); [reflexivity|].
destruct (Rltb cn (ls_cost_old st)); [reflexivity|].
destruct (Rgtb cn (ls_cost_old st) && ls_flag st); reflexivity.
Qed.

Lemma _line_search_loop_eq (n : nat) (st : LsVars) (h : heap) :
(img < length h)%nat -> (f_new < length h)%nat -> (NLCG.y self < length h)%nat ->
exists ext : heap,
  NLCG._line_search_loop A self img f_new a b n st h =
    (h ++ ext, Ok (search_loop (ccost h) a b n st)) /\
  length ext = (ls_i (search_loop (ccost h) a b n st) - ls_i st)%nat.
Proof.
intros H1 H2 H3. revert st h H1 H2 H3.
induction n as [|n IH]; intros st h H1 H2 H3.
- exists []. simpl. rewrite app_nil_r, Nat.sub_diag. split; reflexivity.
- rewrite _line_search_loop_S by exact H3. cbv zeta.
  set (cand := arr_add (nth img h []) (arr_scale (ls_step_size st) (nth f_new h []))).
  assert (Hh1 : exists h1, h1 = h ++ [cand]) by (eexists; reflexivity).
  destruct Hh1 as (h1 & Hh1). rewrite <- Hh1.
  assert (L1 : (img < length h1)%nat) by (subst h1; rewrite length_app; simpl; lia).
  assert (L2 : (f_new < length h1)%nat) by (subst h1; rewrite length_app; simpl; lia).
  assert (L3 : (NLCG.y self < length h1)%nat) by (subst h1; rewrite length_app; simpl; lia).
  assert (Hcost : forall s, ccost h1 s = ccost h s).
  { intros s. subst h1. apply class_candidate_cost_app; assumption. }
  assert (Hext : forall st', search_loop (ccost h1) a b n st' =
                             search_loop (ccost h) a b n st').
  { intros st'. apply search_loop_ext. exact Hcost. }
  simpl search_loop.
  destruct (Rgtb (ccost h (ls_step_size st)) (ls_cost_old st) && negb (ls_flag st)).
  { destruct (IH (mkLs (ls_step_size st * b) (ls_cost_old st) (ls_flag st) (S (ls_i st)))
                 h1 L1 L2 L3) as (ext & He & Hl).
    exists (cand :: ext). rewrite He, Hext in *. subst h1. rewrite <- app_assoc.
    split; [reflexivity|]. simpl in *.
    pose proof (search_loop_count (ccost h) a b n
      (mkLs (ls_step_size st * b) (ls_cost_old st) (ls_flag st) (S (ls_i st)))) as Hc'.
    simpl in Hc'. lia. }
  destruct (Rltb (ccost h (ls_step_size st)) (ls_cost_old st)).
  { destruct (IH (mkLs (ls_step_size st * a) (ccost h (ls_step_size st)) true (S (ls_i st)))
                 h1 L1 L2 L3) as (ext & He & Hl).
    exists (cand :: ext). rewrite He, Hext in *. subst h1. rewrite <- app_assoc.
    split; [reflexivity|]. simpl in *.
    pose proof (search_loop_count (ccost h) a b n
      (mkLs (ls_step_size st * a) (ccost h (ls_step_size st)) true (S (ls_i st)))) as Hc'.
    simpl in Hc'. lia. }
  destruct (Rgtb (ccost h (ls_step_size st)) (ls_cost_old st) && ls_flag st).
  { exists [cand]. subst h1. split; [reflexivity|]. cbn [length ls_i]. lia. }
  destruct (IH (mkLs (ls_step_size st) (ls_cost_old st) (ls_flag st) (S (ls_i st)))
               h1 L1 L2 L3) as (ext & He & Hl).
  exists (cand :: ext). rewrite He, Hext in *. subst h1. rewrite <- app_assoc.
  split; [reflexivity|]. simpl in *.
  pose proof (search_loop_count (ccost h) a b n
    (mkLs (ls_step_size st) (ls_cost_old st) (ls_flag st) (S (ls_i st)))) as Hc'.
  simpl in Hc'. lia.
Qed.

End ClassSearch.

Lemma _line_search_eq (A : Array -> Array) (self : NLCG.Self) (img f_new : loc)
      (cost_old step_size : R) (h : heap) :
  (img < length h)%nat -> (f_new < length h)%nat -> (NLCG.y self < length h)%nat ->
  let st := search_loop (class_candidate_cost A self img f_new h) (13 / 10) (8 / 10) 15
                        (mkLs step_size cost_old false 0) in
  exists ext : heap,
    NLCG._line_search_loop A self img f_new (13 / 10) (8 / 10) 15
      (mkLs step_size cost_old false 0) h = (h ++ ext, Ok st) /\
    NLCG._line_search A self img f_new cost_old step_size h =
      (h ++ ext, Ok (ls_step_size st)) /\
    length ext = ls_i st.
Proof.
  intros H1 H2 H3 st. unfold NLCG._line_search. cbv zeta.
  destruct (@_line_search_loop_eq A self img f_new (13 / 10) (8 / 10) 15
              (mkLs step_size cost_old false 0) h H1 H2 H3) as (ext & He & Hl).
  exists ext. unfold bind. rewrite He. fold st. repeat split.
  fold st in Hl. rewrite Hl. simpl. lia.
Qed.

(** ** The line search of the function-based solver *)

Section FuncSearch.
Variable Coord : Type.
Variable nufft : Array -> Coord -> Array.
Variable nufft_adjoint : Array -> Coord -> nat * nat * nat -> Array.
Variable kdata : list Array.
Variable kweight : Weights.
Variable kloc : list Coord.
Variable sens_map : Array.

Local Abbreviation fid := (fidelity_update nufft nufft_adjoint kdata kweight kloc sens_map).
Local Abbreviation fcost := (func_candidate_cost nufft nufft_adjoint kdata kweight kloc sens_map).

Lemma index_ok {X : Type} (l : list X) (i : nat) :
(i < length l)%nat -> exists v, index l i = Ok v.
Proof.
intros H. unfold index. destruct (nth_error l i) eqn:E; [eauto|].
apply nth_error_None in E. lia.
Qed.

Lemma fidelity_frames_ok (frames : list nat) (img : Array) (oshape : nat * nat * nat)
    (ut : list Array) (fn : C) :
Forall (fun i => (i < length img)%nat /\ (i < length kloc)%nat /\ (i < length kdata)%nat)
       frames ->
exists r, fidelity_frames nufft nufft_adjoint kdata kweight kloc sens_map
            frames img oshape ut fn = Ok r.
Proof.
intros H. revert ut fn. induction H as [|i frames (Hi & Hl & Hd) _ IH]; intros ut fn.
- simpl. eauto.
- cbn [fidelity_frames].
  destruct (index_ok img Hi) as (v1 & ->). cbn [rbind].
  destruct (index_ok kloc Hl) as (v2 & ->). cbn [rbind].
  destruct (index_ok kdata Hd) as (v3 & ->). cbn [rbind].
  apply IH.
Qed.

(** [fidelity_update] returns when the image has a frame and the data
  and the trajectory have an entry for every frame. *)
Lemma fidelity_update_ok (img : Array) :
(0 < length img)%nat -> (length img <= length kloc)%nat ->
(length img <= length kdata)%nat ->
exists u fn, fid img = Ok (u, fn).
Proof.
intros H0 Hl Hd. unfold fidelity_update.
edestruct (@fidelity_frames_ok (seq 0 (length img)) img) as ([ut fn] & ->).
{ apply Forall_forall. intros i Hi. apply in_seq in Hi. lia. }
cbn [rbind]. destruct (length img) eqn:E; [lia|]. eauto.
Qed.

Lemma length_arr_zip (f : C -> C -> C) (x y : Array) :
length (arr_zip f x y) = Nat.min (length x) (length y).
Proof. apply length_zipWith. Qed.

Lemma length_candidate (img u : Array) (s : R) :
  length (arr_add img (arr_scale s u)) = Nat.min (length img) (length u).
Proof.
  unfold arr_add. rewrite length_arr_zip.
  unfold arr_scale. rewrite length_arr_map. reflexivity.
Qed.

Lemma fidelity_frames_inv (frames : list nat) (img : Array) (oshape : nat * nat * nat)
      (ut : list Array) (fn : C) (r : list Array * C) :
  fidelity_frames nufft nufft_adjoint kdata kweight kloc sens_map
                  frames img oshape ut fn = Ok r ->
  Forall (fun i => (i < length kloc)%nat /\ (i < length kdata)%nat) frames.
Proof.
  revert ut fn. induction frames as [|i frames IH]; intros ut fn H; [constructor|].
  cbn [fidelity_frames] in H.
  destruct (index img i) as [v1|] eqn:E1; cbn [rbind] in H; [|discriminate].
  destruct (index kloc i) as [v2|] eqn:E2; cbn [rbind] in H; [|discriminate].
  destruct (index kdata i) as [v3|] eqn:E3; cbn [rbind] in H; [|discriminate].
  constructor; [|eapply IH; exact H].
  unfold index in E2, E3.
  destruct (nth_error kloc i) eqn:N2; [|discriminate].
  destruct (nth_error kdata i) eqn:N3; [|discriminate].
  split; apply nth_error_Some; congruence.
Qed.

(** [fidelity_update] returns only when the image has a frame and the data
    and the trajectory have an entry for every frame. *)
Lemma fidelity_update_inv (img u : Array) (fn : R) :
  fid img = Ok (u, fn) ->
  (0 < length img)%nat /\ (length img <= length kloc)%nat /\
  (length img <= length kdata)%nat.
Proof.
  unfold fidelity_update. intros H.
  destruct (fidelity_frames _ _ _ _ _ _ _ _ _ _ _) as [[ut f]|] eqn:E;
    cbn [rbind] in H; [|discriminate].
  destruct (length img) as [|n] eqn:L; [discriminate|].
  apply fidelity_frames_inv in E. rewrite Forall_forall in E.
  specialize (E n). destruct E as [E1 E2]; [apply in_seq; lia|]. lia.
Qed.

Variables (img update_term : Array) (lambda_t : R).
Hypothesis Hcand : (0 < Nat.min (length img) (length update_term))%nat.
Hypothesis Hkloc : (Nat.min (length img) (length update_term) <= length kloc)%nat.
Hypothesis Hkdata : (Nat.min (length img) (length update_term) <= length kdata)%nat.

Lemma line_search_loop_eq (a b : R) (n : nat) (st : LsVars) :
line_search_loop nufft nufft_adjoint kdata kweight kloc sens_map
                 img update_term lambda_t a b n st =
Ok (search_loop (fcost lambda_t img update_term) a b n st).
Proof.
revert st; induction n as [|n IH]; intros st; [reflexivity|].
cbn [line_search_loop search_loop]. cbv zeta.
destruct (@fidelity_update_ok (arr_add img (arr_scale (ls_step_size st) update_term)))
  as (u & fn & E); rewrite ?length_candidate; try lia.
assert (Hc : fcost lambda_t img update_term (ls_step_size st) =
             fn + calculate_tnorm
                    (arr_add img (arr_scale (ls_step_size st) update_term)) lambda_t).
{ unfold func_candidate_cost, func_cost. rewrite E. reflexivity. }
rewrite E, Hc. cbn [rbind].
repeat match goal with
       | |- context [if ?c then _ else _] => destruct c
       end; try apply IH; reflexivity.
Qed.
End FuncSearch.

Lemma line_search_eq_min (Coord : Type) (nufft : Array -> Coord -> Array)
      (nufft_adjoint : Array -> Coord -> nat * nat * nat -> Array)
      (kdata : list Array) (kweight : Weights) (kloc : list Coord) (sens_map : Array)
      (img update_term : Array) (step_size cost_old lambda_t : R) :
  (0 < Nat.min (length img) (length update_term))%nat ->
  (Nat.min (length img) (length update_term) <= length kloc)%nat ->
  (Nat.min (length img) (length update_term) <= length kdata)%nat ->
  let st := search_loop
              (func_candidate_cost nufft nufft_adjoint kdata kweight kloc sens_map
                                   lambda_t img update_term)
              (13 / 10) (8 / 10) 15 (mkLs step_size cost_old false 0) in
  line_search_loop nufft nufft_adjoint kdata kweight kloc sens_map img update_term
                   lambda_t (13 / 10) (8 / 10) 15 (mkLs step_size cost_old false 0) = Ok st /\
  line_search nufft nufft_adjoint kdata kweight kloc sens_map img update_term
              step_size cost_old lambda_t = Ok (ls_step_size st).
Proof.
  intros H0 Hl Hd st. unfold line_search. cbv zeta.
  rewrite line_search_loop_eq by assumption. split; reflexivity.
Qed.

Lemma line_search_eq (Coord : Type) (nufft : Array -> Coord -> Array)
      (nufft_adjoint : Array -> Coord -> nat * nat * nat -> Array)
      (kdata : list Array) (kweight : Weights) (kloc : list Coord) (sens_map : Array)
      (img update_term : Array) (step_size cost_old lambda_t : R) :
  (0 < length img)%nat -> (0 < length update_term)%nat ->
  (length img <= length kloc)%nat -> (length img <= length kdata)%nat ->
  let st := search_loop
              (func_candidate_cost nufft nufft_adjoint kdata kweight kloc sens_map
                                   lambda_t img update_term)
              (13 / 10) (8 / 10) 15 (mkLs step_size cost_old false 0) in
  line_search_loop nufft nufft_adjoint kdata kweight kloc sens_map img update_term
                   lambda_t (13 / 10) (8 / 10) 15 (mkLs step_size cost_old false 0) = Ok st /\
  line_search nufft nufft_adjoint kdata kweight kloc sens_map img update_term
              step_size cost_old lambda_t = Ok (ls_step_size st).
Proof.
  intros H0 Hu Hl Hd st. unfold line_search. cbv zeta.
  rewrite line_search_loop_eq by lia. split; reflexivity.
Qed.

Lemma line_search_loop_raise (Coord : Type) (nufft : Array -> Coord -> Array)
      (nufft_adjoint : Array -> Coord -> nat * nat * nat -> Array)
      (kdata : list Array) (kweight : Weights) (kloc : list Coord) (sens_map : Array)
      (img update_term : Array) (lambda_t a b : R) (n : nat) (st : LsVars) (e : exn) :
  fidelity_update nufft nufft_adjoint kdata kweight kloc sens_map
    (arr_add img (arr_scale (ls_step_size st) update_term)) = Raise e ->
  line_search_loop nufft nufft_adjoint kdata kweight kloc sens_map img update_term
                   lambda_t a b (S n) st = Raise e.
Proof.
  intros H. cbn [line_search_loop]. cbv zeta. rewrite H. reflexivity.
Qed.

Lemma line_search_raise (Coord : Type) (nufft : Array -> Coord -> Array)
      (nufft_adjoint : Array -> Coord -> nat * nat * nat -> Array)
      (kdata : list Array) (kweight : Weights) (kloc : list Coord) (sens_map : Array)
      (img update_term : Array) (step_size cost_old lambda_t : R) (e : exn) :
  fidelity_update nufft nufft_adjoint kdata kweight kloc sens_map
    (arr_add img (arr_scale step_size update_term)) = Raise e ->
  line_search nufft nufft_adjoint kdata kweight kloc sens_map img update_term
              step_size cost_old lambda_t = Raise e.
Proof.
  intros E. unfold line_search. cbv zeta.
  rewrite (@line_search_loop_raise _ nufft nufft_adjoint kdata kweight kloc sens_map
             img update_term lambda_t (13 / 10) (8 / 10) 14
             (mkLs step_size cost_old false 0) e E).
  reflexivity.
Qed.

(** A line search that returns has run [search_loop]. *)
Lemma line_search_inv (Coord : Type) (nufft : Array -> Coord -> Array)
      (nufft_adjoint : Array -> Coord -> nat * nat * nat -> Array)
      (kdata : list Array) (kweight : Weights) (kloc : list Coord) (sens_map : Array)
      (img update_term : Array) (step_size cost_old lambda_t s : R) :
  line_search nufft nufft_adjoint kdata kweight kloc sens_map img update_term
              step_size cost_old lambda_t = Ok s ->
  (0 < Nat.min (length img) (length update_term))%nat /\
  s = ls_step_size
        (search_loop
           (func_candidate_cost nufft nufft_adjoint kdata kweight kloc sens_map
                                lambda_t img update_term)
           (13 / 10) (8 / 10) 15 (mkLs step_size cost_old false 0)).
Proof.
  intros H.
  destruct (fidelity_update nufft nufft_adjoint kdata kweight kloc sens_map
              (arr_add img (arr_scale step_size update_term))) as [[u fn]|e] eqn:E.
  - apply fidelity_update_inv in E. rewrite length_candidate in E.
    split; [lia|].
    destruct (@line_search_eq_min _ nufft nufft_adjoint kdata kweight kloc sens_map
                img update_term step_size cost_old lambda_t) as (_ & Hs); try lia.
    rewrite Hs in H. apply Ok_inj in H. symmetry. exact H.
  - rewrite (line_search_raise _ _ _ _ _ _ _ _ _ _ _ E) in H. discriminate.
Qed.

(** ** Claims on the line search *)

(** C5.  Both line searches return, for every input, after at most 15
    passes through the loop body, with the step size that the last pass
    left, whether or not a candidate improved the cost.  (The class-based
    search allocates one candidate image per pass.) *)
Theorem line_search_bounded
        (A : Array -> Array) (self : NLCG.Self) (img f_new : loc) (h : heap)
        (Coord : Type) (nufft : Array -> Coord -> Array)
        (nufft_adjoint : Array -> Coord -> nat * nat * nat -> Array)
        (kdata : list Array) (kweight : Weights) (kloc : list Coord) (sens_map : Array)
        (imgv update_term : Array) (lambda_t cost_old step_size : R) :
  (img < length h)%nat -> (f_new < length h)%nat -> (NLCG.y self < length h)%nat ->
  (0 < length imgv)%nat -> (0 < length update_term)%nat ->
  (length imgv <= length kloc)%nat -> (length imgv <= length kdata)%nat ->
  (exists (st : LsVars) (ext : heap),
      NLCG._line_search_loop A self img f_new (13 / 10) (8 / 10) 15
        (mkLs step_size cost_old false 0) h = (h ++ ext, Ok st) /\
      NLCG._line_search A self img f_new cost_old step_size h =
        (h ++ ext, Ok (ls_step_size st)) /\
      length ext = ls_i st /\ (ls_i st <= 15)%nat) /\
  (exists st : LsVars,
      line_search_loop nufft nufft_adjoint kdata kweight kloc sens_map imgv update_term
                       lambda_t (13 / 10) (8 / 10) 15 (mkLs step_size cost_old false 0) = Ok st /\
      line_search nufft nufft_adjoint kdata kweight kloc sens_map imgv update_term
                  step_size cost_old lambda_t = Ok (ls_step_size st) /\
      (ls_i st <= 15)%nat).
Proof.
  intros H1 H2 H3 F0 Fu Fl Fd. split.
  - destruct (@_line_search_eq A self img f_new cost_old step_size h H1 H2 H3)
      as (ext & He & Hs & Hl).
    eexists. exists ext. repeat split; try eassumption.
    match goal with
    | |- (ls_i (search_loop ?c ?a ?b ?n ?s) <= _)%nat =>
        pose proof (search_loop_count c a b n s) as Hc; cbn [ls_i] in Hc; lia
    end.
  - destruct (@line_search_eq Coord nufft nufft_adjoint kdata kweight kloc sens_map
                imgv update_term step_size cost_old lambda_t F0 Fu Fl Fd) as (He & Hs).
    eexists. repeat split; try eassumption.
    match goal with
    | |- (ls_i (search_loop ?c ?a ?b ?n ?s) <= _)%nat =>
        pose proof (search_loop_count c a b n s) as Hc; cbn [ls_i] in Hc; lia
    end.
Qed.

(** C9.  A line search that is given a step size above zero returns a step
    size above zero: every pass multiplies the step size by 0.8 or by 1.3,
    or divides it by 1.3. *)
Theorem line_search_step_positive
        (A : Array -> Array) (self : NLCG.Self) (img f_new : loc) (h : heap)
        (Coord : Type) (nufft : Array -> Coord -> Array)
        (nufft_adjoint : Array -> Coord -> nat * nat * nat -> Array)
        (kdata : list Array) (kweight : Weights) (kloc : list Coord) (sens_map : Array)
        (imgv update_term : Array) (lambda_t cost_old step_size : R) :
  (img < length h)%nat -> (f_new < length h)%nat -> (NLCG.y self < length h)%nat ->
  (0 < length imgv)%nat -> (0 < length update_term)%nat ->
  (length imgv <= length kloc)%nat -> (length imgv <= length kdata)%nat ->
  0 < step_size ->
  (exists (s : R) (h' : heap),
      NLCG._line_search A self img f_new cost_old step_size h = (h', Ok s) /\ 0 < s) /\
  (exists s : R,
      line_search nufft nufft_adjoint kdata kweight kloc sens_map imgv update_term
                  step_size cost_old lambda_t = Ok s /\ 0 < s).
Proof.
  intros H1 H2 H3 F0 Fu Fl Fd Hpos. split.
  - destruct (@_line_search_eq A self img f_new cost_old step_size h H1 H2 H3)
      as (ext & _ & Hs & _).
    eexists. eexists. split; [exact Hs|].
    apply search_loop_positive; cbn [ls_step_size]; lra.
  - destruct (@line_search_eq Coord nufft nufft_adjoint kdata kweight kloc sens_map
                imgv update_term step_size cost_old lambda_t F0 Fu Fl Fd) as (_ & Hs).
    eexists. split; [exact Hs|].
    apply search_loop_positive; cbn [ls_step_size]; lra.
Qed.

(** C10.  A pass of a line search in which the candidate costs exactly the
    reference cost takes none of the three branches: it leaves the step
    size, the reference cost and the flag as they are and the loop goes on.
    When the candidate at the step size passed in costs exactly the
    reference cost passed in, the search makes all 15 passes and returns
    that step size. *)
Theorem line_search_tie
        (A : Array -> Array) (self : NLCG.Self) (img f_new : loc) (h : heap)
        (Coord : Type) (nufft : Array -> Coord -> Array)
        (nufft_adjoint : Array -> Coord -> nat * nat * nat -> Array)
        (kdata : list Array) (kweight : Weights) (kloc : list Coord) (sens_map : Array)
        (imgv update_term : Array) (lambda_t : R) (st : LsVars) (n : nat) :
  (img < length h)%nat -> (f_new < length h)%nat -> (NLCG.y self < length h)%nat ->
  (0 < length imgv)%nat -> (0 < length update_term)%nat ->
  (length imgv <= length kloc)%nat -> (length imgv <= length kdata)%nat ->
  class_candidate_cost A self img f_new h (ls_step_size st) = ls_cost_old st ->
  func_candidate_cost nufft nufft_adjoint kdata kweight kloc sens_map lambda_t
                      imgv update_term (ls_step_size st) = ls_cost_old st ->
  let st1 := mkLs (ls_step_size st) (ls_cost_old st) (ls_flag st) (S (ls_i st)) in
  (NLCG._line_search_loop A self img f_new (13 / 10) (8 / 10) (S n) st h =
   NLCG._line_search_loop A self img f_new (13 / 10) (8 / 10) n st1
     (h ++ [arr_add (nth img h []) (arr_scale (ls_step_size st) (nth f_new h []))])) /\
  (line_search_loop nufft nufft_adjoint kdata kweight kloc sens_map imgv update_term
                    lambda_t (13 / 10) (8 / 10) (S n) st =
   line_search_loop nufft nufft_adjoint kdata kweight kloc sens_map imgv update_term
                    lambda_t (13 / 10) (8 / 10) n st1) /\
  (exists ext : heap,
      NLCG._line_search_loop A self img f_new (13 / 10) (8 / 10) 15
        (mkLs (ls_step_size st) (ls_cost_old st) false 0) h =
        (h ++ ext, Ok (mkLs (ls_step_size st) (ls_cost_old st) false 15)) /\
      NLCG._line_search A self img f_new (ls_cost_old st) (ls_step_size st) h =
        (h ++ ext, Ok (ls_step_size st)) /\
      length ext = 15%nat) /\
  line_search_loop nufft nufft_adjoint kdata kweight kloc sens_map imgv update_term
                   lambda_t (13 / 10) (8 / 10) 15
                   (mkLs (ls_step_size st) (ls_cost_old st) false 0) =
    Ok (mkLs (ls_step_size st) (ls_cost_old st) false 15) /\
  line_search nufft nufft_adjoint kdata kweight kloc sens_map imgv update_term
              (ls_step_size st) (ls_cost_old st) lambda_t = Ok (ls_step_size st).
Proof.
  intros H1 H2 H3 F0 Fu Fl Fd Tc Tf st1.
  split; [|split; [|split; [|split]]].
  - rewrite _line_search_loop_S by exact H3. cbv zeta.
    rewrite Tc. unfold Rgtb. rewrite Rltb_irrefl. reflexivity.
  - rewrite !line_search_loop_eq by lia.
    rewrite search_loop_tie by exact Tf. reflexivity.
  - destruct (@_line_search_eq A self img f_new (ls_cost_old st) (ls_step_size st)
                               h H1 H2 H3) as (ext & He & Hs & Hl).
    rewrite search_loop_all_ties in He, Hs, Hl by exact Tc.
    exists ext. cbn [ls_step_size ls_cost_old ls_flag ls_i Nat.add] in *.
    repeat split; assumption.
  - rewrite line_search_loop_eq by lia.
    rewrite search_loop_all_ties by exact Tf. reflexivity.
  - destruct (@line_search_eq Coord nufft nufft_adjoint kdata kweight kloc sens_map
                imgv update_term (ls_step_size st) (ls_cost_old st) lambda_t F0 Fu Fl Fd)
      as (_ & Hs).
    rewrite search_loop_all_ties in Hs by exact Tf. exact Hs.
Qed.

(** ** One pass of the loop of [run] on the heap *)

Lemma bind_ok {T U : Type} (m : M T) (k : T -> M U) (h h' : heap) (v : T) :
  m h = (h', Ok v) -> bind m k h = k v h'.
Proof. intros H. unfold bind. rewrite H. reflexivity. Qed.

Lemma bind_raise {T U : Type} (m : M T) (k : T -> M U) (h h' : heap) (e : exn) :
  m h = (h', Raise e) -> bind m k h = (h', Raise e).
Proof. intros H. unfold bind. rewrite H. reflexivity. Qed.

Lemma upd_app_new {X : Type} (l : list X) (v w : X) (t : list X) :
  upd (length l) v (l ++ w :: t) = l ++ v :: t.
Proof. induction l as [|x l IH]; simpl; [reflexivity | rewrite IH; reflexivity]. Qed.

Lemma Cmul_RtoC (r : R) (z : C) : Cmul (RtoC r) z = Cscale r z.
Proof. unfold Cmul, RtoC, Cscale; simpl. f_equal; ring. Qed.

Lemma arr_cmul_RtoC (r : R) (a : Array) : arr_cmul (RtoC r) a = arr_scale r a.
Proof.
  unfold arr_cmul, arr_scale, arr_map, frame_map.
  apply map_ext. intros f. apply map_ext. intros row. apply map_ext.
  intros z. apply Cmul_RtoC.
Qed.

Lemma axpy_eq (y : loc) (a : C) (x : loc) (h : heap) :
  axpy y a x h = (upd y (arr_add (nth y h []) (arr_cmul a (nth x h []))) h, Ok tt).
Proof. reflexivity. Qed.

Section RunBody.
Variables (A AH : Array -> Array) (self : NLCG.Self).
Variables (img : loc) (iter : nat) (st : NLCG.RunVars) (h : heap).

Hypothesis Hy : (NLCG.y self < length h)%nat.
Hypothesis Himg : (img < length h)%nat.
Hypothesis Hne : NLCG.y self <> img.

Let X := nth img h [].
Let Y := nth (NLCG.y self) h [].
Let lam := NLCG.lambda_t self.

Variable T : Array.
Hypothesis HT : temporal_tv_update X = Ok T.
Hypothesis Hsq : has_unit_axis T = false.

Let G := class_gradient A AH Y lam X T.

(** The squared norm and the array that the pass reads as [f2_old] and
  [f_old]: its own at iteration 0, those of the pass before otherwise. *)
Variables (f2_old : C) (P_old : Array).
Hypothesis Hprev :
(iter = 0%nat /\ f2_old = vdot G G /\ P_old = G) \/
(iter <> 0%nat /\ NLCG.r_f2_old st = Some f2_old /\
 exists lf, NLCG.r_f_old st = Some lf /\ (lf < length h)%nat /\ nth lf h [] = P_old).

Let P := conj_direction G f2_old P_old.
Let fnorm_t := (let r := arr_sub Y (A X) in Cre (vdot r r) / INR (size X)).
Let tnorm_t := lam * Rsum (map Cabs (flatten (diff X))) / INR (size X).
Let cost_t := fnorm_t + tnorm_t.
Let ls := search_loop (fun s => class_cost A Y lam (arr_add X (arr_scale s P)))
                    (13 / 10) (8 / 10) 15
                    (mkLs (NLCG.r_step_size st) cost_t false 0).
Let step_size := ls_step_size ls.

Lemma run_body_ok :
exists ext : heap,
  NLCG.run_body A AH self img iter st h =
    (upd img (arr_add X (arr_scale step_size P)) (h ++ [P; T] ++ ext),
     Ok (if Rltb step_size (2 / 1000) then
           (NLCG.mkRun step_size (Some (vdot G G)) (Some (length h))
              (NLCG.r_fnorm st) (NLCG.r_tnorm st) (NLCG.r_cost st), true)
         else
           (NLCG.mkRun step_size (Some (vdot G G)) (Some (length h))
              (NLCG.r_fnorm st ++ [fnorm_t]) (NLCG.r_tnorm st ++ [tnorm_t])
              (NLCG.r_cost st ++ [cost_t]), false))) /\
  length ext = ls_i ls.
Proof.
unfold NLCG.run_body.
(* f_new = self._update_fidelity(img) *)
rewrite (@bind_ok _ _ _ _ h (h ++ [AH (arr_sub Y (A X))]) (length h)) by reflexivity.
(* self._update_temporal_fd(img) *)
rewrite (@bind_ok _ _ _ _ _ (h ++ [AH (arr_sub Y (A X))] ++ [T]) (S (length h))).
2:{ rewrite _update_temporal_fd_eq. rewrite (@nth_heap_app img h _ Himg). fold X. rewrite HT.
    rewrite length_app, <- app_assoc. simpl. f_equal. f_equal. lia. }
assert (E2 : h ++ [AH (arr_sub Y (A X))] ++ [T] = h ++ [AH (arr_sub Y (A X)); T])
  by reflexivity.
rewrite E2; clear E2.
(* xp.squeeze *)
rewrite (@bind_ok _ _ _ _ _ (h ++ [AH (arr_sub Y (A X)); T]) (S (length h))).
2:{ unfold squeeze, bind, load.
    replace (nth (S (length h)) (h ++ [AH (arr_sub Y (A X)); T]) []) with T.
    - rewrite Hsq. reflexivity.
    - change (h ++ [AH (arr_sub Y (A X)); T]) with (h ++ [AH (arr_sub Y (A X))] ++ [T]).
      rewrite app_assoc.
      replace (S (length h)) with (length (h ++ [AH (arr_sub Y (A X))]))
        by (rewrite length_app; simpl; lia).
      symmetry. apply nth_heap_new. }
(* util.axpy(f_new, lambda_t, t) *)
rewrite (@bind_ok _ _ _ _ _ (h ++ [G; T]) tt).
2:{ rewrite axpy_eq. rewrite nth_heap_new.
    replace (nth (S (length h)) (h ++ [AH (arr_sub Y (A X)); T]) []) with T.
    - rewrite upd_app_new. reflexivity.
    - change (h ++ [AH (arr_sub Y (A X)); T]) with (h ++ [AH (arr_sub Y (A X))] ++ [T]).
      rewrite app_assoc.
      replace (S (length h)) with (length (h ++ [AH (arr_sub Y (A X))]))
        by (rewrite length_app; simpl; lia).
      symmetry. apply nth_heap_new. }
(* xp.vdot(f_new, f_new) *)
rewrite (@bind_ok _ _ _ _ _ (h ++ [G; T]) (vdot G G)).
2:{ unfold vdot_ref, bind, load, ret. rewrite nth_heap_new. reflexivity. }
(* f2_old, f_old, and util.axpy(f_new, beta, f_old) *)
assert (Hdir : exists (f2 : C) (lf : loc),
           (if iter =? 0 then Some (vdot G G) else NLCG.r_f2_old st) = Some f2 /\
           (if iter =? 0 then @Some loc (length h) else NLCG.r_f_old st) = Some lf /\
           axpy (length h) (Cdiv (vdot G G) (Cadd f2 (RtoC eps))) lf (h ++ [G; T]) =
             (h ++ [P; T], Ok tt)).
{ destruct Hprev as [(Hi & Hf & HP) | (Hi & Hf2 & lf & Hlf & Hlt & HP)].
  - exists (vdot G G), (length h). rewrite Hi. cbn [Nat.eqb].
    repeat split. rewrite axpy_eq, nth_heap_new, upd_app_new.
    unfold P, conj_direction. rewrite Hf, HP. reflexivity.
  - exists f2_old, lf. apply Nat.eqb_neq in Hi. rewrite Hi.
    repeat split; try assumption.
    rewrite axpy_eq, nth_heap_new, upd_app_new.
    rewrite (@nth_heap_app lf h _ Hlt), HP. reflexivity. }
destruct Hdir as (f2 & lf & E1 & E2 & Hax).
rewrite E1. cbn [bound].
rewrite (@bind_ok _ _ _ _ _ (h ++ [G; T]) f2) by reflexivity.
rewrite E2. cbn [bound].
rewrite (@bind_ok _ _ _ _ _ (h ++ [G; T]) lf) by reflexivity.
rewrite (@bind_ok _ _ _ _ _ _ _ Hax).
(* the cost of the image *)
assert (L1 : (img < length (h ++ [P; T]))%nat) by (rewrite length_app; simpl; lia).
assert (L2 : (length h < length (h ++ [P; T]))%nat) by (rewrite length_app; simpl; lia).
assert (L3 : (NLCG.y self < length (h ++ [P; T]))%nat) by (rewrite length_app; simpl; lia).
assert (NX : nth img (h ++ [P; T]) [] = X) by (apply nth_heap_app; exact Himg).
assert (NY : nth (NLCG.y self) (h ++ [P; T]) [] = Y) by (apply nth_heap_app; exact Hy).
assert (NP : nth (length h) (h ++ [P; T]) [] = P) by apply nth_heap_new.
rewrite (@bind_ok _ _ _ _ _ (h ++ [P; T]) fnorm_t).
2:{ rewrite _calculate_fnorm_eq, NX, NY. reflexivity. }
rewrite (@bind_ok _ _ _ _ _ (h ++ [P; T]) tnorm_t).
2:{ rewrite _calculate_tnorm_eq, NX. unfold calculate_tnorm.
    rewrite py_sum_Rsum. reflexivity. }
(* the line search *)
destruct (@_line_search_eq A self img (length h) (fnorm_t + tnorm_t)
            (NLCG.r_step_size st) (h ++ [P; T]) L1 L2 L3) as (ext & _ & Hs & Hl).
rewrite (@search_loop_ext _ (fun s => class_cost A Y lam (arr_add X (arr_scale s P))))
  in Hs, Hl.
2,3: (intros s; unfold class_candidate_cost; rewrite NX, NY, NP; reflexivity).
fold cost_t in Hs, Hl. fold ls in Hs, Hl. fold step_size in Hs.
exists ext. split; [|exact Hl].
rewrite (@bind_ok _ _ _ _ _ _ _ Hs).
(* util.axpy(img, step_size, f_old) *)
rewrite (@bind_ok _ _ _ _ _ (upd img (arr_add X (arr_scale step_size P))
                                 (h ++ [P; T] ++ ext)) tt).
2:{ rewrite axpy_eq. rewrite <- app_assoc.
    change ([P; T] ++ ext) with (P :: T :: ext).
    rewrite (@nth_heap_app img h _ Himg), nth_heap_new.
    fold X. rewrite arr_cmul_RtoC. reflexivity. }
fold cost_t. destruct (Rltb step_size (2 / 1000)); reflexivity.
Qed.
End RunBody.

Lemma line_search_bounded_witness :
  (exists (st : LsVars) (ext : heap),
      NLCG._line_search_loop id_operator sample_self 1%nat 2%nat (13 / 10) (8 / 10) 15
        (mkLs 2 5 false 0) sample_heap = (sample_heap ++ ext, Ok st) /\
      NLCG._line_search id_operator sample_self 1%nat 2%nat 5 2 sample_heap =
        (sample_heap ++ ext, Ok (ls_step_size st)) /\
      length ext = ls_i st /\ (ls_i st <= 15)%nat) /\
  (exists st : LsVars,
      line_search_loop id_nufft id_nufft_adjoint sample_kdata sample_kweight sample_kloc
                       sample_sens_map ones_2x1x1 zeros_2x1x1
                       0 (13 / 10) (8 / 10) 15 (mkLs 2 5 false 0) = Ok st /\
      line_search id_nufft id_nufft_adjoint sample_kdata sample_kweight sample_kloc
                  sample_sens_map ones_2x1x1 zeros_2x1x1 2 5 0 = Ok (ls_step_size st) /\
      (ls_i st <= 15)%nat).
Proof.
  apply (@line_search_bounded id_operator sample_self 1%nat 2%nat sample_heap
           unit id_nufft id_nufft_adjoint sample_kdata sample_kweight sample_kloc
           sample_sens_map ones_2x1x1 zeros_2x1x1 0 5 2); simpl; lia.
Defined.

Lemma line_search_step_positive_witness :
  (exists (s : R) (h' : heap),
      NLCG._line_search id_operator sample_self 1%nat 2%nat 5 2 sample_heap = (h', Ok s) /\ 0 < s) /\
  (exists s : R,
      line_search id_nufft id_nufft_adjoint sample_kdata sample_kweight sample_kloc
                  sample_sens_map ones_2x1x1 zeros_2x1x1 2 5 0 = Ok s /\ 0 < s).
Proof.
  apply (@line_search_step_positive id_operator sample_self 1%nat 2%nat sample_heap
           unit id_nufft id_nufft_adjoint sample_kdata sample_kweight sample_kloc
           sample_sens_map ones_2x1x1 zeros_2x1x1 0 5 2); simpl; try lia; lra.
Defined.

(** ** Evaluation on the sample inputs *)

Lemma Cabs_eq0 (z : C) : fst z = 0 -> snd z = 0 -> Cabs z = 0.
Proof.
  intros H1 H2. unfold Cabs. rewrite H1, H2.
  replace (0 * 0 + 0 * 0) with 0 by lra. apply sqrt_0.
Qed.

Ltac eval_arrays :=
  cbv beta iota zeta delta
      [class_candidate_cost class_cost func_candidate_cost func_cost
       fidelity_update fidelity_frames index rbind upd coil_images coil_combine
       kweighted frame_zip frame_map arr_zip arr_map zipWith
       arr_add arr_sub arr_scale arr_cmul frame_add frame_sub frame_neg
       vdot Csum Rsum py_sum flatten frame_flatten size calculate_tnorm diff
       Cadd Csub Cmul Cconj Cscale Cneg C0 RtoC Cre Cim
       map fold_right fold_left concat app length seq repeat nth nth_error hd fst snd
       INR Nat.add
       id_operator id_nufft id_nufft_adjoint
       sample_heap sample_self sample_sens_map sample_kweight sample_kdata sample_kloc
       ones_2x1x1 zeros_2x1x1
       NLCG.y NLCG.x NLCG.lambda_t NLCG.init_step_size NLCG.max_iter].

Lemma sample_class_tie :
  class_candidate_cost id_operator sample_self 1%nat 2%nat sample_heap 2 = 0.
Proof. eval_arrays. lra. Qed.

Lemma sample_func_tie :
  func_candidate_cost id_nufft id_nufft_adjoint sample_kdata sample_kweight sample_kloc
                      sample_sens_map 0 ones_2x1x1 zeros_2x1x1 2 = 0.
Proof.
  eval_arrays. rewrite Cabs_eq0 by (cbv [fst snd]; lra). lra.
Qed.

Lemma line_search_tie_witness :
  (exists ext : heap,
      NLCG._line_search id_operator sample_self 1%nat 2%nat 0 2 sample_heap =
        (sample_heap ++ ext, Ok 2) /\
      length ext = 15%nat) /\
  line_search id_nufft id_nufft_adjoint sample_kdata sample_kweight sample_kloc
              sample_sens_map ones_2x1x1 zeros_2x1x1 2 0 0 = Ok 2.
Proof.
  destruct (@line_search_tie id_operator sample_self 1%nat 2%nat sample_heap
              unit id_nufft id_nufft_adjoint sample_kdata sample_kweight sample_kloc
              sample_sens_map ones_2x1x1 zeros_2x1x1 0 (mkLs 2 0 false 0) 0)
    as (_ & _ & (ext & _ & Hc & Hl) & _ & Hf);
    try (simpl; lia).
  - apply sample_class_tie.
  - apply sample_func_tie.
  - split; [exists ext; split; assumption | exact Hf].
Defined.

(** ** The measurements are only read *)

Section Frames.
Variable ly : loc.

Lemma frames_ret {T : Type} (v : T) (Q : T -> Prop) : Q v -> frames ly (ret v) Q.
Proof.
intros HQ h Hl. simpl. repeat split; auto. intros w Hw. inversion Hw; subst; exact HQ.
Qed.

Lemma frames_raise {T : Type} (e : exn) (Q : T -> Prop) : frames ly (raise e) Q.
Proof. intros h Hl. simpl. repeat split; auto. intros w Hw. discriminate. Qed.

Lemma frames_lift {T : Type} (r : result T) (Q : T -> Prop) :
(forall v, r = Ok v -> Q v) -> frames ly (lift r) Q.
Proof. intros HQ h Hl. simpl. repeat split; auto. Qed.

Lemma frames_load (l : loc) : frames ly (load l) (fun _ => True).
Proof. intros h Hl. simpl. repeat split; auto. Qed.

Lemma frames_alloc (v : Array) : frames ly (alloc v) (fun l => l <> ly).
Proof.
intros h Hl. simpl. rewrite length_app. simpl. repeat split.
- lia.
- apply app_nth1. exact Hl.
- intros w Hw. inversion Hw; subst. lia.
Qed.

Lemma frames_store (l : loc) (v : Array) :
l <> ly -> frames ly (store l v) (fun _ => True).
Proof.
intros Hne h Hl. simpl. rewrite length_upd. repeat split; auto.
apply nth_upd_neq. exact Hne.
Qed.

Lemma frames_bind {T U : Type} (m : M T) (k : T -> M U) (Q : T -> Prop) (Q' : U -> Prop) :
frames ly m Q -> (forall v, Q v -> frames ly (k v) Q') -> frames ly (bind m k) Q'.
Proof.
intros Hm Hk h Hl. specialize (Hm h Hl). unfold bind.
destruct (m h) as [h1 [v|e]]; simpl in *.
- destruct Hm as (L1 & N1 & Q1).
  specialize (Hk v (Q1 v eq_refl) h1 ltac:(lia)).
  destruct Hk as (L2 & N2 & Q2). repeat split; try lia; try congruence. exact Q2.
- destruct Hm as (L1 & N1 & _). repeat split; auto. intros w Hw. discriminate.
Qed.

Lemma frames_weaken {T : Type} (m : M T) (Q Q' : T -> Prop) :
frames ly m Q -> (forall v, Q v -> Q' v) -> frames ly m Q'.
Proof.
intros Hm HQ h Hl. destruct (Hm h Hl) as (L & N & HQ1). repeat split; auto.
Qed.

Lemma frames_if {T : Type} (c : bool) (m1 m2 : M T) (Q : T -> Prop) :
frames ly m1 Q -> frames ly m2 Q -> frames ly (if c then m1 else m2) Q.
Proof. destruct c; auto. Qed.

Lemma frames_axpy (y : loc) (a : C) (x : loc) :
y <> ly -> frames ly (axpy y a x) (fun _ => True).
Proof.
intros Hne. unfold axpy.
eapply frames_bind; [apply frames_load|]. intros xv _.
eapply frames_bind; [apply frames_load|]. intros yv _.
apply frames_store. exact Hne.
Qed.

Lemma frames_squeeze (t : loc) :
t <> ly -> frames ly (squeeze t) (fun l => l <> ly).
Proof.
intros Hne. unfold squeeze.
eapply frames_bind; [apply frames_load|]. intros tv _.
apply frames_if; [apply frames_raise | apply frames_ret; exact Hne].
Qed.

Variables (A AH : Array -> Array) (self : NLCG.Self).

Lemma frames_update_fidelity (img : loc) :
frames ly (NLCG._update_fidelity A AH self img) (fun l => l <> ly).
Proof.
unfold NLCG._update_fidelity.
eapply frames_bind; [apply frames_load|]. intros yv _.
eapply frames_bind; [apply frames_load|]. intros iv _.
apply frames_alloc.
Qed.

Lemma frames_update_temporal_fd (img : loc) :
frames ly (NLCG._update_temporal_fd img) (fun l => l <> ly).
Proof.
unfold NLCG._update_temporal_fd.
eapply frames_bind; [apply frames_load|]. intros iv _.
eapply frames_bind; [apply frames_lift; intros; exact I|]. intros a0 _.
eapply frames_bind; [apply frames_lift; intros; exact I|]. intros al _.
apply frames_alloc.
Qed.

Lemma frames_calculate_fnorm (img : loc) :
frames ly (NLCG._calculate_fnorm A self img) (fun _ => True).
Proof.
unfold NLCG._calculate_fnorm.
eapply frames_bind; [apply frames_load|]. intros yv _.
eapply frames_bind; [apply frames_load|]. intros iv _.
apply frames_ret. exact I.
Qed.

Lemma frames_calculate_tnorm (img : loc) :
frames ly (NLCG._calculate_tnorm self img) (fun _ => True).
Proof.
unfold NLCG._calculate_tnorm.
eapply frames_bind; [apply frames_load|]. intros iv _.
apply frames_ret. exact I.
Qed.

Lemma frames_line_search_loop (img f_new : loc) (a b : R) (n : nat) (st : LsVars) :
frames ly (NLCG._line_search_loop A self img f_new a b n st) (fun _ => True).
Proof.
revert st; induction n as [|n IH]; intros st; cbn [NLCG._line_search_loop].
- apply frames_ret. exact I.
- eapply frames_bind; [apply frames_load|]. intros iv _.
  eapply frames_bind; [apply frames_load|]. intros fv _.
  eapply frames_bind; [apply frames_alloc|]. intros img_new _.
  eapply frames_bind; [apply frames_calculate_fnorm|]. intros fnorm _.
  eapply frames_bind; [apply frames_calculate_tnorm|]. intros tnorm _.
  repeat apply frames_if; try apply IH. apply frames_ret. exact I.
Qed.

Lemma frames_line_search (img f_new : loc) (cost_old step_size : R) :
frames ly (NLCG._line_search A self img f_new cost_old step_size) (fun _ => True).
Proof.
unfold NLCG._line_search.
eapply frames_bind; [apply frames_line_search_loop|]. intros st _.
apply frames_ret. exact I.
Qed.

Lemma frames_run_body (img : loc) (iter : nat) (st : NLCG.RunVars) :
img <> ly ->
frames ly (NLCG.run_body A AH self img iter st) (fun _ => True).
Proof.
intros Hne. unfold NLCG.run_body.
eapply frames_bind; [apply frames_update_fidelity|]. intros f_new Hf.
eapply frames_bind; [apply frames_update_temporal_fd|]. intros t Ht.
eapply frames_bind; [apply frames_squeeze; exact Ht|]. intros t' Ht'.
eapply frames_bind; [apply frames_axpy; exact Hf|]. intros _ _.
eapply frames_bind.
{ unfold vdot_ref.
  eapply frames_bind; [apply frames_load|]. intros av _.
  eapply frames_bind; [apply frames_load|]. intros bv _.
  apply (@frames_ret _ _ (fun _ => True)). exact I. }
intros f2_new _.
eapply frames_bind; [apply frames_lift; intros; exact I|]. intros f2_old _.
eapply frames_bind; [apply frames_lift; intros; exact I|]. intros f_old _.
eapply frames_bind; [apply frames_axpy; exact Hf|]. intros _ _.
eapply frames_bind; [apply frames_calculate_fnorm|]. intros fnorm_t _.
eapply frames_bind; [apply frames_calculate_tnorm|]. intros tnorm_t _.
eapply frames_bind; [apply frames_line_search|]. intros step_size _.
eapply frames_bind; [apply frames_axpy; exact Hne|]. intros _ _.
apply frames_if; apply frames_ret; exact I.
Qed.

Lemma frames_run_loop (img : loc) (n iter : nat) (st : NLCG.RunVars) :
img <> ly ->
frames ly (NLCG.run_loop A AH self img n iter st) (fun _ => True).
Proof.
intros Hne. revert iter st; induction n as [|n IH]; intros iter st;
  cbn [NLCG.run_loop].
- apply frames_ret. exact I.
- eapply frames_bind; [apply frames_run_body; exact Hne|]. intros r _.
  apply frames_if; [apply frames_ret; exact I | apply IH].
Qed.

Lemma frames_run :
NLCG.x self <> ly -> frames ly (NLCG.run A AH self) (fun _ => True).
Proof.
intros Hne. unfold NLCG.run.
eapply frames_bind; [apply frames_run_loop; exact Hne|]. intros st _.
apply frames_ret. exact I.
Qed.
End Frames.

(** C8.  The measurement array [self.y], weighted by the square root of
    the density compensation once in [__init__], is never modified: a
    fidelity-cost evaluation leaves the whole heap as it is, a
    fidelity-gradient evaluation only adds its result to the heap, and
    after [run], whether it returns or raises, [self.y] still holds the
    array stored by [__init__]. *)
Theorem measurements_read_only
        (A AH : Array -> Array) (ksp : Array) (dcf : list R)
        (lambda_t : R) (max_iter : nat) (step_size : R) (h0 : heap) :
  exists (self : NLCG.Self) (h1 : heap),
    NLCG.__init__ AH ksp dcf lambda_t max_iter step_size h0 = (h1, Ok self) /\
    nth (NLCG.y self) h1 [] = NLCG.weighted ksp dcf /\
    (forall (img : loc) (h : heap),
        fst (NLCG._calculate_fnorm A self img h) = h /\
        fst (NLCG._update_fidelity A AH self img h) =
          h ++ [AH (arr_sub (nth (NLCG.y self) h []) (A (nth img h [])))]) /\
    (forall (n iter : nat) (st : NLCG.RunVars) (h : heap),
        (NLCG.y self < length h)%nat ->
        nth (NLCG.y self) (fst (NLCG.run_loop A AH self (NLCG.x self) n iter st h)) [] =
        nth (NLCG.y self) h []) /\
    nth (NLCG.y self) (fst (NLCG.run A AH self h1)) [] = NLCG.weighted ksp dcf.
Proof.
  set (self := NLCG.mkSelf (length h0) (length (h0 ++ [NLCG.weighted ksp dcf]))
                           step_size max_iter lambda_t).
  set (h1 := (h0 ++ [NLCG.weighted ksp dcf]) ++
             [AH (nth (length h0) (h0 ++ [NLCG.weighted ksp dcf]) [])]).
  exists self, h1. split; [reflexivity|].
  assert (Hy : nth (NLCG.y self) h1 [] = NLCG.weighted ksp dcf).
  { unfold h1, self. cbn [NLCG.y]. rewrite <- app_assoc. apply nth_heap_new. }
  assert (Hx : NLCG.x self <> NLCG.y self).
  { unfold self. cbn [NLCG.x NLCG.y]. rewrite length_app. simpl. lia. }
  split; [exact Hy|]. split; [|split].
  - intros img h. split; reflexivity.
  - intros n iter st h Hl.
    destruct (@frames_run_loop (NLCG.y self) A AH self (NLCG.x self) n iter st Hx h Hl)
      as (_ & N & _).
    exact N.
  - assert (Hl : (NLCG.y self < length h1)%nat).
    { unfold h1, self. cbn [NLCG.y]. rewrite !length_app. simpl. lia. }
    destruct (@frames_run (NLCG.y self) A AH self Hx h1 Hl) as (_ & N & _).
    rewrite N. exact Hy.
Qed.

(** ** One pass of the loop of [TotalVariationRecon_NLCG] *)

Section FuncBody.
Variable Coord : Type.
Variable nufft : Array -> Coord -> Array.
Variable nufft_adjoint : Array -> Coord -> nat * nat * nat -> Array.
Variable kdata : list Array.
Variable kweight : Weights.
Variable kloc : list Coord.
Variable sens_map : Array.
Variable lambda_t : R.

Local Abbreviation fid := (fidelity_update nufft nufft_adjoint kdata kweight kloc sens_map).
Local Abbreviation fcost :=
  (func_candidate_cost nufft nufft_adjoint kdata kweight kloc sens_map lambda_t).
Local Abbreviation body :=
  (nlcg_body nufft nufft_adjoint kdata kweight kloc sens_map lambda_t).

(** What a pass that returns has computed. *)
Lemma nlcg_body_inv (iter : nat) (st st' : FVars) (brk : bool) :
  body iter st = Ok (st', brk) ->
  exists (u : Array) (fn : R) (ttv o : Array),
    fid (f_img st) = Ok (u, fn) /\
    temporal_tv_update (f_img st) = Ok ttv /\
    (if Nat.eqb iter 0 then Some (arr_add u (arr_scale lambda_t ttv))
     else f_update_old st) = Some o /\
    let g := arr_add u (arr_scale lambda_t ttv) in
    let P := conj_direction g (vdot o o) o in
    let fnorm := upd iter fn (f_fnorm st) in
    let tnorm := upd iter (calculate_tnorm (f_img st) lambda_t) (f_tnorm st) in
    let cost := upd iter (nth iter fnorm 0 + nth iter tnorm 0) (f_cost st) in
    let step_size :=
      ls_step_size (search_loop (fcost (f_img st) P) (13 / 10) (8 / 10) 15
                                (mkLs (f_step_size st) (nth iter cost 0) false 0)) in
    (0 < Nat.min (length (f_img st)) (length P))%nat /\
    st' = mkF (arr_add (f_img st) (arr_scale step_size P)) (Some P) step_size
              fnorm tnorm cost (Some iter) /\
    brk = Rltb step_size (1 / 10000).
Proof.
  unfold nlcg_body. intros H.
  destruct (fid (f_img st)) as [[u fn]|e1] eqn:E1; [|discriminate].
  rewrite rbind_ok in H.
  destruct (temporal_tv_update (f_img st)) as [ttv|e2] eqn:E2; [|discriminate].
  rewrite rbind_ok in H.
  destruct (if Nat.eqb iter 0 then Some (arr_add u (arr_scale lambda_t ttv))
            else f_update_old st) as [o|] eqn:E3; [|discriminate].
  cbn [bound] in H. rewrite rbind_ok in H.
  match type of H with
  | rbind (line_search _ _ _ _ _ _ ?i ?p ?s ?c ?l) _ = _ =>
      destruct (line_search nufft nufft_adjoint kdata kweight kloc sens_map i p s c l)
        as [step|e4] eqn:E4; [|discriminate]
  end.
  rewrite rbind_ok in H. apply Ok_inj in H.
  injection H as Hst Hbrk.
  apply line_search_inv in E4. destruct E4 as (Hmin & Hstep).
  exists u, fn, ttv, o. cbv zeta. unfold conj_direction. rewrite <- Hstep.
  split; [reflexivity|]. split; [reflexivity|]. split; [exact E3|].
  split; [exact Hmin|]. split; symmetry; assumption.
Qed.

(** A pass returns when the gradients exist, the previous direction is
    bound and the direction has a frame. *)
Lemma nlcg_body_ok (iter : nat) (st : FVars) (u : Array) (fn : R) (ttv o : Array) :
  fid (f_img st) = Ok (u, fn) ->
  temporal_tv_update (f_img st) = Ok ttv ->
  (if Nat.eqb iter 0 then Some (arr_add u (arr_scale lambda_t ttv))
   else f_update_old st) = Some o ->
  let g := arr_add u (arr_scale lambda_t ttv) in
  let P := conj_direction g (vdot o o) o in
  let fnorm := upd iter fn (f_fnorm st) in
  let tnorm := upd iter (calculate_tnorm (f_img st) lambda_t) (f_tnorm st) in
  let cost := upd iter (nth iter fnorm 0 + nth iter tnorm 0) (f_cost st) in
  let step_size :=
    ls_step_size (search_loop (fcost (f_img st) P) (13 / 10) (8 / 10) 15
                              (mkLs (f_step_size st) (nth iter cost 0) false 0)) in
  (0 < length P)%nat ->
  body iter st =
    Ok (mkF (arr_add (f_img st) (arr_scale step_size P)) (Some P) step_size
            fnorm tnorm cost (Some iter),
        Rltb step_size (1 / 10000)).
Proof.
  intros E1 E2 E3 g P fnorm tnorm cost step_size HP.
  pose proof (fidelity_update_inv _ _ _ _ _ _ _ E1) as (H0 & Hl & Hd).
  unfold nlcg_body. rewrite E1, rbind_ok, E2, rbind_ok, E3.
  cbn [bound]. rewrite rbind_ok.
  destruct (@line_search_eq_min _ nufft nufft_adjoint kdata kweight kloc sens_map
              (f_img st) P (f_step_size st) (nth iter cost 0) lambda_t) as (_ & Hs);
    try lia.
  unfold P, conj_direction, g, cost, fnorm, tnorm in Hs.
  rewrite Hs, rbind_ok. reflexivity.
Qed.
End FuncBody.

(** * Further properties of the code *)

(** ** The temporal gradient needs two frames *)

Lemma diff_short (img : Array) : (length img < 2)%nat -> diff img = [].
Proof. destruct img as [|f0 [|f1 t]]; simpl; intros H; try reflexivity; lia. Qed.

Lemma temporal_tv_update_short (img : Array) :
  (length img < 2)%nat -> temporal_tv_update img = Raise IndexError.
Proof.
  intros H. unfold temporal_tv_update. rewrite (diff_short img H). reflexivity.
Qed.

(** X1.  On an image of fewer than two frames the temporal-TV gradient of
    both solvers raises [IndexError]: the array of differences is empty
    and its entry 0 is read.  The class-based method leaves the heap as it
    is. *)
Theorem temporal_gradient_needs_two_frames (img : Array) :
  (length img < 2)%nat ->
  temporal_tv_update img = Raise IndexError /\
  (forall (h : heap) (l : loc), nth l h [] = img ->
     NLCG._update_temporal_fd l h = (h, Raise IndexError)).
Proof.
  intros H. pose proof (temporal_tv_update_short img H) as E.
  split; [exact E|].
  intros h l Hl. rewrite _update_temporal_fd_eq, Hl, E. reflexivity.
Qed.

Lemma temporal_gradient_needs_two_frames_witness :
  temporal_tv_update [[[(1, 0); (2, 0)]]] = Raise IndexError.
Proof.
  destruct (@temporal_gradient_needs_two_frames [[[(1, 0); (2, 0)]]]) as [H _].
  - simpl. lia.
  - exact H.
Defined.

(** ** The outcome of [fidelity_update] *)

Lemma Cabs_nonneg (z : C) : 0 <= Cabs z.
Proof. unfold Cabs. apply sqrt_pos. Qed.

Lemma index_raise {X : Type} (l : list X) (i : nat) (e : exn) :
  index l i = Raise e -> e = IndexError.
Proof. unfold index. destruct (nth_error l i); intros H; [discriminate | congruence]. Qed.

Section FidelityOutcome.
Variable Coord : Type.
Variable nufft : Array -> Coord -> Array.
Variable nufft_adjoint : Array -> Coord -> nat * nat * nat -> Array.
Variable kdata : list Array.
Variable kweight : Weights.
Variable kloc : list Coord.
Variable sens_map : Array.

Local Abbreviation fid := (fidelity_update nufft nufft_adjoint kdata kweight kloc sens_map).

Lemma fidelity_frames_raise (frames : list nat) (img : Array) (oshape : nat * nat * nat)
      (ut : list Array) (fn : C) (e : exn) :
fidelity_frames nufft nufft_adjoint kdata kweight kloc sens_map
                frames img oshape ut fn = Raise e ->
e = IndexError.
Proof.
revert ut fn. induction frames as [|i frames IH]; intros ut fn H; [discriminate|].
cbn [fidelity_frames] in H.
destruct (index img i) as [v1|e1] eqn:E1; cbn [rbind] in H;
  [|apply index_raise in E1; congruence].
destruct (index kloc i) as [v2|e2] eqn:E2; cbn [rbind] in H;
  [|apply index_raise in E2; congruence].
destruct (index kdata i) as [v3|e3] eqn:E3; cbn [rbind] in H;
  [|apply index_raise in E3; congruence].
eapply IH. exact H.
Qed.

Lemma fidelity_frames_length (frames : list nat) (img : Array) (oshape : nat * nat * nat)
      (ut ut' : list Array) (fn fn' : C) :
fidelity_frames nufft nufft_adjoint kdata kweight kloc sens_map
                frames img oshape ut fn = Ok (ut', fn') ->
length ut' = length ut.
Proof.
revert ut fn. induction frames as [|i frames IH]; intros ut fn H.
- cbn [fidelity_frames] in H. apply Ok_inj in H. congruence.
- cbn [fidelity_frames] in H.
  destruct (index img i) as [v1|e1]; cbn [rbind] in H; [|discriminate].
  destruct (index kloc i) as [v2|e2]; cbn [rbind] in H; [|discriminate].
  destruct (index kdata i) as [v3|e3]; cbn [rbind] in H; [|discriminate].
  apply IH in H. rewrite H, !length_upd. reflexivity.
Qed.

(** What [fidelity_update] returns: as many frames as the image has, and a
  fidelity cost that is not negative. *)
Lemma fidelity_update_result (img u : Array) (fn : R) :
fid img = Ok (u, fn) ->
length u = length img /\ ((0 < size img)%nat -> 0 <= fn).
Proof.
unfold fidelity_update. intros H.
destruct (fidelity_frames _ _ _ _ _ _ _ _ _ _ _) as [[ut f]|] eqn:E;
  cbn [rbind] in H; [|discriminate].
destruct (length img) as [|n] eqn:L; [discriminate|].
apply Ok_inj in H. injection H as Hu Hfn.
apply fidelity_frames_length in E. rewrite repeat_length in E.
split.
- rewrite <- Hu, length_map. exact E.
- intros Hs. rewrite <- Hfn. apply Rmult_le_pos; [apply Cabs_nonneg|].
  left. apply Rinv_0_lt_compat. apply lt_0_INR. exact Hs.
Qed.

Lemma fidelity_update_raise (img : Array) (e : exn) :
fid img = Raise e ->
(length img = 0%nat /\ e = ZeroDivisionError) \/
((0 < length img)%nat /\ e = IndexError /\
 (length kloc < length img \/ length kdata < length img)%nat).
Proof.
intros H.
destruct (Nat.eq_dec (length img) 0) as [L0|L0].
- left. split; [exact L0|].
  unfold fidelity_update in H. rewrite L0 in H. cbn in H. congruence.
- right. split; [lia|].
  assert (He : e = IndexError).
  { unfold fidelity_update in H.
    destruct (fidelity_frames _ _ _ _ _ _ _ _ _ _ _) as [[ut f]|e'] eqn:E;
      cbn [rbind] in H.
    - destruct (length img); [lia | discriminate].
    - apply fidelity_frames_raise in E. congruence. }
  split; [exact He|].
  destruct (le_lt_dec (length img) (length kloc)) as [Hl|Hl]; [|lia].
  destruct (le_lt_dec (length img) (length kdata)) as [Hd|Hd]; [|lia].
  destruct (@fidelity_update_ok _ nufft nufft_adjoint kdata kweight kloc sens_map img)
    as (u & fn & E); try lia.
  rewrite E in H. discriminate.
Qed.

(** X2.  [fidelity_update] returns exactly when the image has a frame and
  the data and the trajectory have an entry for every frame of the
  image.  On an image of no frame it raises [ZeroDivisionError] (the
  cost is the integer 0 divided by the size 0); when the data or the
  trajectory is shorter than the image it raises [IndexError].  What it
  returns is a gradient of as many frames as the image and, for an image
  that has an element, a cost that is not negative. *)
Theorem fidelity_update_outcome (img : Array) :
((exists u fn, fid img = Ok (u, fn)) <->
 (0 < length img /\ length img <= length kloc /\ length img <= length kdata)%nat) /\
(fid img = Raise ZeroDivisionError <-> length img = 0%nat) /\
(fid img = Raise IndexError <->
 (0 < length img /\ (length kloc < length img \/ length kdata < length img))%nat) /\
(forall u fn, fid img = Ok (u, fn) ->
   length u = length img /\ ((0 < size img)%nat -> 0 <= fn)).
Proof.
split; [|split; [|split]].
- split.
  + intros (u & fn & E). eapply fidelity_update_inv. exact E.
  + intros (H0 & Hl & Hd). apply fidelity_update_ok; assumption.
- split.
  + intros H. apply fidelity_update_raise in H.
    destruct H as [[L _]|(_ & He & _)]; [exact L | discriminate].
  + intros L. destruct (fid img) as [[u fn]|e] eqn:E.
    * apply fidelity_update_inv in E. lia.
    * apply fidelity_update_raise in E.
      destruct E as [[_ ->]|(H0 & _)]; [reflexivity | lia].
- split.
  + intros H. apply fidelity_update_raise in H.
    destruct H as [[_ He]|(H0 & _ & Hs)]; [discriminate | split; assumption].
  + intros (H0 & Hs). destruct (fid img) as [[u fn]|e] eqn:E.
    * apply fidelity_update_inv in E. lia.
    * apply fidelity_update_raise in E.
      destruct E as [[L _]|(_ & -> & _)]; [lia | reflexivity].
- intros u fn E. apply fidelity_update_result. exact E.
Qed.
End FidelityOutcome.

(** ** The initial image of [TotalVariationRecon_NLCG] *)

Section InitialImage.
Variable Coord : Type.
Variable nufft : Array -> Coord -> Array.
Variable nufft_adjoint : Array -> Coord -> nat * nat * nat -> Array.
Variable kdata : list Array.
Variable kweight : Weights.
Variable kloc : list Coord.
Variable sens_map : Array.

Local Abbreviation init := (initial_frames nufft_adjoint kdata kweight kloc).

Lemma initial_frames_ok (frames : list nat) (oshape : nat * nat * nat) (img : list Array) :
Forall (fun i => (i < length kloc)%nat /\ (i < length kdata)%nat) frames ->
exists r, init frames oshape img = Ok r /\ length r = length img.
Proof.
intros H. revert img. induction H as [|i frames (Hl & Hd) _ IH]; intros img.
- exists img. split; reflexivity.
- cbn [initial_frames].
  destruct (index_ok kdata Hd) as (v1 & ->). cbn [rbind].
  destruct (index_ok kloc Hl) as (v2 & ->). cbn [rbind].
  destruct (IH (upd i (nufft_adjoint (kweighted v1 kweight) v2 oshape) img))
    as (r & Hr & Hlen).
  exists r. split; [exact Hr|]. rewrite Hlen. apply length_upd.
Qed.

Lemma initial_frames_raise (frames : list nat) (oshape : nat * nat * nat)
      (img : list Array) (e : exn) :
init frames oshape img = Raise e -> e = IndexError.
Proof.
revert img. induction frames as [|i frames IH]; intros img H; [discriminate|].
cbn [initial_frames] in H.
destruct (index kdata i) as [v1|e1] eqn:E1; cbn [rbind] in H;
  [|apply index_raise in E1; congruence].
destruct (index kloc i) as [v2|e2] eqn:E2; cbn [rbind] in H;
  [|apply index_raise in E2; congruence].
eapply IH. exact H.
Qed.

Lemma initial_frames_inv (frames : list nat) (oshape : nat * nat * nat)
      (img r : list Array) :
init frames oshape img = Ok r ->
Forall (fun i => (i < length kloc)%nat) frames.
Proof.
revert img. induction frames as [|i frames IH]; intros img H; [constructor|].
cbn [initial_frames] in H.
destruct (index kdata i) as [v1|e1] eqn:E1; cbn [rbind] in H; [|discriminate].
destruct (index kloc i) as [v2|e2] eqn:E2; cbn [rbind] in H; [|discriminate].
constructor; [|eapply IH; exact H].
unfold index in E2. destruct (nth_error kloc i) eqn:N; [|discriminate].
apply nth_error_Some. congruence.
Qed.

(** X3.  When the trajectory has fewer entries than the data has frames,
  [TotalVariationRecon_NLCG] raises [IndexError] while it builds the
  initial image, whatever the regularisation weight and the number of
  iterations. *)
Theorem solver_short_trajectory (lambda_t : R) (max_iter : nat) :
(length kloc < length kdata)%nat ->
TotalVariationRecon_NLCG nufft nufft_adjoint kdata kweight kloc sens_map
                         lambda_t max_iter = Raise IndexError.
Proof.
intros H. unfold TotalVariationRecon_NLCG, shape3.
match goal with
| |- rbind ?m _ = _ => destruct m as [r|e] eqn:E
end.
- apply initial_frames_inv in E. rewrite Forall_forall in E.
  specialize (E (length kloc)). rewrite in_seq in E. lia.
- apply initial_frames_raise in E. subst e. reflexivity.
Qed.

(** X4.  With [max_iter = 0] the loop of [TotalVariationRecon_NLCG] is not
  entered and the name [iter], which the [return] statement reads, is
  not bound: once the initial image is built, the call raises
  [UnboundLocalError].  The class-based [run] with [max_iter = 0]
  returns [self.x] and three empty traces, and leaves the heap as it
  is. *)
Theorem solver_zero_iterations (lambda_t : R) :
(length kdata <= length kloc)%nat ->
TotalVariationRecon_NLCG nufft nufft_adjoint kdata kweight kloc sens_map
                         lambda_t 0 = Raise UnboundLocalError /\
(forall (A AH : Array -> Array) (self : NLCG.Self) (h : heap),
    NLCG.max_iter self = 0%nat ->
    NLCG.run A AH self h = (h, Ok (NLCG.x self, [], [], []))).
Proof.
intros H. split.
- unfold TotalVariationRecon_NLCG, shape3.
  match goal with
  | |- rbind (initial_frames _ _ _ _ ?fr ?os ?im) _ = _ =>
      destruct (@initial_frames_ok fr os im) as (r & -> & _)
  end.
  + apply Forall_forall. intros i Hi. apply in_seq in Hi. lia.
  + reflexivity.
- intros A AH self h Hm. unfold NLCG.run. rewrite Hm. reflexivity.
Qed.
End InitialImage.

Lemma solver_short_trajectory_witness :
  TotalVariationRecon_NLCG id_nufft id_nufft_adjoint sample_kdata sample_kweight [tt]
                           sample_sens_map 0 3 = Raise IndexError.
Proof.
  apply (@solver_short_trajectory unit id_nufft id_nufft_adjoint sample_kdata
           sample_kweight [tt] sample_sens_map 0 3).
  simpl. lia.
Defined.

Lemma solver_zero_iterations_witness :
  TotalVariationRecon_NLCG id_nufft id_nufft_adjoint sample_kdata sample_kweight
                           sample_kloc sample_sens_map 0 0 = Raise UnboundLocalError.
Proof.
  destruct (@solver_zero_iterations unit id_nufft id_nufft_adjoint sample_kdata
              sample_kweight sample_kloc sample_sens_map 0) as [H _].
  - simpl. lia.
  - exact H.
Defined.

(** ** How far a line search moves the step size *)

Section SearchRange.
Variable cost : R -> R.
Variables a b : R.
Hypothesis Ha : 1 <= a.
Hypothesis Hb0 : 0 < b.
Hypothesis Hb1 : b <= 1.
Variable s0 : R.
Hypothesis Hs0 : 0 < s0.

Lemma pow_b_pos (k : nat) : 0 < s0 * b ^ k.
Proof. apply Rmult_lt_0_compat; [exact Hs0 | apply pow_lt; exact Hb0]. Qed.

Lemma pow_b_decr (k n : nat) : s0 * b ^ (k + n) <= s0 * b ^ k.
Proof.
induction n as [|n IH].
- rewrite Nat.add_0_r. lra.
- replace (k + S n)%nat with (S (k + n)) by lia. cbn [pow].
  pose proof (pow_b_pos (k + n)). nra.
Qed.

(** While no candidate has lowered the cost the step size is at least
  [s0 * b^k] after [k] passes; once one has, it is at least [a] times
  that, which the division by [a] of the last pass gives back. *)
Lemma search_loop_lower (n k : nat) (st : LsVars) :
(if ls_flag st then s0 * b ^ k * a <= ls_step_size st
 else s0 * b ^ k <= ls_step_size st) ->
s0 * b ^ (k + n) <= ls_step_size (search_loop cost a b n st).
Proof.
revert k st; induction n as [|n IH]; intros k st Hinv.
- rewrite Nat.add_0_r. cbn [search_loop].
  pose proof (pow_b_pos k). destruct (ls_flag st); nra.
- replace (k + S n)%nat with (S k + n)%nat by lia.
  pose proof (pow_b_pos k) as Hp.
  assert (Hq : s0 * b ^ S k = b * (s0 * b ^ k)) by (cbn [pow]; ring).
  cbn [search_loop]. cbv zeta.
  destruct (Rgtb (cost (ls_step_size st)) (ls_cost_old st) && negb (ls_flag st)) eqn:E1.
  { apply andb_true_iff in E1 as [_ E1]. apply negb_true_iff in E1.
    apply IH. cbn [ls_flag ls_step_size]. rewrite E1 in *. rewrite Hq. nra. }
  destruct (Rltb (cost (ls_step_size st)) (ls_cost_old st)) eqn:E2.
  { apply IH. cbn [ls_flag ls_step_size]. rewrite Hq.
    set (q := s0 * b ^ k) in *.
    assert (H1 : b * q * a <= q * a).
    { apply Rmult_le_compat_r; [lra | nra]. }
    destruct (ls_flag st).
    + assert (0 <= ls_step_size st * (a - 1)) by (apply Rmult_le_pos; nra). nra.
    + assert (q * a <= ls_step_size st * a) by (apply Rmult_le_compat_r; lra). lra. }
  destruct (Rgtb (cost (ls_step_size st)) (ls_cost_old st) && ls_flag st) eqn:E3.
  { apply andb_true_iff in E3 as [_ E3]. rewrite E3 in Hinv.
    cbn [ls_step_size].
    apply Rle_trans with (s0 * b ^ k).
    + replace (S k + n)%nat with (k + S n)%nat by lia. apply pow_b_decr.
    + apply Rmult_le_reg_r with a; [lra|].
      replace (ls_step_size st / a * a) with (ls_step_size st) by (field; lra).
      exact Hinv. }
  apply IH. cbn [ls_flag ls_step_size]. rewrite Hq.
  set (q := s0 * b ^ k) in *.
  destruct (ls_flag st).
  + assert (b * q * a <= q * a) by (apply Rmult_le_compat_r; [lra | nra]). lra.
  + nra.
Qed.

Lemma search_loop_upper (n k : nat) (st : LsVars) :
0 < ls_step_size st -> ls_step_size st <= s0 * a ^ k ->
ls_step_size (search_loop cost a b n st) <= s0 * a ^ (k + n).
Proof.
revert k st; induction n as [|n IH]; intros k st Hpos Hinv.
- rewrite Nat.add_0_r. exact Hinv.
- replace (k + S n)%nat with (S k + n)%nat by lia.
  assert (Hq : s0 * a ^ S k = a * (s0 * a ^ k)) by (cbn [pow]; ring).
  assert (Hak : s0 * a ^ S k <= s0 * a ^ (S k + n)).
  { clear -Ha Hs0. induction n as [|n IHn].
    - rewrite Nat.add_0_r. lra.
    - replace (S k + S n)%nat with (S (S k + n)) by lia.
      assert (0 < s0 * a ^ (S k + n)).
      { apply Rmult_lt_0_compat; [exact Hs0 | apply pow_lt; lra]. }
      change (a ^ S (S k + n)) with (a * a ^ (S k + n)). nra. }
  cbn [search_loop]. cbv zeta.
  repeat match goal with
         | |- context [if ?c then _ else _] => destruct c
         end.
  + apply IH; cbn [ls_step_size]; [nra | rewrite Hq; nra].
  + apply IH; cbn [ls_step_size]; [nra | rewrite Hq; nra].
  + cbn [ls_step_size]. apply Rle_trans with (s0 * a ^ S k); [|exact Hak].
    rewrite Hq. apply Rmult_le_reg_r with a; [lra|].
    replace (ls_step_size st / a * a) with (ls_step_size st) by (field; lra).
    set (q := s0 * a ^ k) in *.
    assert (0 <= q * (a - 1)) by (apply Rmult_le_pos; lra).
    assert (0 <= a * q * (a - 1)) by (apply Rmult_le_pos; nra).
    lra.
  + apply IH; cbn [ls_step_size]; [exact Hpos | rewrite Hq; nra].
Qed.
End SearchRange.

Lemma search_loop_range (cost : R -> R) (step_size cost_old : R) :
  0 < step_size ->
  let s := ls_step_size (search_loop cost (13 / 10) (8 / 10) 15
                                     (mkLs step_size cost_old false 0)) in
  step_size * (8 / 10) ^ 15 <= s <= step_size * (13 / 10) ^ 15.
Proof.
  intros Hpos s. split.
  - apply (@search_loop_lower cost (13 / 10) (8 / 10) ltac:(lra) ltac:(lra) ltac:(lra)
             step_size Hpos 15 0).
    cbn [ls_flag ls_step_size pow]. lra.
  - apply (@search_loop_upper cost (13 / 10) (8 / 10) ltac:(lra) ltac:(lra) ltac:(lra)
             step_size Hpos 15 0);
      cbn [ls_step_size pow]; lra.
Qed.

(** X5.  One line search changes a step size above zero by a factor
    between [0.8 ^ 15] and [1.3 ^ 15]: a pass shrinks the step by 0.8 at
    most, and the division by 1.3 of the last pass undoes an earlier
    multiplication by 1.3. *)
Theorem line_search_step_range
        (A : Array -> Array) (self : NLCG.Self) (img f_new : loc) (h : heap)
        (Coord : Type) (nufft : Array -> Coord -> Array)
        (nufft_adjoint : Array -> Coord -> nat * nat * nat -> Array)
        (kdata : list Array) (kweight : Weights) (kloc : list Coord) (sens_map : Array)
        (imgv update_term : Array) (lambda_t cost_old step_size : R) :
  (img < length h)%nat -> (f_new < length h)%nat -> (NLCG.y self < length h)%nat ->
  (0 < length imgv)%nat -> (0 < length update_term)%nat ->
  (length imgv <= length kloc)%nat -> (length imgv <= length kdata)%nat ->
  0 < step_size ->
  (exists (s : R) (h' : heap),
      NLCG._line_search A self img f_new cost_old step_size h = (h', Ok s) /\
      step_size * (8 / 10) ^ 15 <= s <= step_size * (13 / 10) ^ 15) /\
  (exists s : R,
      line_search nufft nufft_adjoint kdata kweight kloc sens_map imgv update_term
                  step_size cost_old lambda_t = Ok s /\
      step_size * (8 / 10) ^ 15 <= s <= step_size * (13 / 10) ^ 15).
Proof.
  intros H1 H2 H3 F0 Fu Fl Fd Hpos. split.
  - destruct (@_line_search_eq A self img f_new cost_old step_size h H1 H2 H3)
      as (ext & _ & Hs & _).
    eexists. eexists. split; [exact Hs|].
    apply search_loop_range. exact Hpos.
  - destruct (@line_search_eq Coord nufft nufft_adjoint kdata kweight kloc sens_map
                imgv update_term step_size cost_old lambda_t F0 Fu Fl Fd) as (_ & Hs).
    eexists. split; [exact Hs|].
    apply search_loop_range. exact Hpos.
Qed.

Lemma line_search_step_range_witness :
  (exists (s : R) (h' : heap),
      NLCG._line_search id_operator sample_self 1%nat 2%nat 5 2 sample_heap = (h', Ok s) /\
      2 * (8 / 10) ^ 15 <= s <= 2 * (13 / 10) ^ 15) /\
  (exists s : R,
      line_search id_nufft id_nufft_adjoint sample_kdata sample_kweight sample_kloc
                  sample_sens_map ones_2x1x1 zeros_2x1x1 2 5 0 = Ok s /\
      2 * (8 / 10) ^ 15 <= s <= 2 * (13 / 10) ^ 15).
Proof.
  apply (@line_search_step_range id_operator sample_self 1%nat 2%nat sample_heap
           unit id_nufft id_nufft_adjoint sample_kdata sample_kweight sample_kloc
           sample_sens_map ones_2x1x1 zeros_2x1x1 0 5 2); simpl; try lia; lra.
Defined.

(** ** A pass on the two-pixel inputs *)

Ltac eval_px2 :=
  cbv beta iota zeta delta
      [px2 px2_sens px2_kweight px2_kdata
       class_candidate_cost class_cost func_candidate_cost func_cost
       fidelity_update fidelity_frames index rbind upd coil_images coil_combine
       kweighted frame_zip frame_map arr_zip arr_map zipWith
       arr_add arr_sub arr_scale arr_cmul frame_add frame_sub frame_neg
       vdot Csum Rsum py_sum flatten frame_flatten size calculate_tnorm diff
       Cadd Csub Cmul Cconj Cscale Cneg C0 RtoC Cre Cim
       map fold_right fold_left concat app length seq repeat nth nth_error hd fst snd
       INR Nat.add
       id_operator id_nufft id_nufft_adjoint sample_kloc conj_direction].

Section Px2.
Variables c1 c2 w1 w2 y1 y2 : R.
Local Abbreviation fid2 :=
  (fidelity_update id_nufft id_nufft_adjoint (px2_kdata y1 y2) (px2_kweight w1 w2)
                   sample_kloc (px2_sens c1 c2)).

Lemma Cabs_real (a b : R) : 0 <= a -> b = 0 -> Cabs (a, b) = a.
Proof.
  intros Ha ->. unfold Cabs; simpl.
  replace (a * a + 0 * 0) with (a * a) by ring. apply sqrt_square. exact Ha.
Qed.

Lemma px2_eq (a1 a2 b1 b2 i1 i2 i3 i4 : R) :
  a1 = b1 -> a2 = b2 -> i1 = 0 -> i2 = 0 -> i3 = 0 -> i4 = 0 ->
  [[[(a1, i1); (a2, i2)]]; [[(a1, i3); (a2, i4)]]] = px2 b1 b2.
Proof. intros -> -> -> -> -> ->. reflexivity. Qed.

Lemma fid_px2 (x1 x2 : R) :
  fid2 (px2 x1 x2) =
  Ok (px2 (c1 * w1 * (y1 - c1 * x1)) (c2 * w2 * (y2 - c2 * x2)),
      ((y1 - c1 * x1) ^ 2 + (y2 - c2 * x2) ^ 2) / 2).
Proof.
  eval_px2. f_equal. f_equal.
  - apply px2_eq; ring.
  - rewrite Cabs_real.
    + field.
    + match goal with
      | |- 0 <= ?e =>
          replace e with (2 * ((y1 - c1 * x1) ^ 2 + (y2 - c2 * x2) ^ 2)) by ring
      end.
      pose proof (pow2_ge_0 (y1 - c1 * x1)). pose proof (pow2_ge_0 (y2 - c2 * x2)). lra.
    + ring.
Qed.

Lemma ttv_px2 (x1 x2 : R) : temporal_tv_update (px2 x1 x2) = Ok (px2 0 0).
Proof. apply (@temporal_tv_update_repeat [[(x1, 0); (x2, 0)]] 2). lia. Qed.

Lemma tnorm_px2 (x1 x2 lam : R) : calculate_tnorm (px2 x1 x2) lam = 0.
Proof.
  unfold calculate_tnorm. rewrite py_sum_Rsum.
  change (px2 x1 x2) with (repeat [[(x1, 0); (x2, 0)]] 2) at 1.
  rewrite tv_sum_repeat. unfold Rdiv. ring.
Qed.

Lemma vdot_px2 (a1 a2 b1 b2 : R) :
  vdot (px2 a1 a2) (px2 b1 b2) = (2 * (a1 * b1 + a2 * b2), 0).
Proof. eval_px2. f_equal; ring. Qed.

Lemma add_scale_px2 (a1 a2 b1 b2 s : R) :
  arr_add (px2 a1 a2) (arr_scale s (px2 b1 b2)) = px2 (a1 + s * b1) (a2 + s * b2).
Proof. eval_px2. apply px2_eq; ring. Qed.

Lemma add_cmul_px2 (a1 a2 b1 b2 s : R) :
  arr_add (px2 a1 a2) (arr_cmul (s, 0) (px2 b1 b2)) = px2 (a1 + s * b1) (a2 + s * b2).
Proof. eval_px2. apply px2_eq; ring. Qed.

Lemma Cdiv_real (n d : R) : d <> 0 -> Cdiv (n, 0) (d, 0) = (n / d, 0).
Proof. intros Hd. unfold Cdiv; simpl. f_equal; field; nra. Qed.

Lemma conj_direction_px2 (g1 g2 o1 o2 : R) :
  conj_direction (px2 g1 g2) (vdot (px2 o1 o2) (px2 o1 o2)) (px2 o1 o2) =
  let beta := 2 * (g1 * g1 + g2 * g2) / (2 * (o1 * o1 + o2 * o2) + eps) in
  px2 (g1 + beta * o1) (g2 + beta * o2).
Proof.
  cbv zeta. unfold conj_direction. rewrite !vdot_px2.
  assert (He : 2 * (o1 * o1 + o2 * o2) + eps <> 0).
  { pose proof eps_pos. nra. }
  replace (Cadd (2 * (o1 * o1 + o2 * o2), 0) (RtoC eps))
    with (2 * (o1 * o1 + o2 * o2) + eps, 0)
    by (unfold Cadd, RtoC; simpl; f_equal; ring).
  rewrite Cdiv_real by exact He. apply add_cmul_px2.
Qed.

Lemma cost_px2 (x1 x2 p1 p2 lam s : R) :
  func_candidate_cost id_nufft id_nufft_adjoint (px2_kdata y1 y2) (px2_kweight w1 w2)
                      sample_kloc (px2_sens c1 c2) lam (px2 x1 x2) (px2 p1 p2) s =
  ((y1 - c1 * (x1 + s * p1)) ^ 2 + (y2 - c2 * (x2 + s * p2)) ^ 2) / 2.
Proof.
  unfold func_candidate_cost, func_cost.
  rewrite add_scale_px2, fid_px2, tnorm_px2. ring.
Qed.
End Px2.


Lemma tv_px2 (x1 x2 : R) : Rsum (map Cabs (flatten (diff (px2 x1 x2)))) = 0.
Proof. apply (tv_sum_repeat [[(x1, 0); (x2, 0)]] 2). Qed.

Lemma class_cost_px2 (ya yb x1 x2 p1 p2 lam s : R) :
  class_cost id_operator (px2 ya yb) lam
             (arr_add (px2 x1 x2) (arr_scale s (px2 p1 p2))) =
  ((ya - (x1 + s * p1)) ^ 2 + (yb - (x2 + s * p2)) ^ 2) / 2.
Proof.
  rewrite add_scale_px2. unfold class_cost. rewrite tv_px2.
  eval_px2. field.
Qed.

Lemma px2_heap_cost (s : R) :
  class_candidate_cost id_operator sample_self 1%nat 2%nat px2_heap s = (1 - s) ^ 2.
Proof.
  unfold class_candidate_cost.
  change (nth (NLCG.y sample_self) px2_heap []) with (px2 1 1).
  change (nth 1 px2_heap []) with (px2 0 0).
  change (nth 2 px2_heap []) with (px2 1 1).
  rewrite class_cost_px2. field.
Qed.

Lemma px2_func_cost (s : R) :
  func_candidate_cost id_nufft id_nufft_adjoint (px2_kdata 1 1) (px2_kweight 1 1)
                      sample_kloc (px2_sens 1 1) 0 (px2 0 0) (px2 1 1) s = (1 - s) ^ 2.
Proof. rewrite cost_px2. field. Qed.

(** ** A line search that leaves through its [break] *)

(** A first candidate that lowers the cost and a second one, 1.3 times as
    far, that raises it again: the second pass breaks. *)
Lemma search_breaks_after_growth (cost : R -> R) (a b : R) (n : nat) (st : LsVars) :
  ls_flag st = false ->
  cost (ls_step_size st) < ls_cost_old st ->
  cost (ls_step_size st) < cost (ls_step_size st * a) ->
  search_breaks cost a b (S (S n)) st = true.
Proof.
  intros Hf H1 H2. cbn [search_breaks]. cbv zeta. unfold Rgtb.
  rewrite (@Rltb_false (ls_cost_old st) (cost (ls_step_size st))) by lra.
  rewrite (@Rltb_true (cost (ls_step_size st)) (ls_cost_old st)) by lra.
  cbn [andb ls_step_size ls_cost_old ls_flag negb].
  rewrite andb_false_r.
  rewrite (@Rltb_false (cost (ls_step_size st * a)) (cost (ls_step_size st))) by lra.
  rewrite (@Rltb_true (cost (ls_step_size st)) (cost (ls_step_size st * a))) by lra.
  reflexivity.
Qed.

(** X6.  When a line search leaves its loop through the [break], the
    candidate image at the step size it returns costs strictly less than
    the reference cost passed in: the returned step is the last one that
    lowered the cost.  (A search that uses up its 15 passes returns a step
    size whose candidate it has not evaluated.) *)
Theorem line_search_break_lowers_cost
        (A : Array -> Array) (self : NLCG.Self) (img f_new : loc) (h : heap)
        (Coord : Type) (nufft : Array -> Coord -> Array)
        (nufft_adjoint : Array -> Coord -> nat * nat * nat -> Array)
        (kdata : list Array) (kweight : Weights) (kloc : list Coord) (sens_map : Array)
        (imgv update_term : Array) (lambda_t cost_old step_size : R) :
  (img < length h)%nat -> (f_new < length h)%nat -> (NLCG.y self < length h)%nat ->
  (0 < length imgv)%nat -> (0 < length update_term)%nat ->
  (length imgv <= length kloc)%nat -> (length imgv <= length kdata)%nat ->
  search_breaks (class_candidate_cost A self img f_new h) (13 / 10) (8 / 10) 15
                (mkLs step_size cost_old false 0) = true ->
  search_breaks (func_candidate_cost nufft nufft_adjoint kdata kweight kloc sens_map
                                     lambda_t imgv update_term)
                (13 / 10) (8 / 10) 15 (mkLs step_size cost_old false 0) = true ->
  (exists (s : R) (ext : heap),
      NLCG._line_search A self img f_new cost_old step_size h = (h ++ ext, Ok s) /\
      class_candidate_cost A self img f_new h s < cost_old) /\
  (exists s : R,
      line_search nufft nufft_adjoint kdata kweight kloc sens_map imgv update_term
                  step_size cost_old lambda_t = Ok s /\
      func_candidate_cost nufft nufft_adjoint kdata kweight kloc sens_map
                          lambda_t imgv update_term s < cost_old).
Proof.
  intros H1 H2 H3 F0 Fu Fl Fd Bc Bf. split.
  - destruct (@_line_search_eq A self img f_new cost_old step_size h H1 H2 H3)
      as (ext & _ & Hs & _).
    eexists. exists ext. split; [exact Hs|].
    apply search_loop_bracket; [lra | reflexivity | exact Bc].
  - destruct (@line_search_eq Coord nufft nufft_adjoint kdata kweight kloc sens_map
                imgv update_term step_size cost_old lambda_t F0 Fu Fl Fd) as (_ & Hs).
    eexists. split; [exact Hs|].
    apply search_loop_bracket; [lra | reflexivity | exact Bf].
Qed.

Lemma line_search_break_lowers_cost_witness :
  (exists (s : R) (ext : heap),
      NLCG._line_search id_operator sample_self 1%nat 2%nat 1 1 px2_heap =
        (px2_heap ++ ext, Ok s) /\
      class_candidate_cost id_operator sample_self 1%nat 2%nat px2_heap s < 1) /\
  (exists s : R,
      line_search id_nufft id_nufft_adjoint (px2_kdata 1 1) (px2_kweight 1 1) sample_kloc
                  (px2_sens 1 1) (px2 0 0) (px2 1 1) 1 1 0 = Ok s /\
      func_candidate_cost id_nufft id_nufft_adjoint (px2_kdata 1 1) (px2_kweight 1 1)
                          sample_kloc (px2_sens 1 1) 0 (px2 0 0) (px2 1 1) s < 1).
Proof.
  apply (@line_search_break_lowers_cost id_operator sample_self 1%nat 2%nat px2_heap
           unit id_nufft id_nufft_adjoint (px2_kdata 1 1) (px2_kweight 1 1) sample_kloc
           (px2_sens 1 1) (px2 0 0) (px2 1 1) 0 1 1).
  1-7: simpl; lia.
  - apply (@search_breaks_after_growth _ _ _ 13 _); cbn [ls_flag ls_step_size ls_cost_old];
      rewrite ?px2_heap_cost; [reflexivity | lra | lra].
  - apply (@search_breaks_after_growth _ _ _ 13 _); cbn [ls_flag ls_step_size ls_cost_old];
      rewrite ?px2_func_cost; [reflexivity | lra | lra].
Defined.

(** ** What [run] writes *)

(** X7.  [run], whether it returns or raises, only adds arrays to the heap
    and writes in place to one array that existed before, the image
    [self.x]: every other array is left as it was.  The image it returns
    is [self.x] itself, which it has overwritten. *)
Theorem run_writes_only_the_image
        (A AH : Array -> Array) (self : NLCG.Self) (h : heap) (l : loc) :
  (l < length h)%nat -> l <> NLCG.x self ->
  (length h <= length (fst (NLCG.run A AH self h)))%nat /\
  nth l (fst (NLCG.run A AH self h)) [] = nth l h [] /\
  (forall (img : loc) (fnorm tnorm cost : list R),
      snd (NLCG.run A AH self h) = Ok (img, fnorm, tnorm, cost) -> img = NLCG.x self).
Proof.
  intros Hl Hne.
  destruct (@frames_run l A AH self (not_eq_sym Hne) h Hl) as (L & N & _).
  split; [exact L|]. split; [exact N|].
  intros img fnorm tnorm cost. unfold NLCG.run, bind.
  destruct (NLCG.run_loop A AH self (NLCG.x self) (NLCG.max_iter self) 0 _ h)
    as [h' [st|e]]; cbn [snd ret]; intros H; [|discriminate].
  apply Ok_inj in H. congruence.
Qed.

Lemma run_writes_only_the_image_witness :
  nth 0 (fst (NLCG.run id_operator id_operator sample_self sample_heap)) [] =
  nth 0 sample_heap [].
Proof.
  destruct (@run_writes_only_the_image id_operator id_operator sample_self
              sample_heap 0%nat) as (_ & N & _).
  - simpl. lia.
  - simpl. lia.
  - exact N.
Defined.

(** ** The regulariser of [TotalVariationRecon] *)

Lemma smoothed_abs_bounds (z : C) :
  Cabs z <= sqrt (Cabs z ^ 2 + eps) <= Cabs z + sqrt eps.
Proof.
  pose proof (Cabs_nonneg z) as Ha. pose proof eps_pos as He.
  pose proof (sqrt_pos eps) as Hse.
  split.
  - rewrite <- (sqrt_pow2 (Cabs z)) at 1 by exact Ha.
    apply sqrt_le_1_alt. lra.
  - rewrite <- (sqrt_pow2 (Cabs z + sqrt eps)) by lra.
    apply sqrt_le_1_alt.
    replace ((Cabs z + sqrt eps) ^ 2)
      with (Cabs z ^ 2 + 2 * Cabs z * sqrt eps + sqrt eps * sqrt eps) by ring.
    rewrite sqrt_sqrt by lra. nra.
Qed.

(** X8.  For a weight that is not negative, the regulariser [g] of
    [TotalVariationRecon] lies between the weighted sum of the magnitudes
    of its argument and that sum plus [sqrt eps] per element: the epsilon
    under the square root adds at most [reg_lambda * n * sqrt eps]. *)
Theorem regulariser_smoothing_bounds (reg_lambda : R) (x : list C) :
  0 <= reg_lambda ->
  reg_lambda * Rsum (map Cabs x) <= TotalVariationRecon.g reg_lambda x /\
  TotalVariationRecon.g reg_lambda x <=
    reg_lambda * (Rsum (map Cabs x) + INR (length x) * sqrt eps).
Proof.
  intros Hl. unfold TotalVariationRecon.g.
  assert (H : Rsum (map Cabs x) <= Rsum (map (fun z => sqrt (Cabs z ^ 2 + eps)) x) /\
              Rsum (map (fun z => sqrt (Cabs z ^ 2 + eps)) x) <=
                Rsum (map Cabs x) + INR (length x) * sqrt eps).
  { induction x as [|z x IH].
    - simpl. lra.
    - change (length (z :: x)) with (S (length x)). rewrite S_INR.
      cbn [map Rsum fold_right]. fold (Rsum (map Cabs x)).
      fold (Rsum (map (fun z => sqrt (Cabs z ^ 2 + eps)) x)).
      pose proof (smoothed_abs_bounds z). lra. }
  destruct H as [H1 H2]. split; apply Rmult_le_compat_l; assumption.
Qed.

Lemma regulariser_smoothing_bounds_witness :
  2 * Rsum (map Cabs [(3, 4); (0, 0)]) <= TotalVariationRecon.g 2 [(3, 4); (0, 0)] /\
  TotalVariationRecon.g 2 [(3, 4); (0, 0)] <=
    2 * (Rsum (map Cabs [(3, 4); (0, 0)]) + INR 2 * sqrt eps).
Proof.
  apply (@regulariser_smoothing_bounds 2 [(3, 4); (0, 0)]). lra.
Defined.

(** ** The direction of the first pass *)

Lemma zipWith_map_r {X Y Z : Type} (f : X -> Y -> Z) (g : X -> Y) (l : list X) :
  zipWith f l (map g l) = map (fun x => f x (g x)) l.
Proof. induction l as [|x l IH]; simpl; [reflexivity | f_equal; exact IH]. Qed.

Lemma arr_zip_map_r (f : C -> C -> C) (g : C -> C) (a : Array) :
  arr_zip f a (arr_map g a) = arr_map (fun z => f z (g z)) a.
Proof.
  unfold arr_zip, arr_map. rewrite zipWith_map_r. apply map_ext. intros fr.
  unfold frame_zip, frame_map. rewrite zipWith_map_r. apply map_ext. intros r.
  apply zipWith_map_r.
Qed.

Lemma arr_map_ext (f g : C -> C) (a : Array) :
  (forall z, f z = g z) -> arr_map f a = arr_map g a.
Proof. intros H. unfold arr_map. apply map_ext. intros fr. apply frame_map_ext. exact H. Qed.

Lemma arr_add_cmul_self (b : R) (G : Array) :
  arr_add G (arr_cmul (b, 0) G) = arr_scale (1 + b) G.
Proof.
  unfold arr_add, arr_cmul, arr_scale. rewrite arr_zip_map_r.
  apply arr_map_ext. intros [x y]. unfold Cadd, Cmul, Cscale; simpl. f_equal; ring.
Qed.

(** [xp.vdot(a, a)] is a real number that is not negative. *)
Lemma vdot_self (a : Array) : snd (vdot a a) = 0 /\ 0 <= fst (vdot a a).
Proof.
  unfold vdot. rewrite zipWith_diag.
  induction (flatten a) as [|z l [IH1 IH2]]; simpl.
  - split; lra.
  - rewrite IH1. split; [ring | nra].
Qed.

Lemma vdot_self_real (a : Array) : vdot a a = (Cre (vdot a a), 0).
Proof.
  destruct (vdot_self a) as [H _]. unfold Cre.
  destruct (vdot a a) as [x y]; simpl in *. subst y. reflexivity.
Qed.

Lemma beta_first_range (G : Array) : 0 <= beta_first G < 1.
Proof.
  unfold beta_first, Cre. destruct (vdot_self G) as [_ H]. pose proof eps_pos as He.
  set (t := fst (vdot G G)) in *.
  split.
  - apply Rmult_le_pos; [exact H|]. left. apply Rinv_0_lt_compat. lra.
  - apply Rmult_lt_reg_r with (t + eps); [lra|].
    unfold Rdiv. rewrite Rmult_assoc, Rinv_l by lra. lra.
Qed.

(** With [f_old] and [f2_old] taken from the pass itself, the direction
    is the combined gradient times [1 + beta_first G]. *)
Lemma conj_direction_first (G : Array) :
  conj_direction G (vdot G G) G = arr_scale (1 + beta_first G) G.
Proof.
  unfold conj_direction. rewrite (vdot_self_real G).
  destruct (vdot_self G) as [_ H]. pose proof eps_pos as He.
  replace (Cadd (Cre (vdot G G), 0) (RtoC eps)) with (Cre (vdot G G) + eps, 0)
    by (unfold Cadd, RtoC; simpl; f_equal; ring).
  rewrite Cdiv_real by (unfold Cre; lra).
  apply arr_add_cmul_self.
Qed.

Lemma if_pair {X : Type} (c : bool) (a b : X) :
  (if c then (a, true) else (b, false)) = ((if c then a else b), c).
Proof. destruct c; reflexivity. Qed.

(** X9.  In the first pass of [run] the name [f_old] is bound to the array
    [f_new] itself, so [util.axpy(f_new, beta, f_old)] adds [beta] times
    the combined gradient [G] to [G]: the direction is
    [(1 + beta_first G) * G], with [0 <= beta_first G < 1], and the image
    moves by the accepted step times that array. *)
Theorem first_pass_direction_class
        (A AH : Array -> Array) (self : NLCG.Self) (img : loc)
        (st : NLCG.RunVars) (h : heap) (T : Array) :
  (NLCG.y self < length h)%nat -> (img < length h)%nat -> NLCG.y self <> img ->
  temporal_tv_update (nth img h []) = Ok T ->
  has_unit_axis T = false ->
  let X := nth img h [] in
  let G := class_gradient A AH (nth (NLCG.y self) h []) (NLCG.lambda_t self) X T in
  let P := arr_scale (1 + beta_first G) G in
  0 <= beta_first G < 1 /\
  exists (step : R) (ext : heap) (st' : NLCG.RunVars),
    NLCG.run_body A AH self img 0 st h =
      (upd img (arr_add X (arr_scale step P)) (h ++ [P; T] ++ ext),
       Ok (st', Rltb step (2 / 1000))) /\
    NLCG.r_step_size st' = step /\
    NLCG.r_f_old st' = Some (length h).
Proof.
  intros Hy Himg Hne HT Hsq X G P.
  split; [apply beta_first_range|].
  destruct (@run_body_ok A AH self img 0%nat st h Hy Himg Hne T HT Hsq (vdot G G) G)
    as (ext & Hrun & _).
  { left. repeat split. }
  fold X in Hrun. fold G in Hrun.
  rewrite (conj_direction_first G) in Hrun. fold P in Hrun.
  rewrite if_pair in Hrun.
  eexists. exists ext. eexists. split; [exact Hrun|].
  split; match goal with
         | |- context [if ?c then _ else _] => destruct c; reflexivity
         end.
Qed.

Lemma first_pass_direction_class_witness :
  exists (step : R) (ext : heap) (st' : NLCG.RunVars),
    let G := class_gradient id_operator id_operator ones_2x2x2 0 zeros_2x2x2 zeros_2x2x2 in
    let P := arr_scale (1 + beta_first G) G in
    NLCG.run_body id_operator id_operator sample_self 1%nat 0
                  (NLCG.mkRun 2 None None [] [] []) heap_2x2x2 =
      (upd 1 (arr_add zeros_2x2x2 (arr_scale step P)) (heap_2x2x2 ++ [P; zeros_2x2x2] ++ ext),
       Ok (st', Rltb step (2 / 1000))).
Proof.
  destruct (@first_pass_direction_class id_operator id_operator sample_self 1%nat
              (NLCG.mkRun 2 None None [] [] []) heap_2x2x2 zeros_2x2x2)
    as (_ & step & ext & st' & H & _).
  - simpl. lia.
  - simpl. lia.
  - simpl. lia.
  - apply (@temporal_tv_update_repeat [[(0, 0); (0, 0)]; [(0, 0); (0, 0)]] 2). lia.
  - reflexivity.
  - exists step, ext, st'. exact H.
Defined.

Lemma temporal_tv_update_length (img ttv : Array) :
  temporal_tv_update img = Ok ttv -> length ttv = length img /\ (2 <= length img)%nat.
Proof.
  intros H. destruct (le_lt_dec 2 (length img)) as [H2|H2].
  - rewrite temporal_tv_update_ok in H by exact H2. apply Ok_inj in H. subst ttv.
    rewrite length_upd, length_assign_from, length_upd.
    split; [apply length_arr_map | exact H2].
  - rewrite (temporal_tv_update_short img H2) in H. discriminate.
Qed.

Lemma length_arr_scale (r : R) (a : Array) : length (arr_scale r a) = length a.
Proof. apply length_arr_map. Qed.

Lemma length_conj_direction (G : Array) (f2 : C) (o : Array) :
  length (conj_direction G f2 o) = Nat.min (length G) (length o).
Proof.
  unfold conj_direction, arr_add. rewrite length_arr_zip.
  unfold arr_cmul. rewrite length_arr_map. reflexivity.
Qed.

Section FuncPass.
Variable Coord : Type.
Variable nufft : Array -> Coord -> Array.
Variable nufft_adjoint : Array -> Coord -> nat * nat * nat -> Array.
Variable kdata : list Array.
Variable kweight : Weights.
Variable kloc : list Coord.
Variable sens_map : Array.
Variable lambda_t : R.

Local Abbreviation fid := (fidelity_update nufft nufft_adjoint kdata kweight kloc sens_map).
Local Abbreviation body :=
  (nlcg_body nufft nufft_adjoint kdata kweight kloc sens_map lambda_t).

(** The combined gradient of an image of at least two frames, for which
  the data and the trajectory have their entries. *)
Lemma combined_gradient_ok (img : Array) :
(2 <= length img)%nat -> (length img <= length kloc)%nat ->
(length img <= length kdata)%nat ->
exists (u : Array) (fn : R) (ttv : Array),
  fid img = Ok (u, fn) /\ temporal_tv_update img = Ok ttv /\
  length (arr_add u (arr_scale lambda_t ttv)) = length img.
Proof.
intros H2 Hl Hd.
destruct (@fidelity_update_ok _ nufft nufft_adjoint kdata kweight kloc sens_map img)
  as (u & fn & E1); try lia.
destruct (fidelity_update_result _ _ _ _ _ _ _ E1) as [Lu _].
pose proof (temporal_tv_update_ok img H2) as E2.
destruct (temporal_tv_update_length _ E2) as [Lt _].
exists u, fn. eexists. split; [exact E1|]. split; [exact E2|].
unfold arr_add. rewrite length_arr_zip, length_arr_scale, Lu, Lt. lia.
Qed.

Local Abbreviation fcost :=
  (func_candidate_cost nufft nufft_adjoint kdata kweight kloc sens_map lambda_t).

(** The first pass, with its direction written as a multiple of the
  combined gradient. *)
Lemma nlcg_body_first (st : FVars) (u : Array) (fn : R) (ttv : Array) :
fid (f_img st) = Ok (u, fn) ->
temporal_tv_update (f_img st) = Ok ttv ->
(0 < length (arr_add u (arr_scale lambda_t ttv)))%nat ->
let G := arr_add u (arr_scale lambda_t ttv) in
let P := arr_scale (1 + beta_first G) G in
let fnorm := upd 0 fn (f_fnorm st) in
let tnorm := upd 0 (calculate_tnorm (f_img st) lambda_t) (f_tnorm st) in
let cost := upd 0 (nth 0 fnorm 0 + nth 0 tnorm 0) (f_cost st) in
let step_size :=
  ls_step_size (search_loop (fcost (f_img st) P) (13 / 10) (8 / 10) 15
                            (mkLs (f_step_size st) (nth 0 cost 0) false 0)) in
body 0%nat st =
  Ok (mkF (arr_add (f_img st) (arr_scale step_size P)) (Some P) step_size
          fnorm tnorm cost (Some 0%nat),
      Rltb step_size (1 / 10000)).
Proof.
intros E1 E2 LG. cbv zeta.
rewrite <- (conj_direction_first (arr_add u (arr_scale lambda_t ttv))).
apply (@nlcg_body_ok _ nufft nufft_adjoint kdata kweight kloc sens_map lambda_t
         0%nat st u fn ttv (arr_add u (arr_scale lambda_t ttv)) E1 E2 eq_refl).
rewrite conj_direction_first, length_arr_scale. exact LG.
Qed.

Lemma pass_pack (r : result (FVars * bool)) (X : Array) (P : Array) (step : R)
    (fn tn c : list R) (it : nat) (t : R) :
r = Ok (mkF X (Some P) step fn tn c (Some it), Rltb step t) ->
exists st' : FVars,
  r = Ok (st', Rltb (f_step_size st') t) /\
  f_img st' = X /\ f_update_old st' = Some P /\ f_step_size st' = step /\
  f_fnorm st' = fn /\ f_tnorm st' = tn /\ f_cost st' = c /\ f_iter st' = Some it.
Proof.
intros ->. exists (mkF X (Some P) step fn tn c (Some it)).
split; [reflexivity|]. repeat split.
Qed.

(** X10.  In the first pass of [TotalVariationRecon_NLCG] the name
  [update_old] is bound to the combined gradient [G] of the pass, so
  [beta] is [beta_first G], a number in [0, 1), and the direction
  [update_term + beta * update_old] is [(1 + beta_first G) * G]: the
  image moves by the accepted step times that array, which is also what
  the pass leaves in [update_old]. *)
Theorem first_pass_direction_function (st : FVars) :
(2 <= length (f_img st))%nat ->
(length (f_img st) <= length kloc)%nat ->
(length (f_img st) <= length kdata)%nat ->
exists (u : Array) (fn : R) (ttv : Array) (st' : FVars),
  fid (f_img st) = Ok (u, fn) /\
  temporal_tv_update (f_img st) = Ok ttv /\
  let G := arr_add u (arr_scale lambda_t ttv) in
  let P := arr_scale (1 + beta_first G) G in
  0 <= beta_first G < 1 /\
  body 0%nat st = Ok (st', Rltb (f_step_size st') (1 / 10000)) /\
  f_img st' = arr_add (f_img st) (arr_scale (f_step_size st') P) /\
  f_update_old st' = Some P.
Proof.
intros H2 Hl Hd.
destruct (@combined_gradient_ok (f_img st) H2 Hl Hd) as (u & fn & ttv & E1 & E2 & LG).
assert (L0 : (0 < length (arr_add u (arr_scale lambda_t ttv)))%nat) by lia.
pose proof (nlcg_body_first st E1 E2 L0) as Hb. cbv zeta in Hb.
apply pass_pack in Hb. destruct Hb as (st' & Hb & Hi & Ho & Hs & _).
exists u, fn, ttv, st'. split; [exact E1|]. split; [exact E2|].
intros G P. split; [apply beta_first_range|].
split; [exact Hb|]. split; [rewrite Hs; exact Hi | exact Ho].
Qed.
End FuncPass.

Lemma first_pass_direction_function_witness :
  exists (u : Array) (fn : R) (ttv : Array) (st' : FVars),
    fidelity_update id_nufft id_nufft_adjoint (px2_kdata 1 1) (px2_kweight 1 1)
                    sample_kloc (px2_sens 1 1) (px2 0 0) = Ok (u, fn) /\
    temporal_tv_update (px2 0 0) = Ok ttv /\
    let G := arr_add u (arr_scale 0 ttv) in
    nlcg_body id_nufft id_nufft_adjoint (px2_kdata 1 1) (px2_kweight 1 1)
              sample_kloc (px2_sens 1 1) 0 0
              (mkF (px2 0 0) None 2 [0; 0] [0; 0] [0; 0] None) =
      Ok (st', Rltb (f_step_size st') (1 / 10000)) /\
    f_update_old st' = Some (arr_scale (1 + beta_first G) G).
Proof.
  destruct (@first_pass_direction_function unit id_nufft id_nufft_adjoint
              (px2_kdata 1 1) (px2_kweight 1 1) sample_kloc (px2_sens 1 1) 0
              (mkF (px2 0 0) None 2 [0; 0] [0; 0] [0; 0] None))
    as (u & fn & ttv & st' & E1 & E2 & _ & Hb & _ & Ho).
  - simpl. lia.
  - simpl. lia.
  - simpl. lia.
  - exists u, fn, ttv, st'. repeat split; assumption.
Defined.

(** ** When a pass ends the loop, and what it records *)

Lemma mkF_fields (st' : FVars) (X : Array) (o : option Array) (s : R)
      (fn tn c : list R) (it : option nat) :
  st' = mkF X o s fn tn c it ->
  f_img st' = X /\ f_update_old st' = o /\ f_step_size st' = s /\
  f_fnorm st' = fn /\ f_tnorm st' = tn /\ f_cost st' = c /\ f_iter st' = it.
Proof. intros ->. repeat split. Qed.

Section FuncRecords.
Variable Coord : Type.
Variable nufft : Array -> Coord -> Array.
Variable nufft_adjoint : Array -> Coord -> nat * nat * nat -> Array.
Variable kdata : list Array.
Variable kweight : Weights.
Variable kloc : list Coord.
Variable sens_map : Array.
Variable lambda_t : R.

Local Abbreviation fid := (fidelity_update nufft nufft_adjoint kdata kweight kloc sens_map).
Local Abbreviation body :=
  (nlcg_body nufft nufft_adjoint kdata kweight kloc sens_map lambda_t).

(** X11.  A pass of the loop of [TotalVariationRecon_NLCG] that returns
  ends the loop exactly when the step size it accepted is below 1e-4.
  Whether or not it does, the pass has bound [iter] and has written the
  fidelity cost, the temporal cost and their sum at index [iter] of the
  three trace arrays, whose lengths and other entries it leaves alone:
  the entry of the pass that ends the loop is kept. *)
Theorem function_pass_keeps_entry (iter : nat) (st st' : FVars) (brk : bool) :
body iter st = Ok (st', brk) ->
(brk = true <-> f_step_size st' < 1 / 10000) /\
f_iter st' = Some iter /\
(exists (u : Array) (fn : R),
    fid (f_img st) = Ok (u, fn) /\
    f_fnorm st' = upd iter fn (f_fnorm st) /\
    f_tnorm st' = upd iter (calculate_tnorm (f_img st) lambda_t) (f_tnorm st) /\
    f_cost st' = upd iter (nth iter (f_fnorm st') 0 + nth iter (f_tnorm st') 0)
                     (f_cost st)) /\
((iter < length (f_cost st))%nat ->
 nth iter (f_cost st') 0 = nth iter (f_fnorm st') 0 + nth iter (f_tnorm st') 0) /\
length (f_fnorm st') = length (f_fnorm st) /\
length (f_tnorm st') = length (f_tnorm st) /\
length (f_cost st') = length (f_cost st).
Proof.
intros H. apply nlcg_body_inv in H.
destruct H as (u & fn & ttv & o & E1 & _ & _ & H). cbv zeta in H.
destruct H as (_ & Hst & Hbrk).
apply mkF_fields in Hst. destruct Hst as (_ & _ & Hs & Hfn & Htn & Hc & Hit).
rewrite <- Hs in Hbrk. rewrite <- Hfn, <- Htn in Hc.
split; [rewrite Hbrk; apply Rltb_spec|].
split; [exact Hit|].
split; [exists u, fn; repeat split; assumption|].
split; [intros Hi; rewrite Hc at 1; apply nth_upd_eq; exact Hi|].
rewrite Hfn, Htn, Hc, !length_upd. repeat split.
Qed.
End FuncRecords.

Lemma post_ret {T : Type} (v : T) (Q : T -> Prop) : Q v -> post (ret v) Q.
Proof. intros HQ h h' w H. unfold ret in H. injection H as _ H. subst w. exact HQ. Qed.

Lemma post_bind {T U : Type} (m : M T) (k : T -> M U) (Q : U -> Prop) :
  (forall v, post (k v) Q) -> post (bind m k) Q.
Proof.
  intros H h h' w E. unfold bind in E.
  destruct (m h) as [h1 [v|e]]; [eapply H; exact E | discriminate].
Qed.

(** What a pass of the loop of [run] returns. *)
Lemma run_body_post (A AH : Array -> Array) (self : NLCG.Self) (img : loc)
      (iter : nat) (st : NLCG.RunVars) :
  post (NLCG.run_body A AH self img iter st)
       (fun r =>
          (snd r = true <-> NLCG.r_step_size (fst r) < 2 / 1000) /\
          (snd r = true ->
           NLCG.r_fnorm (fst r) = NLCG.r_fnorm st /\
           NLCG.r_tnorm (fst r) = NLCG.r_tnorm st /\
           NLCG.r_cost (fst r) = NLCG.r_cost st) /\
          (snd r = false ->
           exists f t : R,
             NLCG.r_fnorm (fst r) = NLCG.r_fnorm st ++ [f] /\
             NLCG.r_tnorm (fst r) = NLCG.r_tnorm st ++ [t] /\
             NLCG.r_cost (fst r) = NLCG.r_cost st ++ [f + t])).
Proof.
  unfold NLCG.run_body.
  do 12 (apply post_bind; intros ?).
  match goal with
  | |- post (if Rltb ?s _ then _ else _) _ => destruct (Rltb s (2 / 1000)) eqn:E
  end; apply post_ret; cbn [fst snd NLCG.r_step_size NLCG.r_fnorm NLCG.r_tnorm NLCG.r_cost].
  - apply Rltb_spec in E. repeat split; try discriminate; auto.
  - split; [split; [discriminate|]|split; [discriminate|]].
    + intros Hlt. apply Rltb_spec in Hlt. congruence.
    + intros _. eexists. eexists. repeat split.
Qed.

(** X12.  A pass of the loop of [run] that returns ends the loop exactly
    when the step size it accepted is below 2e-3; when it does, the three
    traces are left as they were (the entry of that pass is dropped), and
    when it does not, each trace has grown by one entry, the total cost
    being the sum of the other two. *)
Theorem class_pass_drops_entry
        (A AH : Array -> Array) (self : NLCG.Self) (img : loc) (iter : nat)
        (st st' : NLCG.RunVars) (brk : bool) (h h' : heap) :
  NLCG.run_body A AH self img iter st h = (h', Ok (st', brk)) ->
  (brk = true <-> NLCG.r_step_size st' < 2 / 1000) /\
  (brk = true ->
   NLCG.r_fnorm st' = NLCG.r_fnorm st /\
   NLCG.r_tnorm st' = NLCG.r_tnorm st /\
   NLCG.r_cost st' = NLCG.r_cost st) /\
  (brk = false ->
   exists f t : R,
     NLCG.r_fnorm st' = NLCG.r_fnorm st ++ [f] /\
     NLCG.r_tnorm st' = NLCG.r_tnorm st ++ [t] /\
     NLCG.r_cost st' = NLCG.r_cost st ++ [f + t]).
Proof.
  intros H.
  pose proof (@run_body_post A AH self img iter st h h' (st', brk) H) as Hp.
  cbn [fst snd] in Hp. exact Hp.
Qed.

(** A first pass of each solver on sample inputs. *)
Lemma sample_function_pass :
  exists (st' : FVars) (brk : bool),
    nlcg_body id_nufft id_nufft_adjoint (px2_kdata 1 1) (px2_kweight 1 1)
              sample_kloc (px2_sens 1 1) 0 0
              (mkF (px2 0 0) None 2 [0; 0] [0; 0] [0; 0] None) = Ok (st', brk).
Proof.
  destruct (@combined_gradient_ok unit id_nufft id_nufft_adjoint (px2_kdata 1 1)
              (px2_kweight 1 1) sample_kloc (px2_sens 1 1) 0 (px2 0 0))
    as (u & fn & ttv & E1 & E2 & LG); try (simpl; lia).
  assert (L0 : (0 < length (arr_add u (arr_scale 0 ttv)))%nat)
    by (rewrite LG; simpl; lia).
  pose proof (@nlcg_body_first unit id_nufft id_nufft_adjoint (px2_kdata 1 1)
                (px2_kweight 1 1) sample_kloc (px2_sens 1 1) 0
                (mkF (px2 0 0) None 2 [0; 0] [0; 0] [0; 0] None) u fn ttv E1 E2 L0) as Hb.
  cbv zeta in Hb. eexists. eexists. exact Hb.
Qed.

Lemma sample_class_pass :
  exists (h' : heap) (st' : NLCG.RunVars) (brk : bool),
    NLCG.run_body id_operator id_operator sample_self 1%nat 0
                  (NLCG.mkRun 2 None None [] [] []) heap_2x2x2 = (h', Ok (st', brk)).
Proof.
  destruct (@run_body_ok id_operator id_operator sample_self 1%nat 0%nat
              (NLCG.mkRun 2 None None [] [] []) heap_2x2x2)
    with (T := zeros_2x2x2)
         (f2_old := vdot (class_gradient id_operator id_operator ones_2x2x2 0
                                         zeros_2x2x2 zeros_2x2x2)
                         (class_gradient id_operator id_operator ones_2x2x2 0
                                         zeros_2x2x2 zeros_2x2x2))
         (P_old := class_gradient id_operator id_operator ones_2x2x2 0
                                  zeros_2x2x2 zeros_2x2x2)
    as (ext & Hrun & _).
  - simpl. lia.
  - simpl. lia.
  - simpl. lia.
  - apply (@temporal_tv_update_repeat [[(0, 0); (0, 0)]; [(0, 0); (0, 0)]] 2). lia.
  - reflexivity.
  - left. repeat split.
  - rewrite if_pair in Hrun. eexists. eexists. eexists. exact Hrun.
Qed.

Lemma function_pass_keeps_entry_witness :
  exists (st' : FVars) (brk : bool),
    nlcg_body id_nufft id_nufft_adjoint (px2_kdata 1 1) (px2_kweight 1 1)
              sample_kloc (px2_sens 1 1) 0 0
              (mkF (px2 0 0) None 2 [0; 0] [0; 0] [0; 0] None) = Ok (st', brk) /\
    (brk = true <-> f_step_size st' < 1 / 10000) /\
    f_iter st' = Some 0%nat /\
    nth 0 (f_cost st') 0 = nth 0 (f_fnorm st') 0 + nth 0 (f_tnorm st') 0.
Proof.
  destruct sample_function_pass as (st' & brk & H).
  exists st', brk. split; [exact H|].
  destruct (@function_pass_keeps_entry unit id_nufft id_nufft_adjoint (px2_kdata 1 1)
              (px2_kweight 1 1) sample_kloc (px2_sens 1 1) 0 0%nat _ st' brk H)
    as (Hb & Hi & _ & Hc & _).
  split; [exact Hb|]. split; [exact Hi|]. apply Hc. simpl. lia.
Defined.

Lemma class_pass_drops_entry_witness :
  exists (h' : heap) (st' : NLCG.RunVars) (brk : bool),
    NLCG.run_body id_operator id_operator sample_self 1%nat 0
                  (NLCG.mkRun 2 None None [] [] []) heap_2x2x2 = (h', Ok (st', brk)) /\
    (brk = true <-> NLCG.r_step_size st' < 2 / 1000) /\
    (brk = true -> NLCG.r_cost st' = []).
Proof.
  destruct sample_class_pass as (h' & st' & brk & H).
  exists h', st', brk. split; [exact H|].
  destruct (@class_pass_drops_entry id_operator id_operator sample_self 1%nat 0%nat
              _ st' brk heap_2x2x2 h' H) as (Hb & Ht & _).
  split; [exact Hb|]. intros E. apply Ht in E. destruct E as (_ & _ & E). exact E.
Defined.

(** ** The loop of [TotalVariationRecon_NLCG] *)

Section FuncLoop.
Variable Coord : Type.
Variable nufft : Array -> Coord -> Array.
Variable nufft_adjoint : Array -> Coord -> nat * nat * nat -> Array.
Variable kdata : list Array.
Variable kweight : Weights.
Variable kloc : list Coord.
Variable sens_map : Array.
Variable lambda_t : R.

Local Abbreviation fid := (fidelity_update nufft nufft_adjoint kdata kweight kloc sens_map).
Local Abbreviation body :=
  (nlcg_body nufft nufft_adjoint kdata kweight kloc sens_map lambda_t).
Local Abbreviation loop :=
  (nlcg_loop nufft nufft_adjoint kdata kweight kloc sens_map lambda_t).

(** The number of frames and of trace entries that the loop keeps. *)
Variables nf m : nat.
Hypothesis Hnf : (2 <= nf)%nat.
Hypothesis Hkloc : (nf <= length kloc)%nat.
Hypothesis Hkdata : (nf <= length kdata)%nat.

(** What holds of the local variables when pass [iter] starts. *)
Let Inv (iter : nat) (st : FVars) : Prop :=
length (f_img st) = nf /\
(iter = 0%nat \/ exists o, f_update_old st = Some o /\ length o = nf) /\
length (f_fnorm st) = m /\ length (f_tnorm st) = m /\ length (f_cost st) = m.

Lemma nlcg_body_step (iter : nat) (st : FVars) :
Inv iter st ->
exists (st' : FVars) (brk : bool),
  body iter st = Ok (st', brk) /\ Inv (S iter) st' /\ f_iter st' = Some iter.
Proof.
intros (Li & Ho & Lf & Lt & Lc).
destruct (@combined_gradient_ok _ nufft nufft_adjoint kdata kweight kloc sens_map
            lambda_t (f_img st)) as (u & fn & ttv & E1 & E2 & LG); try lia.
rewrite Li in LG. set (G := arr_add u (arr_scale lambda_t ttv)) in *.
assert (Eo : exists o, (if Nat.eqb iter 0 then Some G else f_update_old st) = Some o /\
                       length o = nf).
{ destruct (Nat.eqb iter 0) eqn:E0.
  - exists G. split; [reflexivity | exact LG].
  - destruct Ho as [->|(o & Eo & Lo)]; [discriminate|].
    exists o. split; assumption. }
destruct Eo as (o & E3 & Lo).
assert (LP : (0 < length (conj_direction G (vdot o o) o))%nat)
  by (rewrite length_conj_direction; lia).
pose proof (@nlcg_body_ok _ nufft nufft_adjoint kdata kweight kloc sens_map lambda_t
              iter st u fn ttv o E1 E2 E3) as Hb.
cbv zeta in Hb. specialize (Hb LP).
apply pass_pack in Hb.
destruct Hb as (st' & Hb & Hi & Hu & _ & Hfn & Htn & Hc & Hit).
exists st'. eexists. split; [exact Hb|]. split; [|exact Hit].
unfold Inv. rewrite Hi, Hu, Hfn, Htn, Hc, !length_upd, length_candidate.
rewrite length_conj_direction. fold G. rewrite Li, LG, Lo.
split; [lia|]. split; [|repeat split; assumption].
right. eexists. split; [reflexivity|].
rewrite length_conj_direction. fold G. rewrite LG, Lo. lia.
Qed.

Lemma nlcg_loop_unfold (n iter : nat) (st st' : FVars) (brk : bool) :
body iter st = Ok (st', brk) ->
loop (S n) iter st = if brk then Ok st' else loop n (S iter) st'.
Proof. intros H. cbn [nlcg_loop]. rewrite H. reflexivity. Qed.

Lemma nlcg_loop_returns (n iter : nat) (st : FVars) :
Inv iter st ->
exists st' : FVars,
  loop (S n) iter st = Ok st' /\
  length (f_img st') = nf /\
  length (f_fnorm st') = m /\ length (f_tnorm st') = m /\ length (f_cost st') = m /\
  exists k, f_iter st' = Some k /\ (iter <= k <= iter + n)%nat.
Proof.
revert iter st; induction n as [|n IH]; intros iter st HI.
- destruct (nlcg_body_step HI) as (st' & brk & Hb & (Li & _ & Lf & Lt & Lc) & Hit).
  exists st'. rewrite (@nlcg_loop_unfold 0 _ _ _ _ Hb).
  split; [destruct brk; reflexivity|].
  repeat (split; [assumption|]). exists iter. split; [exact Hit | lia].
- destruct (nlcg_body_step HI) as (st' & brk & Hb & HI' & Hit).
  rewrite (@nlcg_loop_unfold (S n) _ _ _ _ Hb). destruct brk.
  + destruct HI' as (Li & _ & Lf & Lt & Lc). exists st'.
    split; [reflexivity|]. repeat (split; [assumption|]).
    exists iter. split; [exact Hit | lia].
  + destruct (IH (S iter) st' HI') as (st'' & Hl & Li & Lf & Lt & Lc & k & Hk & Hr).
    exists st''. split; [exact Hl|]. repeat (split; [assumption|]).
    exists k. split; [exact Hk | lia].
Qed.
End FuncLoop.

Section FuncSolver.
Variable Coord : Type.
Variable nufft : Array -> Coord -> Array.
Variable nufft_adjoint : Array -> Coord -> nat * nat * nat -> Array.
Variable kdata : list Array.
Variable kweight : Weights.
Variable kloc : list Coord.
Variable sens_map : Array.
Variable lambda_t : R.

(** X13.  For data of at least two frames, a trajectory with an entry for
  every frame and [max_iter >= 1], [TotalVariationRecon_NLCG] returns:
  no index, zero-division or unbound-name error is raised.  The image it
  returns has as many frames as the data, and the three traces it
  returns have the same length, between 1 and [max_iter]. *)
Theorem solver_returns (max_iter : nat) :
(2 <= length kdata)%nat -> (length kdata <= length kloc)%nat -> (1 <= max_iter)%nat ->
exists (img : Array) (fnorm tnorm cost : list R),
  TotalVariationRecon_NLCG nufft nufft_adjoint kdata kweight kloc sens_map
                           lambda_t max_iter = Ok (img, fnorm, tnorm, cost) /\
  length img = length kdata /\
  length fnorm = length cost /\ length tnorm = length cost /\
  (1 <= length cost <= max_iter)%nat.
Proof.
intros H2 Hl Hm. unfold TotalVariationRecon_NLCG, shape3.
match goal with
| |- context [rbind (initial_frames _ _ _ _ ?fr ?os ?im) _] =>
    destruct (@initial_frames_ok _ nufft_adjoint kdata kweight kloc fr os im)
      as (r & -> & Lr)
end.
{ apply Forall_forall. intros i Hi. apply in_seq in Hi. lia. }
rewrite repeat_length in Lr. rewrite rbind_ok.
destruct max_iter as [|n]; [lia|].
match goal with
| |- context [nlcg_loop _ _ _ _ _ _ _ _ _ ?st0] =>
    destruct (@nlcg_loop_returns _ nufft nufft_adjoint kdata kweight kloc sens_map
                lambda_t (length kdata) (S n) H2 Hl (le_n _) n 0%nat st0)
      as (st' & -> & Li & Lf & Lt & Lc & k & Hk & Hr)
end.
{ cbn [f_img f_update_old f_fnorm f_tnorm f_cost].
  rewrite length_map, !repeat_length. repeat split; auto. }
rewrite rbind_ok, Hk. cbn [bound]. rewrite rbind_ok.
eexists. eexists. eexists. eexists. split; [reflexivity|].
rewrite !length_firstn, Lf, Lt, Lc. split; [exact Li|]. lia.
Qed.

(** X14.  With [max_iter >= 1] and a trajectory entry for every frame,
  [TotalVariationRecon_NLCG] raises on data of fewer than two frames:
  [IndexError] on one frame (the temporal gradient reads entry 0 of an
  empty array of differences) and [ZeroDivisionError] on no frame (the
  fidelity cost divides by the size 0). *)
Theorem solver_needs_two_frames (max_iter : nat) :
(length kdata < 2)%nat -> (length kdata <= length kloc)%nat -> (1 <= max_iter)%nat ->
TotalVariationRecon_NLCG nufft nufft_adjoint kdata kweight kloc sens_map
                         lambda_t max_iter =
Raise (if Nat.eqb (length kdata) 0 then ZeroDivisionError else IndexError).
Proof.
intros H2 Hl Hm. unfold TotalVariationRecon_NLCG, shape3.
match goal with
| |- context [rbind (initial_frames _ _ _ _ ?fr ?os ?im) _] =>
    destruct (@initial_frames_ok _ nufft_adjoint kdata kweight kloc fr os im)
      as (r & -> & Lr)
end.
{ apply Forall_forall. intros i Hi. apply in_seq in Hi. lia. }
rewrite repeat_length in Lr. rewrite rbind_ok.
destruct max_iter as [|n]; [lia|].
cbn [nlcg_loop]. unfold nlcg_body. cbn [f_img].
match goal with
| |- context [fidelity_update _ _ _ _ _ _ ?i] => set (img := i)
end.
assert (Li : length img = length kdata) by (unfold img; rewrite length_map; exact Lr).
destruct (fidelity_update nufft nufft_adjoint kdata kweight kloc sens_map img)
  as [[u fn]|e] eqn:E.
- apply fidelity_update_inv in E.
  rewrite rbind_ok, (temporal_tv_update_short img) by lia.
  destruct (Nat.eqb_spec (length kdata) 0) as [L0|L0]; [lia | reflexivity].
- apply fidelity_update_raise in E.
  destruct E as [[L0 ->]|(L0 & -> & Hs)].
  + rewrite Li in L0. rewrite L0. reflexivity.
  + destruct (Nat.eqb_spec (length kdata) 0) as [L1|L1]; [lia | reflexivity].
Qed.
End FuncSolver.

Lemma solver_returns_witness :
  exists (img : Array) (fnorm tnorm cost : list R),
    TotalVariationRecon_NLCG id_nufft id_nufft_adjoint (px2_kdata 1 5) (px2_kweight 4 1)
                             sample_kloc (px2_sens 2 3) 0 4 =
      Ok (img, fnorm, tnorm, cost) /\
    length img = 2%nat /\ (1 <= length cost <= 4)%nat.
Proof.
  destruct (@solver_returns unit id_nufft id_nufft_adjoint (px2_kdata 1 5)
              (px2_kweight 4 1) sample_kloc (px2_sens 2 3) 0 4)
    as (img & fnorm & tnorm & cost & H & Li & _ & _ & Hc).
  - simpl. lia.
  - simpl. lia.
  - lia.
  - exists img, fnorm, tnorm, cost. repeat split; try assumption; lia.
Defined.

Lemma solver_needs_two_frames_witness :
  TotalVariationRecon_NLCG id_nufft id_nufft_adjoint [[[[(1, 0); (5, 0)]]]]
                           (px2_kweight 4 1) sample_kloc (px2_sens 2 3) 0 4 =
  Raise IndexError.
Proof.
  apply (@solver_needs_two_frames unit id_nufft id_nufft_adjoint [[[[(1, 0); (5, 0)]]]]
           (px2_kweight 4 1) sample_kloc (px2_sens 2 3) 0 4); simpl; lia.
Defined.

(** ** A search that breaks lowers the recorded cost *)

Lemma func_cost_candidate (Coord : Type) (nufft : Array -> Coord -> Array)
      (nufft_adjoint : Array -> Coord -> nat * nat * nat -> Array)
      (kdata : list Array) (kweight : Weights) (kloc : list Coord) (sens_map : Array)
      (lambda_t : R) (img : Array) (u : Array) (fn : R) :
  fidelity_update nufft nufft_adjoint kdata kweight kloc sens_map img = Ok (u, fn) ->
  func_cost nufft nufft_adjoint kdata kweight kloc sens_map lambda_t img =
  fn + calculate_tnorm img lambda_t.
Proof. intros H. unfold func_cost. rewrite H. reflexivity. Qed.

Section FuncDescent.
Variable Coord : Type.
Variable nufft : Array -> Coord -> Array.
Variable nufft_adjoint : Array -> Coord -> nat * nat * nat -> Array.
Variable kdata : list Array.
Variable kweight : Weights.
Variable kloc : list Coord.
Variable sens_map : Array.
Variable lambda_t : R.

Local Abbreviation body :=
  (nlcg_body nufft nufft_adjoint kdata kweight kloc sens_map lambda_t).
Local Abbreviation fcost :=
  (func_candidate_cost nufft nufft_adjoint kdata kweight kloc sens_map lambda_t).

(** X15.  Two passes of the loop of [TotalVariationRecon_NLCG] in a row:
  when the line search of the first pass, run from the image and the
  step size of that pass along the direction the pass leaves in
  [update_old], leaves its loop through the [break], the total cost that
  the second pass records is strictly below the one the first pass
  recorded. *)
Theorem function_break_lowers_recorded_cost
      (iter : nat) (st st' st'' : FVars) (brk brk' : bool) (P : Array) :
body iter st = Ok (st', brk) ->
body (S iter) st' = Ok (st'', brk') ->
f_update_old st' = Some P ->
(S iter < length (f_fnorm st))%nat -> (S iter < length (f_tnorm st))%nat ->
(S iter < length (f_cost st))%nat ->
search_breaks (fcost (f_img st) P) (13 / 10) (8 / 10) 15
              (mkLs (f_step_size st) (nth iter (f_cost st') 0) false 0) = true ->
nth (S iter) (f_cost st'') 0 < nth iter (f_cost st'') 0.
Proof.
intros H1 H2 HP Lf Lt Lc Hbrk.
apply nlcg_body_inv in H1.
destruct H1 as (u & fn & ttv & o & _ & _ & _ & H1). cbv zeta in H1.
destruct H1 as (_ & Hst & _).
apply mkF_fields in Hst. destruct Hst as (Hi & Hu & Hs & Hfn & Htn & Hc & _).
rewrite HP in Hu. apply (f_equal (fun x => match x with Some p => p | None => P end)) in Hu.
rewrite <- Hu in Hs, Hi. rewrite <- Hfn, <- Htn in Hc, Hs, Hi.
rewrite <- Hc in Hs, Hi. rewrite <- Hs in Hi.
apply nlcg_body_inv in H2.
destruct H2 as (u' & fn' & ttv' & o' & E1' & _ & _ & H2). cbv zeta in H2.
destruct H2 as (_ & Hst' & _).
apply mkF_fields in Hst'. destruct Hst' as (_ & _ & _ & _ & _ & Hc' & _).
assert (L1 : length (f_fnorm st') = length (f_fnorm st))
  by (rewrite Hfn; apply length_upd).
assert (L2 : length (f_tnorm st') = length (f_tnorm st))
  by (rewrite Htn; apply length_upd).
assert (L3 : length (f_cost st') = length (f_cost st))
  by (rewrite Hc; apply length_upd).
rewrite Hc'.
rewrite (@nth_upd_neq _ (S iter) iter) by lia.
repeat rewrite nth_upd_eq by lia.
rewrite <- (func_cost_candidate _ _ _ _ _ _ lambda_t _ E1').
rewrite Hi.
change (func_cost nufft nufft_adjoint kdata kweight kloc sens_map lambda_t
          (arr_add (f_img st) (arr_scale (f_step_size st') P)))
  with (fcost (f_img st) P (f_step_size st')).
rewrite Hs.
apply search_loop_bracket; [lra | reflexivity | exact Hbrk].
Qed.
End FuncDescent.

(** A pass that raises the cost before any has lowered it shrinks the
    step and goes on. *)
Lemma search_breaks_shrink (cost : R -> R) (a b : R) (n : nat) (st : LsVars) :
  ls_flag st = false ->
  ls_cost_old st < cost (ls_step_size st) ->
  search_breaks cost a b (S n) st =
  search_breaks cost a b n
    (mkLs (ls_step_size st * b) (ls_cost_old st) false (S (ls_i st))).
Proof.
  intros Hf H. cbn [search_breaks]. cbv zeta. unfold Rgtb.
  rewrite (@Rltb_true (ls_cost_old st) (cost (ls_step_size st))) by lra.
  rewrite Hf. reflexivity.
Qed.

(** The search from step size 2 and reference cost 1 over the cost
    [(1 - s * p)^2], for [p] just below 2: four passes shrink the step,
    the fifth lowers the cost, the sixth breaks. *)
Lemma sample_search_breaks (p : R) :
  199 / 100 < p < 2 ->
  search_breaks (fun s => (1 - s * p) ^ 2) (13 / 10) (8 / 10) 15 (mkLs 2 1 false 0) = true.
Proof.
  intros [Hp1 Hp2].
  rewrite search_breaks_shrink; cbn [ls_flag ls_cost_old ls_step_size ls_i];
    [|reflexivity|nra].
  rewrite search_breaks_shrink; cbn [ls_flag ls_cost_old ls_step_size ls_i];
    [|reflexivity|nra].
  rewrite search_breaks_shrink; cbn [ls_flag ls_cost_old ls_step_size ls_i];
    [|reflexivity|nra].
  rewrite search_breaks_shrink; cbn [ls_flag ls_cost_old ls_step_size ls_i];
    [|reflexivity|nra].
  apply (@search_breaks_after_growth _ _ _ 9 _);
    cbn [ls_flag ls_cost_old ls_step_size]; [reflexivity|nra|nra].
Qed.

Lemma scale_px2 (r a b : R) : arr_scale r (px2 a b) = px2 (r * a) (r * b).
Proof. eval_px2. apply px2_eq; ring. Qed.

Lemma beta_first_px2 (g1 g2 : R) :
  beta_first (px2 g1 g2) = 2 * (g1 * g1 + g2 * g2) / (2 * (g1 * g1 + g2 * g2) + eps).
Proof. unfold beta_first. rewrite vdot_px2. reflexivity. Qed.

Lemma eps_small : eps < 1 / 100.
Proof. unfold eps. lra. Qed.

(** Two passes from the image of zeros on data of ones: the search of the
    first pass breaks. *)
Lemma sample_two_passes :
  exists (st' st'' : FVars) (brk brk' : bool) (P : Array),
    nlcg_body id_nufft id_nufft_adjoint (px2_kdata 1 1) (px2_kweight 1 1)
              sample_kloc (px2_sens 1 1) 0 0
              (mkF (px2 0 0) None 2 [0; 0] [0; 0] [0; 0] None) = Ok (st', brk) /\
    nlcg_body id_nufft id_nufft_adjoint (px2_kdata 1 1) (px2_kweight 1 1)
              sample_kloc (px2_sens 1 1) 0 1 st' = Ok (st'', brk') /\
    f_update_old st' = Some P /\
    search_breaks (func_candidate_cost id_nufft id_nufft_adjoint (px2_kdata 1 1)
                     (px2_kweight 1 1) sample_kloc (px2_sens 1 1) 0 (px2 0 0) P)
                  (13 / 10) (8 / 10) 15
                  (mkLs 2 (nth 0 (f_cost st') 0) false 0) = true.
Proof.
  pose proof (fid_px2 1 1 1 1 1 1 0 0) as E1.
  pose proof (ttv_px2 0 0) as E2.
  assert (L0 : (0 < length (arr_add (px2 (1 * 1 * (1 - 1 * 0)) (1 * 1 * (1 - 1 * 0)))
                                    (arr_scale 0 (px2 0 0))))%nat).
  { rewrite add_scale_px2. simpl. lia. }
  pose proof (@nlcg_body_first unit id_nufft id_nufft_adjoint (px2_kdata 1 1)
                (px2_kweight 1 1) sample_kloc (px2_sens 1 1) 0
                (mkF (px2 0 0) None 2 [0; 0] [0; 0] [0; 0] None) _ _ _ E1 E2 L0) as Hb.
  cbv zeta in Hb. apply pass_pack in Hb.
  destruct Hb as (st' & Hb & Hi & Hu & _ & Hfn & Htn & Hc & _).
  rewrite add_scale_px2, scale_px2 in Hu.
  cbn [f_img f_fnorm f_tnorm f_cost f_step_size] in Hfn, Htn, Hc.
  destruct (@nlcg_body_step unit id_nufft id_nufft_adjoint (px2_kdata 1 1)
              (px2_kweight 1 1) sample_kloc (px2_sens 1 1) 0 2 2
              ltac:(lia) ltac:(simpl; lia) ltac:(simpl; lia) 1%nat st')
    as (st'' & brk' & Hb2 & _).
  { rewrite Hi, Hu, Hfn, Htn, Hc, length_candidate, add_scale_px2, scale_px2.
    repeat split; try reflexivity.
    right. eexists. split; reflexivity. }
  exists st', st''. eexists. exists brk'. eexists.
  split; [exact Hb|]. split; [exact Hb2|]. split; [exact Hu|].
  rewrite (@search_breaks_ext _ (fun s => (1 - s * ((1 + beta_first
             (px2 (1 * 1 * (1 - 1 * 0) + 0 * 0) (1 * 1 * (1 - 1 * 0) + 0 * 0))) *
             (1 * 1 * (1 - 1 * 0) + 0 * 0))) ^ 2)).
  2:{ intros s. rewrite cost_px2. field. }
  replace (nth 0 (f_cost st') 0) with 1.
  2:{ rewrite Hc. cbn [nth upd]. rewrite tnorm_px2. field. }
  apply sample_search_breaks.
  rewrite beta_first_px2.
  pose proof eps_pos as He. pose proof eps_small as He'.
  replace (1 * 1 * (1 - 1 * 0) + 0 * 0) with 1 by ring.
  assert (Hbeta : 99 / 100 < 2 * (1 * 1 + 1 * 1) / (2 * (1 * 1 + 1 * 1) + eps) < 1).
  { set (q := 2 * (1 * 1 + 1 * 1) / (2 * (1 * 1 + 1 * 1) + eps)).
    assert (Hq : q * (4 + eps) = 4) by (unfold q; field; lra).
    split; nra. }
  lra.
Qed.

Lemma function_break_lowers_recorded_cost_witness :
  exists (st' st'' : FVars) (brk brk' : bool),
    nlcg_body id_nufft id_nufft_adjoint (px2_kdata 1 1) (px2_kweight 1 1)
              sample_kloc (px2_sens 1 1) 0 0
              (mkF (px2 0 0) None 2 [0; 0] [0; 0] [0; 0] None) = Ok (st', brk) /\
    nlcg_body id_nufft id_nufft_adjoint (px2_kdata 1 1) (px2_kweight 1 1)
              sample_kloc (px2_sens 1 1) 0 1 st' = Ok (st'', brk') /\
    nth 1 (f_cost st'') 0 < nth 0 (f_cost st'') 0.
Proof.
  destruct sample_two_passes as (st' & st'' & brk & brk' & P & H1 & H2 & HP & Hs).
  exists st', st'', brk, brk'. split; [exact H1|]. split; [exact H2|].
  apply (@function_break_lowers_recorded_cost unit id_nufft id_nufft_adjoint
           (px2_kdata 1 1) (px2_kweight 1 1) sample_kloc (px2_sens 1 1) 0
           0%nat _ st' st'' brk brk' P H1 H2 HP).
  - simpl. lia.
  - simpl. lia.
  - simpl. lia.
  - exact Hs.
Defined.

(** ** A stationary image is a fixed point *)

Lemma arr_map_map (g k : C -> C) (a : Array) :
  arr_map g (arr_map k a) = arr_map (fun z => g (k z)) a.
Proof.
  unfold arr_map. rewrite map_map. apply map_ext. intros f. apply frame_map_map.
Qed.

Lemma arr_map_id (a : Array) : arr_map (fun z => z) a = a.
Proof.
  unfold arr_map, frame_map.
  rewrite (map_ext _ (fun f : Frame => f)); [apply map_id|].
  intros f. rewrite (map_ext _ (fun r : Row => r)); [apply map_id|].
  intros r. apply map_id.
Qed.

Lemma arr_add_zeros (img : Array) (s : R) :
  arr_add img (arr_scale s (zeros_like img)) = img.
Proof.
  unfold arr_add, arr_scale, zeros_like. rewrite arr_map_map, arr_zip_map_r.
  rewrite <- (arr_map_id img) at 2. apply arr_map_ext.
  intros [x y]. unfold Cadd, Cscale, C0; simpl. f_equal; ring.
Qed.

Lemma zipWith_map_both {X Y Z W : Type} (f : Y -> Z -> W) (g : X -> Y) (k : X -> Z)
      (l : list X) :
  zipWith f (map g l) (map k l) = map (fun x => f (g x) (k x)) l.
Proof. induction l as [|x l IH]; simpl; [reflexivity | f_equal; exact IH]. Qed.

Lemma arr_zip_map_both (f : C -> C -> C) (g k : C -> C) (a : Array) :
  arr_zip f (arr_map g a) (arr_map k a) = arr_map (fun z => f (g z) (k z)) a.
Proof.
  unfold arr_zip, arr_map. rewrite zipWith_map_both. apply map_ext. intros fr.
  unfold frame_zip, frame_map. rewrite zipWith_map_both. apply map_ext. intros r.
  apply zipWith_map_both.
Qed.

Lemma conj_direction_zeros (img : Array) (f2 : C) :
  conj_direction (zeros_like img) f2 (zeros_like img) = zeros_like img.
Proof.
  unfold conj_direction, arr_add, arr_cmul, zeros_like.
  rewrite arr_map_map, arr_zip_map_both. apply arr_map_ext.
  intros z. unfold Cadd, Cmul, C0; simpl. f_equal; ring.
Qed.

Lemma length_zeros_like (img : Array) : length (zeros_like img) = length img.
Proof. apply length_arr_map. Qed.

Section Stationary.
Variable Coord : Type.
Variable nufft : Array -> Coord -> Array.
Variable nufft_adjoint : Array -> Coord -> nat * nat * nat -> Array.
Variable kdata : list Array.
Variable kweight : Weights.
Variable kloc : list Coord.
Variable sens_map : Array.
Variable lambda_t : R.

Local Abbreviation fid := (fidelity_update nufft nufft_adjoint kdata kweight kloc sens_map).
Local Abbreviation body :=
  (nlcg_body nufft nufft_adjoint kdata kweight kloc sens_map lambda_t).
Local Abbreviation loop :=
  (nlcg_loop nufft nufft_adjoint kdata kweight kloc sens_map lambda_t).
Local Abbreviation fcost :=
  (func_candidate_cost nufft nufft_adjoint kdata kweight kloc sens_map lambda_t).

Variables (img u ttv : Array) (fn : R).
Hypothesis E1 : fid img = Ok (u, fn).
Hypothesis E2 : temporal_tv_update img = Ok ttv.
Hypothesis HG : arr_add u (arr_scale lambda_t ttv) = zeros_like img.

Lemma stationary_cost (s : R) :
fcost img (zeros_like img) s = fn + calculate_tnorm img lambda_t.
Proof.
unfold func_candidate_cost. rewrite arr_add_zeros.
apply func_cost_candidate with (u := u). exact E1.
Qed.

(** A pass from a state whose image is [img] and whose previous direction,
  if there is one, is the zero array. *)
Lemma stationary_pass (iter : nat) (st : FVars) :
f_img st = img ->
(iter = 0%nat \/ f_update_old st = Some (zeros_like img)) ->
(iter < length (f_fnorm st))%nat -> (iter < length (f_tnorm st))%nat ->
(iter < length (f_cost st))%nat ->
body iter st =
  Ok (mkF img (Some (zeros_like img)) (f_step_size st)
          (upd iter fn (f_fnorm st))
          (upd iter (calculate_tnorm img lambda_t) (f_tnorm st))
          (upd iter (fn + calculate_tnorm img lambda_t) (f_cost st))
          (Some iter),
      Rltb (f_step_size st) (1 / 10000)).
Proof.
intros Hi Ho Lf Lt Lc.
pose proof (fidelity_update_inv _ _ _ _ _ _ _ E1) as (L0 & _).
assert (E3 : (if Nat.eqb iter 0 then Some (arr_add u (arr_scale lambda_t ttv))
              else f_update_old st) = Some (zeros_like img)).
{ destruct (Nat.eqb iter 0) eqn:E0; [rewrite HG; reflexivity|].
  destruct Ho as [->|Ho]; [discriminate | exact Ho]. }
assert (E1' : fid (f_img st) = Ok (u, fn)) by (rewrite Hi; exact E1).
assert (E2' : temporal_tv_update (f_img st) = Ok ttv) by (rewrite Hi; exact E2).
rewrite (@nlcg_body_ok _ nufft nufft_adjoint kdata kweight kloc sens_map lambda_t
           iter st u fn ttv (zeros_like img) E1' E2' E3).
2:{ rewrite HG, conj_direction_zeros, length_zeros_like. exact L0. }
rewrite Hi, HG, conj_direction_zeros.
rewrite !nth_upd_eq by (rewrite ?length_upd; assumption).
rewrite search_loop_all_ties
  by (cbn [ls_step_size ls_cost_old]; apply stationary_cost).
cbn [ls_step_size]. rewrite arr_add_zeros. reflexivity.
Qed.

(** The traces after [k] passes: [k] entries written, the rest still 0. *)
Let trace (v : R) (k j : nat) : list R := repeat v k ++ repeat 0 j.

Lemma upd_trace (v : R) (k j : nat) :
upd k v (trace v k (S j)) = trace v (S k) j.
Proof.
unfold trace. induction k as [|k IH]; [reflexivity|].
cbn [repeat app upd]. f_equal. exact IH.
Qed.

Lemma length_trace (v : R) (k j : nat) : length (trace v k j) = (k + j)%nat.
Proof. unfold trace. rewrite length_app, !repeat_length. reflexivity. Qed.

Lemma stationary_loop (n iter j : nat) (o : option Array) (it : option nat) :
(iter = 0%nat \/ o = Some (zeros_like img)) ->
let tn := calculate_tnorm img lambda_t in
loop (S n) iter
     (mkF img o 2 (trace fn iter (S n + j)) (trace tn iter (S n + j))
          (trace (fn + tn) iter (S n + j)) it) =
  Ok (mkF img (Some (zeros_like img)) 2
          (trace fn (iter + S n) j) (trace tn (iter + S n) j)
          (trace (fn + tn) (iter + S n) j) (Some (iter + n)%nat)).
Proof.
intros Ho tn. revert iter o it Ho. induction n as [|n IH]; intros iter o it Ho.
- match goal with
  | |- nlcg_loop _ _ _ _ _ _ _ _ _ ?st0 = _ =>
      pose proof (@stationary_pass iter st0 eq_refl Ho) as Hb
  end.
  cbn [f_fnorm f_tnorm f_cost f_step_size] in Hb. rewrite !length_trace in Hb.
  specialize (Hb ltac:(lia) ltac:(lia) ltac:(lia)).
  rewrite (@Rltb_false 2 (1 / 10000)) in Hb by lra.
  rewrite (@nlcg_loop_unfold _ nufft nufft_adjoint kdata kweight kloc sens_map lambda_t
             0 _ _ _ _ Hb).
  cbn [Nat.add nlcg_loop]. rewrite !upd_trace.
  replace (iter + 1)%nat with (S iter) by lia.
  replace (iter + 0)%nat with iter by lia. reflexivity.
- match goal with
  | |- nlcg_loop _ _ _ _ _ _ _ _ _ ?st0 = _ =>
      pose proof (@stationary_pass iter st0 eq_refl Ho) as Hb
  end.
  cbn [f_fnorm f_tnorm f_cost f_step_size] in Hb. rewrite !length_trace in Hb.
  specialize (Hb ltac:(lia) ltac:(lia) ltac:(lia)).
  rewrite (@Rltb_false 2 (1 / 10000)) in Hb by lra.
  rewrite (@nlcg_loop_unfold _ nufft nufft_adjoint kdata kweight kloc sens_map lambda_t
             (S n) _ _ _ _ Hb).
  change (S (S n) + j)%nat with (S (S n + j)). rewrite !upd_trace.
  fold tn. rewrite IH by (right; reflexivity).
  replace (S iter + S n)%nat with (iter + S (S n))%nat by lia.
  replace (S iter + n)%nat with (iter + S n)%nat by lia. reflexivity.
Qed.
End Stationary.

Section StationarySolver.
Variable Coord : Type.
Variable nufft : Array -> Coord -> Array.
Variable nufft_adjoint : Array -> Coord -> nat * nat * nat -> Array.
Variable kdata : list Array.
Variable kweight : Weights.
Variable kloc : list Coord.
Variable sens_map : Array.
Variable lambda_t : R.

(** [TotalVariationRecon_NLCG] is its loop run from [initial_image]. *)
Lemma solver_from_initial_image (max_iter : nat) (img : Array) :
initial_image nufft_adjoint kdata kweight kloc sens_map = Ok img ->
TotalVariationRecon_NLCG nufft nufft_adjoint kdata kweight kloc sens_map
                         lambda_t max_iter =
rbind (nlcg_loop nufft nufft_adjoint kdata kweight kloc sens_map lambda_t max_iter 0
         (mkF img None 2 (repeat 0 max_iter) (repeat 0 max_iter) (repeat 0 max_iter) None))
      (fun st =>
         rbind (bound (f_iter st))
               (fun iter => Ok (f_img st, firstn (iter + 1) (f_fnorm st),
                                firstn (iter + 1) (f_tnorm st),
                                firstn (iter + 1) (f_cost st)))).
Proof.
unfold initial_image, TotalVariationRecon_NLCG, shape3.
destruct (initial_frames _ _ _ _ _ _ _) as [r|e]; cbn [rbind]; [|discriminate].
intros H. apply Ok_inj in H. rewrite H. reflexivity.
Qed.

(** X16.  When the combined gradient at the initial image is the zero
  array, every candidate of every line search costs what the image
  costs: the step size stays 2, no pass ends the loop, and
  [TotalVariationRecon_NLCG] returns the initial image as it is, with
  traces of [max_iter] equal entries. *)
Theorem solver_keeps_stationary_image
      (max_iter : nat) (img u ttv : Array) (fn : R) :
initial_image nufft_adjoint kdata kweight kloc sens_map = Ok img ->
fidelity_update nufft nufft_adjoint kdata kweight kloc sens_map img = Ok (u, fn) ->
temporal_tv_update img = Ok ttv ->
arr_add u (arr_scale lambda_t ttv) = zeros_like img ->
(1 <= max_iter)%nat ->
TotalVariationRecon_NLCG nufft nufft_adjoint kdata kweight kloc sens_map
                         lambda_t max_iter =
Ok (img, repeat fn max_iter, repeat (calculate_tnorm img lambda_t) max_iter,
    repeat (fn + calculate_tnorm img lambda_t) max_iter).
Proof.
intros H0 E1 E2 HG Hm. rewrite (solver_from_initial_image max_iter H0).
destruct max_iter as [|n]; [lia|].
pose proof (@stationary_loop _ nufft nufft_adjoint kdata kweight kloc sens_map lambda_t
              img u ttv fn E1 E2 HG n 0%nat 0%nat None None (or_introl eq_refl)) as Hl.
cbv zeta in Hl. rewrite Nat.add_0_r in Hl.
cbn [repeat app Nat.add] in Hl. cbn [repeat].
rewrite Hl, rbind_ok. cbn [f_iter bound f_img f_fnorm f_tnorm f_cost]. rewrite rbind_ok.
rewrite !app_nil_r.
replace (n + 1)%nat with (S n) by lia.
rewrite !firstn_all2 by (cbn [length]; rewrite repeat_length; lia).
reflexivity.
Qed.
End StationarySolver.

Lemma px2_initial_image (c1 c2 w1 w2 y1 y2 : R) :
  initial_image id_nufft_adjoint (px2_kdata y1 y2) (px2_kweight w1 w2) sample_kloc
                (px2_sens c1 c2) = Ok (px2 (c1 * w1 * y1) (c2 * w2 * y2)).
Proof.
  cbv beta iota zeta delta [initial_image initial_frames shape3 px2_kdata px2_sens
                            px2_kweight sample_kloc length hd seq repeat index nth_error
                            rbind upd id_nufft_adjoint kweighted zipWith map coil_combine
                            frame_zip fold_right frame_add Cscale Cmul Cconj Cadd C0
                            fst snd].
  f_equal. apply px2_eq; ring.
Qed.

Lemma solver_keeps_stationary_image_witness :
  TotalVariationRecon_NLCG id_nufft id_nufft_adjoint (px2_kdata 1 1) (px2_kweight 1 1)
                           sample_kloc (px2_sens 1 1) 0 3 =
  Ok (px2 1 1, [0; 0; 0], [0; 0; 0], [0; 0; 0]).
Proof.
  assert (H0 : initial_image id_nufft_adjoint (px2_kdata 1 1) (px2_kweight 1 1)
                             sample_kloc (px2_sens 1 1) = Ok (px2 1 1)).
  { rewrite px2_initial_image. f_equal. apply px2_eq; ring. }
  assert (E1 : fidelity_update id_nufft id_nufft_adjoint (px2_kdata 1 1) (px2_kweight 1 1)
                               sample_kloc (px2_sens 1 1) (px2 1 1) = Ok (px2 0 0, 0)).
  { rewrite fid_px2. f_equal. f_equal; [apply px2_eq; ring | field]. }
  pose proof (@solver_keeps_stationary_image unit id_nufft id_nufft_adjoint
                (px2_kdata 1 1) (px2_kweight 1 1) sample_kloc (px2_sens 1 1) 0 3
                (px2 1 1) (px2 0 0) (px2 0 0) 0 H0 E1 (ttv_px2 1 1)) as H.
  rewrite tnorm_px2 in H. replace (0 + 0) with 0 in H by lra.
  apply H.
  - rewrite add_scale_px2. apply px2_eq; ring.
  - lia.
Defined.

(** ** The loop of [run] *)

Lemma post_bind_with {T U : Type} (m : M T) (k : T -> M U) (Q : T -> Prop)
      (Q' : U -> Prop) :
  post m Q -> (forall v, Q v -> post (k v) Q') -> post (bind m k) Q'.
Proof.
  intros Hm Hk h h' w E. unfold bind in E.
  destruct (m h) as [h1 [v|e]] eqn:Em; [|discriminate].
  eapply Hk; [eapply Hm; exact Em | exact E].
Qed.

Lemma run_loop_post (A AH : Array -> Array) (self : NLCG.Self) (img : loc)
      (n iter : nat) (st : NLCG.RunVars) (L : nat) :
  length (NLCG.r_fnorm st) = L -> length (NLCG.r_tnorm st) = L ->
  length (NLCG.r_cost st) = L ->
  post (NLCG.run_loop A AH self img n iter st)
       (fun st' =>
          length (NLCG.r_fnorm st') = length (NLCG.r_cost st') /\
          length (NLCG.r_tnorm st') = length (NLCG.r_cost st') /\
          (L <= length (NLCG.r_cost st') <= L + n)%nat).
Proof.
  revert iter st L; induction n as [|n IH]; intros iter st L Lf Lt Lc;
    cbn [NLCG.run_loop].
  - apply post_ret. lia.
  - eapply post_bind_with; [apply run_body_post|].
    intros [st' brk] (_ & Hbrk & Hgo). cbn [fst snd] in *.
    destruct brk.
    + apply post_ret. destruct (Hbrk eq_refl) as (-> & -> & ->). lia.
    + destruct (Hgo eq_refl) as (f & t & Ef & Et & Ec).
      intros h h' w E.
      pose proof (IH (S iter) st' (S L)) as Hp.
      rewrite Ef, Et, Ec, !length_app in Hp. cbn [length] in Hp.
      specialize (Hp ltac:(lia) ltac:(lia) ltac:(lia) h h' w E).
      cbv beta in Hp. lia.
Qed.

(** X17.  When [run] returns, the three traces it returns have the same
    length, at most [max_iter]: a pass appends to all three or to
    none. *)
Theorem run_trace_lengths
        (A AH : Array -> Array) (self : NLCG.Self) (h h' : heap) (img : loc)
        (fnorm tnorm cost : list R) :
  NLCG.run A AH self h = (h', Ok (img, fnorm, tnorm, cost)) ->
  length fnorm = length cost /\ length tnorm = length cost /\
  (length cost <= NLCG.max_iter self)%nat.
Proof.
  unfold NLCG.run, bind. intros H.
  destruct (NLCG.run_loop A AH self (NLCG.x self) (NLCG.max_iter self) 0 _ h)
    as [h1 [st|e]] eqn:E; [|discriminate].
  unfold ret in H. injection H as _ _ Hf Ht Hc. subst fnorm tnorm cost.
  pose proof (fun H1 H2 H3 =>
                @run_loop_post A AH self _ _ _ _ 0%nat H1 H2 H3 h h1 st E) as Hp.
  specialize (Hp eq_refl eq_refl eq_refl). cbv beta in Hp. lia.
Qed.

(** One pass of the solver [self_one_pass] on [heap_2x2x2]. *)
Lemma sample_run :
  exists (h' : heap) (img : loc) (fnorm tnorm cost : list R),
    NLCG.run id_operator id_operator self_one_pass heap_2x2x2 =
      (h', Ok (img, fnorm, tnorm, cost)).
Proof.
  destruct (@run_body_ok id_operator id_operator self_one_pass 1%nat 0%nat
              (NLCG.mkRun 2 None None [] [] []) heap_2x2x2)
    with (T := zeros_2x2x2)
         (f2_old := vdot (class_gradient id_operator id_operator ones_2x2x2 0
                                         zeros_2x2x2 zeros_2x2x2)
                         (class_gradient id_operator id_operator ones_2x2x2 0
                                         zeros_2x2x2 zeros_2x2x2))
         (P_old := class_gradient id_operator id_operator ones_2x2x2 0
                                  zeros_2x2x2 zeros_2x2x2)
    as (ext & Hrun & _).
  - simpl. lia.
  - simpl. lia.
  - simpl. lia.
  - apply (@temporal_tv_update_repeat [[(0, 0); (0, 0)]; [(0, 0); (0, 0)]] 2). lia.
  - reflexivity.
  - left. repeat split.
  - rewrite if_pair in Hrun.
    unfold NLCG.run. cbn [NLCG.max_iter NLCG.x NLCG.init_step_size self_one_pass].
    cbn [NLCG.run_loop]. unfold bind. rewrite Hrun. cbn [fst snd].
    match goal with
    | |- context [if ?c then _ else _] => destruct c
    end; eexists; eexists; eexists; eexists; eexists; reflexivity.
Qed.

Lemma run_trace_lengths_witness :
  exists (h' : heap) (img : loc) (fnorm tnorm cost : list R),
    NLCG.run id_operator id_operator self_one_pass heap_2x2x2 =
      (h', Ok (img, fnorm, tnorm, cost)) /\
    length fnorm = length cost /\ (length cost <= 1)%nat.
Proof.
  destruct sample_run as (h' & img & fnorm & tnorm & cost & H).
  exists h', img, fnorm, tnorm, cost. split; [exact H|].
  destruct (@run_trace_lengths id_operator id_operator self_one_pass heap_2x2x2 h'
              img fnorm tnorm cost H) as (H1 & _ & H3).
  split; [exact H1 | exact H3].
Defined.

(** X18.  With [max_iter >= 1], [run] on an image [self.x] of fewer than
    two frames raises [IndexError]: the fidelity gradient has been
    computed and stays on the heap, then the temporal gradient reads entry
    0 of the empty array of differences. *)
Theorem run_needs_two_frames
        (A AH : Array -> Array) (self : NLCG.Self) (h : heap) :
  (NLCG.x self < length h)%nat ->
  (length (nth (NLCG.x self) h []) < 2)%nat ->
  (1 <= NLCG.max_iter self)%nat ->
  NLCG.run A AH self h =
    (h ++ [AH (arr_sub (nth (NLCG.y self) h []) (A (nth (NLCG.x self) h [])))],
     Raise IndexError).
Proof.
  intros Hx H2 Hm. unfold NLCG.run.
  destruct (NLCG.max_iter self) as [|n]; [lia|].
  cbn [NLCG.run_loop].
  set (h1 := h ++ [AH (arr_sub (nth (NLCG.y self) h []) (A (nth (NLCG.x self) h [])))]).
  assert (E1 : NLCG._update_fidelity A AH self (NLCG.x self) h = (h1, Ok (length h)))
    by reflexivity.
  assert (E2 : NLCG._update_temporal_fd (NLCG.x self) h1 = (h1, Raise IndexError)).
  { rewrite _update_temporal_fd_eq. unfold h1.
    rewrite (@nth_heap_app (NLCG.x self) h _ Hx).
    rewrite (temporal_tv_update_short _ H2). reflexivity. }
  apply bind_raise. apply bind_raise. unfold NLCG.run_body.
  rewrite (@bind_ok _ _ _ _ _ _ _ E1). apply bind_raise. exact E2.
Qed.

Lemma run_needs_two_frames_witness :
  NLCG.run id_operator id_operator sample_self [ones_2x1x1; [[[(1, 0)]]]] =
    ([ones_2x1x1; [[[(1, 0)]]]] ++
       [id_operator (arr_sub ones_2x1x1 (id_operator [[[(1, 0)]]]))],
     Raise IndexError).
Proof.
  apply (@run_needs_two_frames id_operator id_operator sample_self
           [ones_2x1x1; [[[(1, 0)]]]]); simpl; lia.
Defined.

(** ** The temporal terms see differences only *)

Lemma Csub_shift (a b c : C) : Csub (Cadd a c) (Cadd b c) = Csub a b.
Proof. unfold Csub, Cadd; simpl. f_equal; ring. Qed.

Lemma row_sub_shift (rc r1 r0 : Row) :
  length r1 = length rc -> length r0 = length rc ->
  zipWith Csub (zipWith Cadd r1 rc) (zipWith Cadd r0 rc) = zipWith Csub r1 r0.
Proof.
  revert r1 r0; induction rc as [|z rc IH]; intros [|a r1] [|b r0] H1 H0;
    simpl in *; try discriminate; try reflexivity.
  rewrite Csub_shift, IH by lia. reflexivity.
Qed.

Lemma row_zeros_shift (rc r : Row) :
  length r = length rc ->
  map (fun _ : C => C0) (zipWith Cadd r rc) = map (fun _ : C => C0) r.
Proof.
  revert r; induction rc as [|z rc IH]; intros [|a r] H; simpl in *;
    try discriminate; try reflexivity.
  rewrite IH by lia. reflexivity.
Qed.

Lemma rect_frame_cons (ny nx : nat) (r : Row) (f : Frame) :
  rect_frame (S ny) nx (r :: f) <-> length r = nx /\ rect_frame ny nx f.
Proof.
  unfold rect_frame. simpl. split.
  - intros [Hl Hr]. inversion Hr; subst. repeat split; try assumption. lia.
  - intros (Hr & Hl & Hf). split; [lia | constructor; assumption].
Qed.

Lemma rect_frame_nil (ny nx : nat) : rect_frame ny nx [] -> ny = 0%nat.
Proof. intros [H _]. simpl in H. lia. Qed.

Lemma frame_sub_shift (ny nx : nat) (c f1 f0 : Frame) :
  rect_frame ny nx c -> rect_frame ny nx f1 -> rect_frame ny nx f0 ->
  frame_sub (frame_add f1 c) (frame_add f0 c) = frame_sub f1 f0.
Proof.
  unfold frame_sub, frame_add, frame_zip.
  revert ny f1 f0; induction c as [|rc c IH]; intros ny [|r1 f1] [|r0 f0] Hc H1 H0;
    try reflexivity;
    try (apply rect_frame_nil in Hc; subst ny; destruct H1 as [H1 _]; discriminate);
    try (apply rect_frame_nil in Hc; subst ny; destruct H0 as [H0 _]; discriminate);
    try (apply rect_frame_nil in H1; subst ny; destruct Hc as [Hc _]; discriminate);
    try (apply rect_frame_nil in H0; subst ny; destruct Hc as [Hc _]; discriminate).
  destruct ny as [|ny]; [destruct Hc as [Hc _]; discriminate|].
  apply rect_frame_cons in Hc, H1, H0.
  destruct Hc as [Lc Hc], H1 as [L1 H1], H0 as [L0 H0].
  cbn [zipWith]. rewrite row_sub_shift by congruence.
  f_equal. apply (IH ny); assumption.
Qed.

Lemma frame_zeros_shift (ny nx : nat) (c f : Frame) :
  rect_frame ny nx c -> rect_frame ny nx f ->
  frame_map (fun _ => C0) (frame_add f c) = frame_map (fun _ => C0) f.
Proof.
  unfold frame_map, frame_add, frame_zip.
  revert ny f; induction c as [|rc c IH]; intros ny [|r f] Hc Hf;
    try reflexivity;
    try (apply rect_frame_nil in Hc; subst ny; destruct Hf as [Hf _]; discriminate).
  destruct ny as [|ny]; [destruct Hc as [Hc _]; discriminate|].
  apply rect_frame_cons in Hc, Hf. destruct Hc as [Lc Hc], Hf as [Lf Hf].
  cbn [zipWith map]. rewrite row_zeros_shift by congruence.
  f_equal. apply (IH ny); assumption.
Qed.

Lemma size_zeros_like (a : Array) : size (zeros_like a) = size a.
Proof.
  unfold size, flatten, zeros_like, arr_map. rewrite map_map.
  induction a as [|f a IH]; simpl; [reflexivity|].
  rewrite !length_app, IH. f_equal.
  unfold frame_flatten, frame_map. clear. induction f as [|r f IH]; simpl; [reflexivity|].
  rewrite !length_app, IH, length_map. reflexivity.
Qed.

Section Offset.
Variables (ny nx : nat) (c : Frame).
Hypothesis Hc : rect_frame ny nx c.

(** [img + c], the frame [c] added to every frame of [img]. *)
Let shift (img : Array) : Array := map (fun f => frame_add f c) img.

Lemma diff_shift (img : Array) : rect ny nx img -> diff (shift img) = diff img.
Proof.
induction img as [|f0 [|f1 t] IH]; intros Hr; try reflexivity.
inversion Hr as [|? ? H0 Hr']; subst. inversion Hr' as [|? ? H1 _]; subst.
change (shift (f0 :: f1 :: t))
  with (frame_add f0 c :: frame_add f1 c :: shift t).
change (diff (frame_add f0 c :: frame_add f1 c :: shift t))
  with (frame_sub (frame_add f1 c) (frame_add f0 c) :: diff (shift (f1 :: t))).
rewrite IH by exact Hr'. rewrite (frame_sub_shift Hc H1 H0). reflexivity.
Qed.

Lemma zeros_like_shift (img : Array) :
rect ny nx img -> zeros_like (shift img) = zeros_like img.
Proof.
intros Hr. unfold zeros_like, arr_map, shift. rewrite map_map.
apply map_ext_in. intros f Hf.
apply (@frame_zeros_shift ny nx c f Hc).
unfold rect in Hr. rewrite Forall_forall in Hr. apply Hr. exact Hf.
Qed.

Lemma size_shift (img : Array) : rect ny nx img -> size (shift img) = size img.
Proof.
intros Hr. rewrite <- (size_zeros_like (shift img)), zeros_like_shift by exact Hr.
apply size_zeros_like.
Qed.
End Offset.

(** X19.  The temporal-TV gradient and the temporal cost of both solvers
    depend on the image through its temporal differences only: adding one
    and the same frame [c] to every frame of an image (frames and [c] of
    one shape) changes neither of them. *)
Theorem temporal_terms_ignore_constant_offset
        (ny nx : nat) (c : Frame) (img : Array) (lambda_t : R) :
  rect_frame ny nx c -> rect ny nx img ->
  let shifted := map (fun f => frame_add f c) img in
  temporal_tv_update shifted = temporal_tv_update img /\
  calculate_tnorm shifted lambda_t = calculate_tnorm img lambda_t /\
  (forall (self : NLCG.Self) (h : heap) (l l' : loc),
      nth l h [] = shifted -> nth l' h [] = img ->
      snd (NLCG._calculate_tnorm self l h) = snd (NLCG._calculate_tnorm self l' h) /\
      NLCG._update_temporal_fd l h =
        match temporal_tv_update img with
        | Ok g => (h ++ [g], Ok (length h))
        | Raise e => (h, Raise e)
        end).
Proof.
  intros Hc Hr shifted.
  pose proof (diff_shift Hc Hr) as Hd.
  pose proof (zeros_like_shift Hc Hr) as Hz.
  pose proof (size_shift Hc Hr) as Hs.
  assert (Hg : temporal_tv_update shifted = temporal_tv_update img).
  { unfold temporal_tv_update, shifted. rewrite Hd, Hz. reflexivity. }
  assert (Ht : forall lam, calculate_tnorm shifted lam = calculate_tnorm img lam).
  { intros lam. unfold calculate_tnorm, shifted. rewrite Hd, Hs. reflexivity. }
  split; [exact Hg|]. split; [apply Ht|].
  intros self h l l' Hl Hl'. split.
  - rewrite !_calculate_tnorm_eq, Hl, Hl', Ht. reflexivity.
  - rewrite _update_temporal_fd_eq, Hl, Hg. reflexivity.
Qed.

Lemma temporal_terms_ignore_constant_offset_witness :
  temporal_tv_update
    (map (fun f => frame_add f [[(5, 1); (7, 0)]])
         [[[(1, 0); (2, 0)]]; [[(4, 0); (2, 0)]]]) =
  temporal_tv_update [[[(1, 0); (2, 0)]]; [[(4, 0); (2, 0)]]].
Proof.
  destruct (@temporal_terms_ignore_constant_offset 1 2 [[(5, 1); (7, 0)]]
              [[[(1, 0); (2, 0)]]; [[(4, 0); (2, 0)]]] 3) as [H _].
  - repeat constructor.
  - repeat constructor.
  - exact H.
Defined.
